(** * common.mts: wire protocol and movement simulation of the multiplayer
      game prototype

    A shallow embedding of [src/common.mts].  JavaScript numbers are IEEE 754
    binary64 values; they are modelled by the Standard Library's executable
    specification of binary floating point ([SpecFloat], the specification of
    Rocq's primitive floats) at precision 53 and maximal exponent 1024, so
    that rounding, signed zeros, infinities and NaN behave as they do in the
    running program. *)

From Stdlib Require Import ZArith QArith Qabs Qpower Lia Lqa Bool List String Ascii.
From Stdlib Require Import SpecFloat.
Import ListNotations.

Local Open Scope Z_scope.

(** ** JavaScript numbers *)

(** The binary64 format: 53 bits of precision, exponents below 1024. *)
Definition prec : Z := 53.
Definition emax : Z := 1024.

Definition number : Type := spec_float.

Definition SF64add : number -> number -> number := SFadd prec emax.
Definition SF64mul : number -> number -> number := SFmul prec emax.
Definition SF64div : number -> number -> number := SFdiv prec emax.

(** The number denoted by an integer literal (exact below 2^53). *)
Definition num_of_Z (z : Z) : number := binary_normalize prec emax z 0 false.

Definition is_finite (v : number) : bool :=
  match v with
  | S754_zero _ | S754_finite _ _ _ => true
  | S754_infinity _ | S754_nan => false
  end.

(** The rational a finite number denotes (0 for infinities and NaN). *)
Definition SF2Q (v : number) : Q :=
  match v with
  | S754_finite s m e => (inject_Z (cond_Zopp s (Zpos m)) * (2 # 1) ^ e)%Q
  | _ => 0%Q
  end.

(** [a % b] on numbers.  The remainder keeps the sign of the dividend and is
    always exactly representable, so nothing is rounded: both operands are
    brought to the smaller of the two exponents, the mantissas are divided,
    and the remainder is shifted to its canonical exponent. *)
Definition SF64rem (a b : number) : number :=
  match a, b with
  | S754_nan, _ | _, S754_nan => S754_nan
  | S754_infinity _, _ => S754_nan
  | _, S754_zero _ => S754_nan
  | S754_zero _, _ => a
  | S754_finite _ _ _, S754_infinity _ => a
  | S754_finite sa ma ea, S754_finite _ mb eb =>
      let e := Z.min ea eb in
      match Z.rem (Zpos (fst (shl_align ma ea e))) (Zpos (fst (shl_align mb eb e))) with
      | Zpos mr =>
          let '(m, e') := shl_align mr e (fexp prec emax (Zpos (digits2_pos mr) + e)) in
          S754_finite sa m e'
      | _ => S754_zero sa
      end
  end.

(** [a === b] and [a !== b] on two numbers. *)
Definition strict_eq (a b : number) : bool := SFeqb a b.
Definition strict_neq (a b : number) : bool := negb (SFeqb a b).

Declare Scope num_scope.
Delimit Scope num_scope with num.
Bind Scope num_scope with number.
Infix "+" := SF64add : num_scope.
Infix "*" := SF64mul : num_scope.
Infix "/" := SF64div : num_scope.
Infix "mod" := SF64rem (at level 40, no associativity) : num_scope.
Notation "- x" := (SFopp x) : num_scope.
Notation "a !== b" := (strict_neq a b) (at level 70, no associativity) : num_scope.

(** ** World constants *)

Definition SERVER_PORT : number := num_of_Z 6970.
Definition WORLD_FACTOR : number := num_of_Z 200.
Definition WORLD_WIDTH : number := (num_of_Z 4 * WORLD_FACTOR)%num.
Definition WORLD_HEIGHT : number := (num_of_Z 3 * WORLD_FACTOR)%num.
Definition PLAYER_SIZE : number := num_of_Z 30.
Definition PLAYER_SPEED : number := num_of_Z 500.

(** ** Directions and players *)

Module Vector2.
Record t : Type := mk { x : number; y : number }.
End Vector2.

(** The object literal [DIRECTION_VECTORS]: its own properties in insertion
    order, which is the order a [for ... in] loop enumerates them in. *)
Definition DIRECTION_VECTORS : list (string * Vector2.t) :=
  [ ("left"%string,  Vector2.mk (- num_of_Z 1)%num (num_of_Z 0));
    ("right"%string, Vector2.mk (num_of_Z 1) (num_of_Z 0));
    ("up"%string,    Vector2.mk (num_of_Z 0) (- num_of_Z 1)%num);
    ("down"%string,  Vector2.mk (num_of_Z 0) (num_of_Z 1)) ].

Module Moving.
Record t : Type := mk { left : bool; right : bool; up : bool; down : bool }.

(** [moving[dir]]: the flag stored under a key, [undefined] (falsy) for a
    key the object does not have. *)
Definition get (m : t) (dir : string) : bool :=
  if String.eqb dir "left" then left m
  else if String.eqb dir "right" then right m
  else if String.eqb dir "up" then up m
  else if String.eqb dir "down" then down m
  else false.
End Moving.

Record Player : Type := mkPlayer {
  id : number;
  x : number;
  y : number;
  moving : Moving.t;
  hue : number;
}.

(** ** Movement engine *)

(** [(a%b + b)%b], with [mod] standing for the remainder operator. *)
Definition properMod (a b : number) : number := ((a mod b + b) mod b)%num.

(** The loop of [updatePlayer]: the sum of the vectors of the flagged
    directions, accumulated in enumeration order from [(0, 0)]. *)
Definition sumDirections (m : Moving.t) : number * number :=
  fold_left
    (fun acc entry =>
       if Moving.get m (fst entry)
       then ((fst acc + Vector2.x (snd entry))%num, (snd acc + Vector2.y (snd entry))%num)
       else acc)
    DIRECTION_VECTORS (num_of_Z 0, num_of_Z 0).

(** [l = dx*dx + dy*dy]. *)
Definition squaredLength (d : number * number) : number :=
  (fst d * fst d + snd d * snd d)%num.

(** [if (l !== 0) { dx /= l; dy /= l; }]. *)
Definition normalize (d : number * number) : number * number :=
  let l := squaredLength d in
  if (l !== num_of_Z 0)%num then ((fst d / l)%num, (snd d / l)%num) else d.

(** The movement added to each coordinate before the wrap:
    [dx*PLAYER_SPEED*deltaTime] and [dy*PLAYER_SPEED*deltaTime]. *)
Definition displacement (m : Moving.t) (deltaTime : number) : number * number :=
  let d := normalize (sumDirections m) in
  ((fst d * PLAYER_SPEED * deltaTime)%num, (snd d * PLAYER_SPEED * deltaTime)%num).

(** [updatePlayer] assigns [player.x] and [player.y] in place; the updated
    player is returned here. *)
Definition updatePlayer (player : Player) (deltaTime : number) : Player :=
  let d := displacement (moving player) deltaTime in
  {| id := id player;
     x := properMod (x player + fst d)%num WORLD_WIDTH;
     y := properMod (y player + snd d)%num WORLD_HEIGHT;
     moving := moving player;
     hue := hue player |}.

(** A run of ticks: [updatePlayer] called once per [deltaTime] of the list. *)
Definition updatePlayerMany (player : Player) (deltaTimes : list number) : Player :=
  fold_left updatePlayer deltaTimes player.


(** ** Completions

    A JavaScript call either returns a value or throws. *)

Inductive JSError : Type := RangeError | TypeError.

Inductive Completion (A : Type) : Type :=
  | Normal (a : A)
  | Throw (e : JSError).
Arguments Normal {A} a.
Arguments Throw {A} e.

Definition bind {A B : Type} (c : Completion A) (k : A -> Completion B) : Completion B :=
  match c with
  | Normal a => k a
  | Throw e => Throw e
  end.

Notation "x <- c ;; k" := (bind c (fun x => k))
  (at level 61, c at next level, right associativity).

(** ** DataView

    The bytes a [DataView] covers, each an integer of [[0, 256)].  Offsets
    are integers, as the offsets of a schema and the base offsets the
    fields are used with are; what an accessor makes of an offset that is
    no integer is left out.  An access that does not fit in the view throws
    a [RangeError]. *)

Definition DataView : Type := list Z.

Definition in_view (view : DataView) (byteOffset size : Z) : bool :=
  (0 <=? byteOffset)%Z && (byteOffset + size <=? Z.of_nat (List.length view))%Z.

Definition getByte (view : DataView) (i : Z) : Z := nth (Z.to_nat i) view 0%Z.

Fixpoint setNth (view : DataView) (n : nat) (b : Z) : DataView :=
  match view, n with
  | [], _ => []
  | _ :: rest, O => b :: rest
  | c :: rest, S n' => c :: setNth rest n' b
  end.

Definition setByte (view : DataView) (i : Z) (b : Z) : DataView :=
  setNth view (Z.to_nat i) b.

(** The integer part of a number, rounded towards zero; 0 for NaN and the
    infinities, as in the conversions to the unsigned integer types. *)
Definition truncate (v : number) : Z :=
  match v with
  | S754_finite s m e =>
      cond_Zopp s (if (0 <=? e)%Z then Zpos m * 2 ^ e else Zpos m / 2 ^ (- e))%Z
  | _ => 0%Z
  end.

Definition ToUint8 (v : number) : Z := (truncate v mod 2 ^ 8)%Z.
Definition ToUint32 (v : number) : Z := (truncate v mod 2 ^ 32)%Z.

(** Little-endian bytes of a 32-bit unsigned integer, and back. *)
Definition bytes_of_uint32 (u : Z) : list Z :=
  [ (u mod 256)%Z; (u / 2 ^ 8 mod 256)%Z; (u / 2 ^ 16 mod 256)%Z; (u / 2 ^ 24 mod 256)%Z ].

Definition uint32_of_bytes (b0 b1 b2 b3 : Z) : Z :=
  (b0 + b1 * 2 ^ 8 + b2 * 2 ^ 16 + b3 * 2 ^ 24)%Z.

(** The binary32 format: 24 bits of precision, exponents below 128. *)
Definition prec32 : Z := 24.
Definition emax32 : Z := 128.

(** A number rounded to binary32 (to nearest, ties to even), and a binary32
    value read as a number, which is exact. *)
Definition to_binary32 (v : number) : spec_float :=
  match v with
  | S754_finite s m e => binary_round prec32 emax32 s m e
  | _ => v
  end.

Definition of_binary32 (f : spec_float) : number :=
  match f with
  | S754_finite s m e => binary_round prec emax s m e
  | _ => f
  end.

(** [Math.fround]: what a number becomes when it is stored as a binary32
    value and read back. *)
Definition fround (v : number) : number := of_binary32 (to_binary32 v).

Definition sign_bit (s : bool) : Z := if s then (2 ^ 31)%Z else 0%Z.

(** The 32 bits of a binary32 value: sign, biased exponent, fraction.  NaN
    is stored as the quiet NaN [0x7fc00000]. *)
Definition bits_of_binary32 (f : spec_float) : Z :=
  match f with
  | S754_zero s => sign_bit s
  | S754_infinity s => (sign_bit s + 255 * 2 ^ 23)%Z
  | S754_nan => (255 * 2 ^ 23 + 2 ^ 22)%Z
  | S754_finite s m e =>
      if (Zpos m <? 2 ^ 23)%Z then (sign_bit s + Zpos m)%Z
      else (sign_bit s + (e + 150) * 2 ^ 23 + (Zpos m - 2 ^ 23))%Z
  end.

Definition binary32_of_bits (b : Z) : spec_float :=
  let s := (2 ^ 31 <=? b)%Z in
  let E := (b / 2 ^ 23 mod 2 ^ 8)%Z in
  let M := (b mod 2 ^ 23)%Z in
  if (E =? 0)%Z then
    match M with
    | Zpos m => S754_finite s m (-149)
    | _ => S754_zero s
    end
  else if (E =? 255)%Z then
    (if (M =? 0)%Z then S754_infinity s else S754_nan)
  else
    match (M + 2 ^ 23)%Z with
    | Zpos m => S754_finite s m (E - 150)
    | _ => S754_nan
    end.

(** The accessors used by the fields; the multi-byte ones are called with
    [littleEndian = true]. *)
Definition getUint8 (view : DataView) (byteOffset : Z) : Completion number :=
  if in_view view byteOffset 1 then Normal (num_of_Z (getByte view byteOffset))
  else Throw RangeError.

Definition setUint8 (view : DataView) (byteOffset : Z) (value : number) : Completion DataView :=
  if in_view view byteOffset 1 then Normal (setByte view byteOffset (ToUint8 value))
  else Throw RangeError.

Definition getWord (view : DataView) (byteOffset : Z) : Z :=
  uint32_of_bytes (getByte view byteOffset) (getByte view (byteOffset + 1))
                  (getByte view (byteOffset + 2)) (getByte view (byteOffset + 3)).

Definition setWord (view : DataView) (byteOffset : Z) (u : Z) : DataView :=
  match bytes_of_uint32 u with
  | [b0; b1; b2; b3] =>
      setByte (setByte (setByte (setByte view byteOffset b0) (byteOffset + 1) b1)
                       (byteOffset + 2) b2) (byteOffset + 3) b3
  | _ => view
  end.

Definition getUint32 (view : DataView) (byteOffset : Z) : Completion number :=
  if in_view view byteOffset 4 then Normal (num_of_Z (getWord view byteOffset))
  else Throw RangeError.

Definition setUint32 (view : DataView) (byteOffset : Z) (value : number) : Completion DataView :=
  if in_view view byteOffset 4 then Normal (setWord view byteOffset (ToUint32 value))
  else Throw RangeError.

Definition getFloat32 (view : DataView) (byteOffset : Z) : Completion number :=
  if in_view view byteOffset 4
  then Normal (of_binary32 (binary32_of_bits (getWord view byteOffset)))
  else Throw RangeError.

Definition setFloat32 (view : DataView) (byteOffset : Z) (value : number) : Completion DataView :=
  if in_view view byteOffset 4
  then Normal (setWord view byteOffset (bits_of_binary32 (to_binary32 value)))
  else Throw RangeError.

(** ** Binary schema builder *)

Module Field.
Record t : Type := mk {
  offset : Z;
  size : Z;
  read : DataView -> Z -> Completion number;
  write : DataView -> Z -> number -> Completion DataView;
}.
End Field.

Definition UINT8_SIZE : Z := 1.
Definition UINT32_SIZE : Z := 4.
Definition FLOAT32_SIZE : Z := 4.

(** The allocator object [{ iota }]: the next free byte.  An allocation
    returns the field and the allocator as the call leaves it. *)
Record Allocator : Type := mkAllocator { iota : Z }.

Definition allocUint8Field (allocator : Allocator) : Field.t * Allocator :=
  let offset := iota allocator in
  let size := UINT8_SIZE in
  let allocator := {| iota := (iota allocator + size)%Z |} in
  ({| Field.offset := offset;
      Field.size := size;
      Field.read := fun view baseOffset => getUint8 view (baseOffset + offset)%Z;
      Field.write := fun view baseOffset value => setUint8 view (baseOffset + offset)%Z value |},
   allocator).

Definition allocUint32Field (allocator : Allocator) : Field.t * Allocator :=
  let offset := iota allocator in
  let size := UINT32_SIZE in
  let allocator := {| iota := (iota allocator + size)%Z |} in
  ({| Field.offset := offset;
      Field.size := size;
      Field.read := fun view baseOffset => getUint32 view (baseOffset + offset)%Z;
      Field.write := fun view baseOffset value => setUint32 view (baseOffset + offset)%Z value |},
   allocator).

Definition allocFloat32Field (allocator : Allocator) : Field.t * Allocator :=
  let offset := iota allocator in
  let size := FLOAT32_SIZE in
  let allocator := {| iota := (iota allocator + size)%Z |} in
  ({| Field.offset := offset;
      Field.size := size;
      Field.read := fun view baseOffset => getFloat32 view (baseOffset + offset)%Z;
      Field.write := fun view baseOffset value => setFloat32 view (baseOffset + offset)%Z value |},
   allocator).

(** [enum MessageKind { Hello, PlayerJoined }]. *)
Module MessageKind.
Definition Hello : number := num_of_Z 0.
Definition PlayerJoined : number := num_of_Z 1.
End MessageKind.

Module Hello.
Record t : Type := mk {
  kind : Field.t;
  id : Field.t;
  x : Field.t;
  y : Field.t;
  hue : Field.t;
  size : Z;
}.
End Hello.

(** [[kind: Uint8] [id: Uint32] [x: Float32] [y: Float32] [hue: Uint8]]: the
    properties of the object literal are evaluated in the order they are
    written, each allocation seeing the allocator the previous one left. *)
Definition HelloStruct : Hello.t :=
  let allocator := {| iota := 0 |} in
  let '(kind, allocator) := allocUint8Field allocator in
  let '(id, allocator) := allocUint32Field allocator in
  let '(x, allocator) := allocFloat32Field allocator in
  let '(y, allocator) := allocFloat32Field allocator in
  let '(hue, allocator) := allocUint8Field allocator in
  {| Hello.kind := kind; Hello.id := id; Hello.x := x; Hello.y := y; Hello.hue := hue;
     Hello.size := iota allocator |}.

(** The round trip of the handshake record: every field written, in
    declaration order, at [baseOffset]. *)
Definition writeHello (view : DataView) (baseOffset : Z) (id x y hue : number)
  : Completion DataView :=
  view <- Field.write (Hello.kind HelloStruct) view baseOffset MessageKind.Hello ;;
  view <- Field.write (Hello.id HelloStruct) view baseOffset id ;;
  view <- Field.write (Hello.x HelloStruct) view baseOffset x ;;
  view <- Field.write (Hello.y HelloStruct) view baseOffset y ;;
  Field.write (Hello.hue HelloStruct) view baseOffset hue.

(** ** Values decoded from the wire

    What the validators are called with: a value [JSON.parse] can return
    (or [undefined]).  An object is the list of its own properties, each
    name listed once. *)

#[warnings="-register-all"] Inductive JSValue : Type :=
  | JSUndefined
  | JSNull
  | JSBool (b : bool)
  | JSNumber (n : number)
  | JSString (s : string)
  | JSArray (items : list JSValue)
  | JSObject (props : list (string * JSValue)).

(** [ToBoolean]: [undefined], [null], [false], zeros, [NaN] and the empty
    string are falsy. *)
Definition ToBoolean (v : JSValue) : bool :=
  match v with
  | JSUndefined | JSNull => false
  | JSBool b => b
  | JSNumber (S754_zero _) | JSNumber S754_nan => false
  | JSNumber _ => true
  | JSString EmptyString => false
  | JSString _ => true
  | JSArray _ | JSObject _ => true
  end.

Definition isNumber (arg : JSValue) : bool :=
  match arg with JSNumber _ => true | _ => false end.

Definition isString (arg : JSValue) : bool :=
  match arg with JSString _ => true | _ => false end.

Definition isBoolean (arg : JSValue) : bool :=
  match arg with JSBool _ => true | _ => false end.

(** [v === 'literal']. *)
Definition strictEqualsString (v : JSValue) (literal : string) : bool :=
  match v with
  | JSString s => String.eqb s literal
  | _ => false
  end.

Fixpoint lookup {A : Type} (key : string) (props : list (string * A)) : option A :=
  match props with
  | [] => None
  | (k, v) :: rest => if String.eqb k key then Some v else lookup key rest
  end.

(** The properties the validators read. *)
Inductive EventField : Type :=
  | f_kind | f_id | f_x | f_y | f_hue | f_start | f_direction.

Definition fieldName (f : EventField) : string :=
  match f with
  | f_kind => "kind"
  | f_id => "id"
  | f_x => "x"
  | f_y => "y"
  | f_hue => "hue"
  | f_start => "start"
  | f_direction => "direction"
  end.

(** [arg.field].  Reading a property of [undefined] or [null] throws a
    [TypeError].  An object yields its own property of that name; no
    prototype of an object, array, string, number or boolean defines one of
    the names of [EventField], so every other read yields [undefined]. *)
Definition getField (arg : JSValue) (f : EventField) : Completion JSValue :=
  match arg with
  | JSUndefined | JSNull => Throw TypeError
  | JSObject props =>
      match lookup (fieldName f) props with
      | Some v => Normal v
      | None => Normal JSUndefined
      end
  | _ => Normal JSUndefined
  end.

(** [a && b]: [b] is evaluated only when [a] is truthy; a falsy [a] is the
    result. *)
Definition js_and (a : Completion JSValue) (b : unit -> Completion JSValue)
  : Completion JSValue :=
  v <- a ;; if ToBoolean v then b tt else Normal v.

Notation "a &&& b" := (js_and a (fun _ => b)) (at level 40, left associativity).

(** The names every plain object inherits from [Object.prototype]; each of
    them reads as a function or an object, never as [undefined]. *)
Definition Object_prototype_keys : list string :=
  [ "constructor"; "hasOwnProperty"; "isPrototypeOf"; "propertyIsEnumerable";
    "toLocaleString"; "toString"; "valueOf"; "__proto__";
    "__defineGetter__"; "__defineSetter__"; "__lookupGetter__"; "__lookupSetter__" ]%string.

Definition string_in (s : string) (l : list string) : bool :=
  existsb (String.eqb s) l.

Fixpoint join (sep : string) (parts : list string) : string :=
  match parts with
  | [] => EmptyString
  | [p] => p
  | p :: rest => (p ++ sep ++ join sep rest)%string
  end.

Section Validators.

(** [Number::toString], the decimal rendering of a number, is the
    runtime's. *)
Variable Number_toString : number -> string.

(** [ToString] of a decoded value, as the conversion to a property key
    runs it.  A primitive has its rendering.  An array is converted by
    [Array.prototype.join]: its elements are converted from the first to
    the last, [undefined] and [null] as the empty string, and written with
    commas between them.  A plain object is converted by the first callable
    of its [toString] and [valueOf]: [Object.prototype.toString], which
    answers ["[object Object]"], unless the object has an own property
    [toString]; a decoded own property is never callable and the inherited
    [valueOf] answers the object itself, so the conversion then throws a
    [TypeError]. *)
Fixpoint ToString (v : JSValue) : Completion string :=
  match v with
  | JSUndefined => Normal "undefined"%string
  | JSNull => Normal "null"%string
  | JSBool true => Normal "true"%string
  | JSBool false => Normal "false"%string
  | JSNumber n => Normal (Number_toString n)
  | JSString s => Normal s
  | JSArray items =>
      parts <- (fix elements (items : list JSValue) : Completion (list string) :=
                  match items with
                  | [] => Normal []
                  | item :: rest =>
                      part <- match item with
                              | JSUndefined | JSNull => Normal EmptyString
                              | _ => ToString item
                              end ;;
                      parts <- elements rest ;;
                      Normal (part :: parts)
                  end) items ;;
      Normal (join ","%string parts)
  | JSObject props =>
      match lookup "toString"%string props with
      | Some _ => Throw TypeError
      | None => Normal "[object Object]"%string
      end
  end.

(** [DIRECTION_VECTORS[arg] !== undefined]: [arg] is converted to a
    property key, which can throw, and the key is looked up among the own
    properties of the table and then along its prototype chain. *)
Definition isDirection (arg : JSValue) : Completion bool :=
  key <- ToString arg ;;
  Normal match lookup key DIRECTION_VECTORS with
         | Some _ => true
         | None => string_in key Object_prototype_keys
         end.

Definition isPlayerJoined (arg : JSValue) : Completion JSValue :=
  Normal arg
  &&& (kind <- getField arg f_kind ;; Normal (JSBool (strictEqualsString kind "PlayerJoined")))
  &&& (id <- getField arg f_id ;; Normal (JSBool (isNumber id)))
  &&& (x <- getField arg f_x ;; Normal (JSBool (isNumber x)))
  &&& (y <- getField arg f_y ;; Normal (JSBool (isNumber y)))
  &&& (hue <- getField arg f_hue ;; Normal (JSBool (isNumber hue))).

Definition isPlayerLeft (arg : JSValue) : Completion JSValue :=
  Normal arg
  &&& (kind <- getField arg f_kind ;; Normal (JSBool (strictEqualsString kind "PlayerLeft")))
  &&& (id <- getField arg f_id ;; Normal (JSBool (isNumber id))).

Definition isAmmaMoving (arg : JSValue) : Completion JSValue :=
  Normal arg
  &&& (kind <- getField arg f_kind ;; Normal (JSBool (strictEqualsString kind "AmmaMoving")))
  &&& (start <- getField arg f_start ;; Normal (JSBool (isBoolean start)))
  &&& (direction <- getField arg f_direction ;;
       accepted <- isDirection direction ;; Normal (JSBool accepted)).

Definition isPlayerMoving (arg : JSValue) : Completion JSValue :=
  Normal arg
  &&& (kind <- getField arg f_kind ;; Normal (JSBool (strictEqualsString kind "PlayerMoving")))
  &&& (id <- getField arg f_id ;; Normal (JSBool (isNumber id)))
  &&& (x <- getField arg f_x ;; Normal (JSBool (isNumber x)))
  &&& (y <- getField arg f_y ;; Normal (JSBool (isNumber y)))
  &&& (start <- getField arg f_start ;; Normal (JSBool (isBoolean start)))
  &&& (direction <- getField arg f_direction ;;
       accepted <- isDirection direction ;; Normal (JSBool accepted)).

End Validators.

(** ** Message codec *)

Section Codec.

(** [sendMessage<T extends Message>] is generic in the message type;
    [JSON.stringify] is the runtime's. *)
Variable Message : Type.
Variable JSON_stringify : Message -> string.

(** A socket, observed through the payloads its [send] was called with,
    oldest first. *)
Record Socket : Type := mkSocket { sent : list string }.

Definition send (socket : Socket) (payload : string) : Socket :=
  {| sent := sent socket ++ [payload] |}.

(** [sendMessage] returns [text.length]; the socket is returned with it,
    as the call leaves it. *)
Definition sendMessage (socket : Socket) (message : Message) : Socket * number :=
  let text := JSON_stringify message in
  let socket := send socket text in
  (socket, num_of_Z (Z.of_nat (String.length text))).

End Codec.
(** ** World bounds *)

(** [in_range v bound]: [v] is a finite number of [[0, bound)]. *)
Definition in_range (v bound : number) : Prop :=
  is_finite v = true /\ (0 <= SF2Q v)%Q /\ (SF2Q v < SF2Q bound)%Q.

Definition in_bounds (player : Player) : Prop :=
  in_range (x player) WORLD_WIDTH /\ in_range (y player) WORLD_HEIGHT.

(** [add_exact v b]: the sum [v + b] is computed without rounding. *)
Definition add_exact (v b : number) : Prop :=
  (SF2Q (SF64add v b) == SF2Q v + SF2Q b)%Q.

(** Structural equality of numbers as a boolean. *)
Definition same_number (a b : number) : bool :=
  match a, b with
  | S754_zero s1, S754_zero s2 => Bool.eqb s1 s2
  | S754_infinity s1, S754_infinity s2 => Bool.eqb s1 s2
  | S754_nan, S754_nan => true
  | S754_finite s1 m1 e1, S754_finite s2 m2 e2 =>
      Bool.eqb s1 s2 && Pos.eqb m1 m2 && Z.eqb e1 e2
  | _, _ => false
  end.

(** ** Sample values *)

(** The number literal [0.1]: the binary64 value nearest to one tenth,
    [0x1.999999999999ap-4]. *)
Definition tenth : number := S754_finite false 7205759403792794 (-56).

(** [2 ** 1020], a finite number. *)
Definition two_pow_1020 : number := num_of_Z (2 ^ 1020).

Definition idle : Moving.t := Moving.mk false false false false.
Definition only_left : Moving.t := Moving.mk true false false false.
Definition only_right : Moving.t := Moving.mk false true false false.
Definition only_up : Moving.t := Moving.mk false false true false.
Definition only_down : Moving.t := Moving.mk false false false true.

(** [below_speed c]: [c] is a zero, or a finite number below [2 ^ 9] whose
    exponent is at most [-44], as 250 and 500 are. *)
Definition below_speed (c : number) : Prop :=
  match c with
  | S754_zero _ => True
  | S754_finite _ m e => (Zpos (digits2_pos m) + e <= 9)%Z /\ (e <= -44)%Z
  | _ => False
  end.

(** [mag_le v k]: [v] is finite and smaller than [2 ^ k] in magnitude. *)

Definition mag_le (v : number) (k : Z) : Prop :=
  match v with
  | S754_zero _ => True
  | S754_finite _ m e => (Zpos (digits2_pos m) + e <= k)%Z
  | _ => False
  end.

(** [sign_false v]: [v] is not NaN and its sign bit is clear. *)
Definition sign_false (v : number) : Prop :=
  match v with
  | S754_zero s | S754_infinity s | S754_finite s _ _ => s = false
  | S754_nan => False
  end.


(** ** Sample messages *)

(** [fieldOf props f]: what [arg.f] reads on an object with the own
    properties [props]. *)
Definition fieldOf (props : list (string * JSValue)) (f : EventField) : JSValue :=
  match lookup (fieldName f) props with
  | Some v => v
  | None => JSUndefined
  end.

(** [{"kind":"AmmaMoving","start":true,"direction":"toString"}]. *)
Definition amma_toString : JSValue :=
  JSObject [ ("kind"%string, JSString "AmmaMoving");
             ("start"%string, JSBool true);
             ("direction"%string, JSString "toString") ].

(** [{"kind":"PlayerMoving","id":1,"x":0,"y":0,"start":true,"direction":["left"]}]. *)
Definition moving_array_direction : JSValue :=
  JSObject [ ("kind"%string, JSString "PlayerMoving");
             ("id"%string, JSNumber (num_of_Z 1));
             ("x"%string, JSNumber (num_of_Z 0));
             ("y"%string, JSNumber (num_of_Z 0));
             ("start"%string, JSBool true);
             ("direction"%string, JSArray [JSString "left"]) ].

(** [{"kind":"AmmaMoving","start":true,"direction":{"toString":1}}]. *)
Definition amma_object_direction : JSValue :=
  JSObject [ ("kind"%string, JSString "AmmaMoving");
             ("start"%string, JSBool true);
             ("direction"%string, JSObject [ ("toString"%string, JSNumber (num_of_Z 1)) ]) ].

(** [unconvertible v]: [v] is an object with an own property [toString],
    or an array with such an object among its elements, at any depth. *)
Fixpoint unconvertible (v : JSValue) : bool :=
  match v with
  | JSArray items => existsb unconvertible items
  | JSObject props =>
      match lookup "toString"%string props with
      | Some _ => true
      | None => false
      end
  | _ => false
  end.

(** [unwrap v]: [v] taken out of the one-element arrays around it. *)
Fixpoint unwrap (v : JSValue) : JSValue :=
  match v with
  | JSArray [item] => unwrap item
  | _ => v
  end.

(** The names [isDirection] finds in [DIRECTION_VECTORS]: its four own
    keys and the names it inherits. *)
Definition direction_names : list string :=
  ["left"; "right"; "up"; "down"]%string ++ Object_prototype_keys.

Fixpoint has_comma (s : string) : bool :=
  match s with
  | EmptyString => false
  | String c rest => Ascii.eqb c ","%char || has_comma rest
  end.

(** The conversion of the elements of an array by [Array.prototype.join],
    given the conversion [convert] of a value: in order, [undefined] and
    [null] as the empty string. *)
Definition element_string (convert : JSValue -> Completion string) (item : JSValue)
  : Completion string :=
  match item with
  | JSUndefined | JSNull => Normal EmptyString
  | _ => convert item
  end.

Fixpoint element_strings (convert : JSValue -> Completion string) (items : list JSValue)
  : Completion (list string) :=
  match items with
  | [] => Normal []
  | item :: rest =>
      part <- element_string convert item ;;
      parts <- element_strings convert rest ;;
      Normal (part :: parts)
  end.

(** Induction on a decoded value, with the elements of an array at hand. *)
Fixpoint JSValue_elements_ind (P : JSValue -> Prop)
    (Hundefined : P JSUndefined) (Hnull : P JSNull)
    (Hbool : forall b, P (JSBool b)) (Hnumber : forall n, P (JSNumber n))
    (Hstring : forall s, P (JSString s))
    (Harray : forall items, Forall P items -> P (JSArray items))
    (Hobject : forall props, P (JSObject props))
    (v : JSValue) {struct v} : P v :=
  match v with
  | JSUndefined => Hundefined
  | JSNull => Hnull
  | JSBool b => Hbool b
  | JSNumber n => Hnumber n
  | JSString s => Hstring s
  | JSArray items =>
      Harray items
        ((fix all (l : list JSValue) : Forall P l :=
            match l with
            | [] => Forall_nil P
            | item :: rest =>
                Forall_cons item
                  (JSValue_elements_ind P Hundefined Hnull Hbool Hnumber Hstring
                     Harray Hobject item)
                  (all rest)
            end) items)
  | JSObject props => Hobject props
  end.

(** ** Dyadic grids *)

(** The number [n / 2 ** j]: the multiple [n] of the grid step [2 ^ (- j)].
    It is exact for [|n| < 2 ^ 53] and [0 <= j <= 1074]. *)
Definition dyadic (n j : Z) : number := binary_normalize prec emax n (- j) false.

(** The speed of a player on each axis, in world units per second, as the
    movement flags give it: the flagged unit vectors summed and divided by
    the squared length of the sum, times the speed of 500. *)
Definition velocity (m : Moving.t) : Z * Z :=
  let dx := Z.b2z (Moving.right m) - Z.b2z (Moving.left m) in
  let dy := Z.b2z (Moving.down m) - Z.b2z (Moving.up m) in
  let l := dx * dx + dy * dy in
  if l =? 0 then (0, 0) else (500 * dx / l, 500 * dy / l).

(** ** Fields of a schema *)

(** The three field allocators of the schema builder. *)
Definition allocators : list (Allocator -> Field.t * Allocator) :=
  [allocUint8Field; allocUint32Field; allocFloat32Field].

(** [field_range f baseOffset i]: byte [i] of a view belongs to the field
    [f] of a record that starts at [baseOffset]. *)
Definition field_range (f : Field.t) (baseOffset i : Z) : Prop :=
  baseOffset + Field.offset f <= i < baseOffset + Field.offset f + Field.size f.

(** [fits f view baseOffset]: the field lies inside the view. *)
Definition fits (f : Field.t) (view : DataView) (baseOffset : Z) : Prop :=
  0 <= baseOffset + Field.offset f /\
  baseOffset + Field.offset f + Field.size f <= Z.of_nat (List.length view).

(** A view whose elements are bytes. *)
Definition bytes (view : DataView) : Prop := Forall (fun b => 0 <= b < 256) view.

(** The fields of the handshake record, in declaration order. *)
Definition HelloStruct_fields : list Field.t :=
  [ Hello.kind HelloStruct; Hello.id HelloStruct; Hello.x HelloStruct;
    Hello.y HelloStruct; Hello.hue HelloStruct ].

(** * Facts about the number model *)

(** ** Binary digits *)

Lemma digits2_pos_size (p : positive) : digits2_pos p = Pos.size p.
Proof. induction p; simpl; congruence. Qed.

Lemma digits2_log2 (p : positive) : Zpos (digits2_pos p) = Z.log2 (Zpos p) + 1.
Proof.
  rewrite digits2_pos_size.
  destruct p; simpl; rewrite ?Pos2Z.inj_succ; lia.
Qed.

Lemma digits2_bounds (p : positive) :
  2 ^ (Zpos (digits2_pos p) - 1) <= Zpos p < 2 ^ Zpos (digits2_pos p).
Proof.
  rewrite digits2_log2.
  replace (Z.log2 (Zpos p) + 1 - 1) with (Z.log2 (Zpos p)) by lia.
  apply Z.log2_spec; lia.
Qed.

Lemma digits2_le (p : positive) (k : Z) :
  0 <= k -> (Zpos p < 2 ^ k <-> Zpos (digits2_pos p) <= k).
Proof.
  intros Hk. rewrite digits2_log2.
  rewrite (Z.log2_lt_pow2 (Zpos p) k) by lia. lia.
Qed.

Lemma digits2_mono (p q : positive) :
  Zpos p <= Zpos q -> Zpos (digits2_pos p) <= Zpos (digits2_pos q).
Proof.
  intros H. rewrite !digits2_log2.
  apply Z.add_le_mono_r, Z.log2_le_mono, H.
Qed.

Lemma iter_xO_pow (m d : positive) : Zpos (Pos.iter xO m d) = Zpos m * 2 ^ Zpos d.
Proof.
  change (Pos.iter xO m d) with (shift_pos d m).
  rewrite shift_pos_correct, Z.pow_pos_fold. lia.
Qed.

Lemma digits2_mul_pow2 (m p : positive) (k : Z) :
  0 <= k -> Zpos p = Zpos m * 2 ^ k ->
  Zpos (digits2_pos p) = Zpos (digits2_pos m) + k.
Proof.
  intros Hk Hp. rewrite !digits2_log2, Hp.
  rewrite Z.log2_mul_pow2 by lia. lia.
Qed.

(** ** Alignment *)

Lemma shl_align_spec (m : positive) (e e' : Z) :
  snd (shl_align m e e') = Z.min e e' /\
  Zpos (fst (shl_align m e e')) = Zpos m * 2 ^ (e - Z.min e e').
Proof.
  unfold shl_align.
  destruct (e' - e) as [ | d | d ] eqn:Hd; cbn [fst snd].
  - replace (Z.min e e') with e by lia. rewrite Z.sub_diag, Z.pow_0_r. lia.
  - replace (Z.min e e') with e by lia. rewrite Z.sub_diag, Z.pow_0_r. lia.
  - replace (Z.min e e') with e' by lia. split; [reflexivity | ].
    rewrite iter_xO_pow. f_equal. f_equal. lia.
Qed.

(** ** Rounding to a binary format

    What [binary_round_aux] returns, read off its two shifting passes: the
    sign is the one given, the exponent is bounded, the mantissa is canonical
    for inputs at or below their canonical exponent, and nothing overflows
    while the magnitude stays below [2 ^ (em - 1)]. *)

Section Rounding.
Variables pr em : Z.
Hypothesis pr_pos : 0 < pr.
Hypothesis pr_lt_em : pr < em.

Lemma fexp_mono (t u : Z) : t <= u -> fexp pr em t <= fexp pr em u.
Proof. unfold fexp. lia. Qed.

Lemma shr_m_shr_1 (mrs : shr_record) :
  0 <= shr_m mrs -> shr_m (shr_1 mrs) = shr_m mrs / 2.
Proof.
  destruct mrs as [m r s]. cbn [shr_m]. intros Hm.
  destruct m as [ | [ q | q | ] | q ]; cbn [shr_1 shr_m]; try reflexivity.
  - rewrite Pos2Z.inj_xI. apply Z.div_unique with 1; lia.
  - rewrite Pos2Z.inj_xO. apply Z.div_unique with 0; lia.
  - lia.
Qed.

Lemma shr_m_iter (p : positive) :
  forall mrs, 0 <= shr_m mrs ->
  shr_m (iter_pos shr_1 p mrs) = shr_m mrs / 2 ^ Zpos p.
Proof.
  assert (Hnn : forall q mrs, 0 <= shr_m mrs ->
            shr_m (iter_pos shr_1 q mrs) = shr_m mrs / 2 ^ Zpos q ->
            0 <= shr_m (iter_pos shr_1 q mrs)).
  { intros q mrs H0 Heq. rewrite Heq. apply Z.div_pos; lia. }
  induction p as [ p IH | p IH | ]; intros mrs Hm; cbn [iter_pos].
  - assert (H1 : 0 <= shr_m (shr_1 mrs)).
    { rewrite shr_m_shr_1 by exact Hm. apply Z.div_pos; lia. }
    rewrite IH by (apply Hnn; [exact H1 | apply IH, H1]).
    rewrite IH by exact H1. rewrite shr_m_shr_1 by exact Hm.
    rewrite !Z.div_div by lia. f_equal.
    replace (Zpos p~1) with (1 + Zpos p + Zpos p) by lia.
    rewrite !Z.pow_add_r by lia. lia.
  - rewrite IH by (apply Hnn; [exact Hm | apply IH, Hm]).
    rewrite IH by exact Hm.
    rewrite Z.div_div by lia. f_equal.
    replace (Zpos p~0) with (Zpos p + Zpos p) by lia.
    rewrite Z.pow_add_r by lia. reflexivity.
  - rewrite shr_m_shr_1 by exact Hm. reflexivity.
Qed.

Lemma Zdigits2_div_pow2 (m : positive) (n : Z) :
  0 <= n -> 0 < Zpos m / 2 ^ n ->
  Zdigits2 (Zpos m / 2 ^ n) = Zpos (digits2_pos m) - n.
Proof.
  intros Hn Hq.
  destruct (Zpos m / 2 ^ n) as [ | q | q ] eqn:Hdiv; try lia.
  cbn [Zdigits2]. rewrite !digits2_log2, <- Hdiv.
  rewrite <- Z.shiftr_div_pow2, Z.log2_shiftr by lia.
  assert (2 ^ n <= Zpos m).
  { destruct (Z_lt_le_dec (Zpos m) (2 ^ n)) as [Hlt | Hle]; [ | exact Hle].
    rewrite Z.div_small in Hdiv by lia. discriminate. }
  assert (n <= Z.log2 (Zpos m)) by (apply Z.log2_le_pow2; lia).
  lia.
Qed.

Lemma shr_m_of_loc (m : Z) (l : location) : shr_m (shr_record_of_loc m l) = m.
Proof. destruct l as [ | [ | | ] ]; reflexivity. Qed.

Lemma round_nearest_even_cases (m : Z) (l : location) :
  round_nearest_even m l = m \/ round_nearest_even m l = m + 1.
Proof.
  destruct l as [ | [ | | ] ]; cbn [round_nearest_even]; auto.
  destruct (Z.even m); auto.
Qed.

(** The first pass: a positive mantissa is shifted right down to the
    canonical exponent of its magnitude, if it lies below it. *)
Lemma shr_fexp_pos (m : positive) (e : Z) (l : location) :
  let D := Zpos (digits2_pos m) + e in
  let r := shr_fexp pr em (Zpos m) e l in
  snd r = Z.max e (fexp pr em D) /\
  0 <= shr_m (fst r) /\
  (0 < shr_m (fst r) -> Zdigits2 (shr_m (fst r)) + snd r = D) /\
  (shr_m (fst r) = 0 -> D <= emin pr em /\ snd r = emin pr em) /\
  (fexp pr em D <= e -> fst r = shr_record_of_loc (Zpos m) l).
Proof.
  intros D r. subst r. unfold shr_fexp, shr. cbn [Zdigits2]. fold D.
  destruct (fexp pr em D - e) as [ | n | n ] eqn:Hn; cbn [fst snd].
  - rewrite shr_m_of_loc. cbn [Zdigits2]. repeat split; try lia.
  - rewrite shr_m_iter by (rewrite shr_m_of_loc; lia).
    rewrite shr_m_of_loc.
    assert (Hq : 0 <= Zpos m / 2 ^ Zpos n) by (apply Z.div_pos; lia).
    repeat split; try lia.
    + intros Hpos. rewrite Zdigits2_div_pow2 by lia. lia.
    + assert (Zpos m < 2 ^ Zpos n).
      { destruct (Z_lt_le_dec (Zpos m) (2 ^ Zpos n)) as [Hlt | Hle]; [exact Hlt | ].
        assert (1 <= Zpos m / 2 ^ Zpos n); [ | lia].
        apply Z.div_le_lower_bound; lia. }
      assert (Zpos (digits2_pos m) <= Zpos n) by (apply digits2_le; lia).
      unfold fexp in *. lia.
    + assert (Zpos m < 2 ^ Zpos n).
      { destruct (Z_lt_le_dec (Zpos m) (2 ^ Zpos n)) as [Hlt | Hle]; [exact Hlt | ].
        assert (1 <= Zpos m / 2 ^ Zpos n); [ | lia].
        apply Z.div_le_lower_bound; lia. }
      assert (Zpos (digits2_pos m) <= Zpos n) by (apply digits2_le; lia).
      unfold fexp in *. lia.
  - rewrite shr_m_of_loc. cbn [Zdigits2]. repeat split; try lia.
Qed.
Lemma shr_fexp_zero (e : Z) (l : location) :
  shr_m (fst (shr_fexp pr em 0 e l)) = 0.
Proof.
  unfold shr_fexp, shr.
  destruct (fexp pr em (Zdigits2 0 + e) - e) as [ | n | n ]; cbn [fst];
    rewrite ?shr_m_iter by (rewrite shr_m_of_loc; lia);
    rewrite shr_m_of_loc; reflexivity.
Qed.

Lemma digits2_succ_le (q m : positive) :
  Zpos q = Zpos m + 1 -> Zpos (digits2_pos q) <= Zpos (digits2_pos m) + 1.
Proof.
  intros Hq. apply digits2_le; [lia | ].
  pose proof (digits2_bounds m) as [_ Hm].
  rewrite Z.pow_add_r by lia. lia.
Qed.

(** The shape of a rounded result.  [D] is the magnitude of the input: the
    exponent of the first power of two above it. *)
Lemma binary_round_aux_shape (s : bool) (m : positive) (e : Z) (l : location) :
  let D := Zpos (digits2_pos m) + e in
  let r := binary_round_aux pr em s (Zpos m) e l in
  r = S754_zero s \/
  (r = S754_infinity s /\ (em - pr < e \/ em < Z.max D (emin pr em) + 1)) \/
  exists m' e',
    r = S754_finite s m' e' /\
    e' <= em - pr /\
    Zpos (digits2_pos m') + e' <= Z.max D (emin pr em) + 1 /\
    (e <= fexp pr em D -> canonical_mantissa pr em m' e' = true).
Proof.
  intros D r. subst r. unfold binary_round_aux.
  pose proof (shr_fexp_pos m e l) as H1. cbv zeta in H1. fold D in H1.
  destruct (shr_fexp pr em (Zpos m) e l) as [mrs1 e1]. cbn [fst snd] in H1.
  destruct H1 as (He1 & Hm1 & Hd1 & Hz1 & _).
  pose proof (round_nearest_even_cases (shr_m mrs1) (loc_of_shr_record mrs1)) as Hm2.
  destruct (round_nearest_even (shr_m mrs1) (loc_of_shr_record mrs1)) as [ | q | q ];
    [ | | lia ].
  - left. pose proof (shr_fexp_zero e1 loc_Exact) as Hz.
    destruct (shr_fexp pr em 0 e1 loc_Exact) as [mrs2 e2]. cbn [fst] in Hz.
    rewrite Hz. reflexivity.
  - pose proof (shr_fexp_pos q e1 loc_Exact) as H2. cbv zeta in H2.
    destruct (shr_fexp pr em (Zpos q) e1 loc_Exact) as [mrs2 e2]. cbn [fst snd] in H2.
    destruct H2 as (He2 & Hm3 & Hd2 & Hz2 & _).
    assert (HD2 : Zpos (digits2_pos q) + e1 <= Z.max D (emin pr em) + 1 /\
                  (e <= fexp pr em D -> e1 <= fexp pr em (Zpos (digits2_pos q) + e1))).
    { destruct (shr_m mrs1) as [ | m1 | m1 ] eqn:Hm1eq; [ | | lia ].
      - destruct Hz1 as [HD He1']; [reflexivity | ].
        assert (q = 1%positive) by lia. subst q. cbn [digits2_pos].
        split; [lia | ]. intros _. unfold fexp. lia.
      - specialize (Hd1 ltac:(lia)). cbn [Zdigits2] in Hd1.
        assert (Zpos (digits2_pos m1) <= Zpos (digits2_pos q) <= Zpos (digits2_pos m1) + 1).
        { destruct Hm2 as [Hm2 | Hm2].
          - injection Hm2 as ->. lia.
          - split; [apply digits2_mono; lia | apply digits2_succ_le; lia]. }
        split; [lia | ]. intros Hcanon.
        replace e1 with (fexp pr em D) by lia.
        apply fexp_mono. lia. }
    destruct HD2 as [HD2 Hcan].
    destruct (shr_m mrs2) as [ | m' | m' ] eqn:Hm3eq; [ left; reflexivity | | lia ].
    specialize (Hd2 ltac:(lia)). cbn [Zdigits2] in Hd2.
    right. destruct (Z.leb_spec e2 (em - pr)) as [Hle | Hgt].
    + right. exists m', e2. repeat split; try lia.
      intros Hc. specialize (Hcan Hc). unfold canonical_mantissa.
      apply Z.eqb_eq. rewrite Hd2. lia.
    + left. split; [reflexivity | ].
      unfold fexp, emin in *. lia.
Qed.

(** An input that already sits at its canonical exponent, or above it, and
    carries no rounding information is returned as it is. *)
Lemma binary_round_aux_exact (s : bool) (m : positive) (e : Z) :
  fexp pr em (Zpos (digits2_pos m) + e) <= e -> e <= em - pr ->
  binary_round_aux pr em s (Zpos m) e loc_Exact = S754_finite s m e.
Proof.
  intros Hf He. unfold binary_round_aux.
  pose proof (shr_fexp_pos m e loc_Exact) as H1. cbv zeta in H1.
  destruct (shr_fexp pr em (Zpos m) e loc_Exact) as [mrs1 e1] eqn:Heq.
  cbn [fst snd] in H1. destruct H1 as (He1 & _ & _ & _ & Hrec).
  specialize (Hrec Hf). subst mrs1.
  cbn [shr_record_of_loc shr_m loc_of_shr_record round_nearest_even].
  replace e1 with e in * by lia. rewrite Heq. cbn [shr_m].
  apply Z.leb_le in He. rewrite He. reflexivity.
Qed.
End Rounding.

Lemma binary_round_shape (pr em : Z) (s : bool) (m : positive) (e : Z) :
  0 < pr -> pr < em ->
  let D := Zpos (digits2_pos m) + e in
  let r := binary_round pr em s m e in
  r = S754_zero s \/
  (r = S754_infinity s /\ em < Z.max D (emin pr em) + 1) \/
  exists m' e',
    r = S754_finite s m' e' /\
    bounded pr em m' e' = true /\
    Zpos (digits2_pos m') + e' <= Z.max D (emin pr em) + 1.
Proof.
  intros Hpr Hem D r. subst r. unfold binary_round.
  destruct (shl_align_spec m e (fexp pr em D)) as [Hez Hmz]. fold D.
  destruct (shl_align m e (fexp pr em D)) as [mz ez]. cbn [fst snd] in Hez, Hmz.
  assert (HD : Zpos (digits2_pos mz) + ez = D).
  { rewrite (digits2_mul_pow2 m mz (e - Z.min e (fexp pr em D))); lia. }
  pose proof (binary_round_aux_shape pr em Hpr Hem s mz ez loc_Exact) as H.
  cbv zeta in H. rewrite HD in H.
  destruct H as [H | [[H Hov] | (m' & e' & H & He' & Hd' & Hcanon)]].
  - left. exact H.
  - right. left. split; [exact H | ]. unfold fexp, emin in *. lia.
  - right. right. exists m', e'. split; [exact H | ]. split; [ | exact Hd'].
    unfold bounded. rewrite Hcanon by lia. apply Z.leb_le. exact He'.
Qed.

Lemma binary_round_exact (pr em : Z) (s : bool) (m : positive) (e : Z) :
  0 < pr -> pr < em ->
  let D := Zpos (digits2_pos m) + e in
  fexp pr em D <= e -> D <= em ->
  binary_round pr em s m e =
  S754_finite s (fst (shl_align m e (fexp pr em D))) (fexp pr em D).
Proof.
  intros Hpr Hem D Hf HD. unfold binary_round.
  destruct (shl_align_spec m e (fexp pr em D)) as [Hez Hmz]. fold D.
  destruct (shl_align m e (fexp pr em D)) as [mz ez]. cbn [fst snd] in Hez, Hmz |- *.
  assert (Hez' : ez = fexp pr em D) by lia. clear Hez. subst ez.
  apply binary_round_aux_exact; try assumption.
  - rewrite (digits2_mul_pow2 m mz (e - Z.min e (fexp pr em D))); try lia.
    replace (Zpos (digits2_pos m) + (e - Z.min e (fexp pr em D)) + fexp pr em D)
      with D by lia. lia.
  - unfold fexp, emin. lia.
Qed.

(** ** The value of a number *)

Local Open Scope Q_scope.

Lemma Qpow2_pos (e : Z) : 0 < (2 # 1) ^ e.
Proof. apply Qpower_0_lt. reflexivity. Qed.

Lemma Qpow2_add (a b : Z) : (2 # 1) ^ (a + b) == (2 # 1) ^ a * (2 # 1) ^ b.
Proof. apply Qpower_plus. discriminate. Qed.

Lemma Qpow2_inject (k : Z) : (0 <= k)%Z -> inject_Z (2 ^ k) == (2 # 1) ^ k.
Proof. intros Hk. apply (Zpower_Qpower 2 k Hk). Qed.

Lemma Qpow2_shift (z : Z) (k e : Z) :
  (0 <= k)%Z -> inject_Z (z * 2 ^ k) * (2 # 1) ^ (e - k) == inject_Z z * (2 # 1) ^ e.
Proof.
  intros Hk. rewrite inject_Z_mult, Qpow2_inject by exact Hk.
  rewrite <- Qmult_assoc, <- Qpow2_add.
  replace (k + (e - k))%Z with e by lia. reflexivity.
Qed.

(** Comparing two scaled integers at a common exponent. *)
Lemma Qpow2_lt_cancel (a b : Z) (e : Z) :
  inject_Z a * (2 # 1) ^ e < inject_Z b * (2 # 1) ^ e <-> (a < b)%Z.
Proof.
  rewrite (Qmult_lt_r _ _ _ (Qpow2_pos e)), <- Zlt_Qlt. reflexivity.
Qed.

Lemma Qpow2_le_cancel (a b : Z) (e : Z) :
  inject_Z a * (2 # 1) ^ e <= inject_Z b * (2 # 1) ^ e <-> (a <= b)%Z.
Proof.
  rewrite (Qmult_le_r _ _ _ (Qpow2_pos e)), <- Zle_Qle. reflexivity.
Qed.

Lemma Qpow2_lt_mono (a b : Z) : (2 # 1) ^ a < (2 # 1) ^ b <-> (a < b)%Z.
Proof.
  split.
  - intros H. apply (Qpower_lt_compat_l_inv (2 # 1)); [exact H | reflexivity].
  - intros H. apply Qpower_lt_compat_l; [exact H | reflexivity].
Qed.

Lemma Qpow2_le_mono (a b : Z) : (2 # 1) ^ a <= (2 # 1) ^ b <-> (a <= b)%Z.
Proof.
  split.
  - intros H. apply (Qpower_le_compat_l_inv (2 # 1)); [exact H | reflexivity].
  - intros H. apply Qpower_le_compat_l; [exact H | discriminate].
Qed.

Lemma Qzero_scaled (e : Z) : 0 == inject_Z 0 * (2 # 1) ^ e.
Proof. rewrite Qmult_0_l. reflexivity. Qed.

(** [scale_zero e] writes the [0] of a comparison as the integer 0 at
    exponent [e], for the cancellation lemmas above. *)
Ltac scale_zero e :=
  setoid_replace 0 with (inject_Z 0 * (2 # 1) ^ e) by apply Qzero_scaled.

Ltac scale_zero_in e H :=
  setoid_replace 0 with (inject_Z 0 * (2 # 1) ^ e) in H by apply Qzero_scaled.

(** Closes [in_range v b] for concrete [v] and [b] by evaluation. *)
Ltac in_range_by_evaluation :=
  split; [reflexivity | split; [discriminate | reflexivity]].

Lemma cond_Zopp_mul (s : bool) (a b : Z) :
  (cond_Zopp s (a * b) = cond_Zopp s a * b)%Z.
Proof. destruct s; cbn [cond_Zopp]; lia. Qed.

(** Aligning a mantissa to a lower exponent does not change the value. *)
Lemma shl_align_value (s : bool) (m : positive) (e e' : Z) :
  inject_Z (cond_Zopp s (Zpos (fst (shl_align m e e')))) * (2 # 1) ^ Z.min e e'
  == SF2Q (S754_finite s m e).
Proof.
  destruct (shl_align_spec m e e') as [_ Hm]. rewrite Hm, cond_Zopp_mul.
  cbn [SF2Q].
  rewrite <- (Qpow2_shift (cond_Zopp s (Zpos m)) (e - Z.min e e') e) by lia.
  replace (e - (e - Z.min e e'))%Z with (Z.min e e') by lia. reflexivity.
Qed.

Lemma shl_align_finite_value (s : bool) (m : positive) (e e' : Z) :
  SF2Q (S754_finite s (fst (shl_align m e e')) (snd (shl_align m e e')))
  == SF2Q (S754_finite s m e).
Proof.
  rewrite <- (shl_align_value s m e e').
  destruct (shl_align_spec m e e') as [He _]. cbn [SF2Q]. rewrite He. reflexivity.
Qed.

(** ** The remainder *)

(** The remainder of two finite numbers, in integers at their common
    exponent [e]: with [A] and [B] the aligned mantissas, the result denotes
    [A rem B] at exponent [e], with the sign of the dividend. *)
Lemma SF64rem_finite (sa sb : bool) (ma mb : positive) (ea eb : Z) :
  let e := Z.min ea eb in
  let A := Zpos (fst (shl_align ma ea e)) in
  let B := Zpos (fst (shl_align mb eb e)) in
  let r := SF64rem (S754_finite sa ma ea) (S754_finite sb mb eb) in
  is_finite r = true /\
  SF2Q r == inject_Z (cond_Zopp sa (Z.rem A B)) * (2 # 1) ^ e /\
  (r = S754_zero sa \/ exists m' e', r = S754_finite sa m' e').
Proof.
  intros e A B r. subst r. cbn [SF64rem]. fold e. fold A. fold B.
  assert (HR : (0 <= Z.rem A B < B)%Z) by (apply Z.rem_bound_pos; subst A B; lia).
  destruct (Z.rem A B) as [ | mr | mr ] eqn:Hrem; [ | | lia ].
  - cbn [is_finite SF2Q]. split; [reflexivity | ]. split; [ | left; reflexivity].
    destruct sa; cbn [cond_Zopp Z.opp]; rewrite Qmult_0_l; reflexivity.
  - pose proof (shl_align_finite_value sa mr e
                  (fexp prec emax (Zpos (digits2_pos mr) + e))) as Hv.
    destruct (shl_align mr e (fexp prec emax (Zpos (digits2_pos mr) + e))) as [m' e'].
    cbn [fst snd] in Hv. cbn [is_finite].
    split; [reflexivity | ]. split; [exact Hv | right; eauto].
Qed.

Lemma SF2Q_aligned (s : bool) (m : positive) (e e' : Z) :
  (e' <= e)%Z ->
  SF2Q (S754_finite s m e)
  == inject_Z (cond_Zopp s (Zpos (fst (shl_align m e e')))) * (2 # 1) ^ e'.
Proof.
  intros He. rewrite <- (shl_align_value s m e e').
  replace (Z.min e e') with e' by lia. reflexivity.
Qed.

Lemma Qabs_cond_Zopp (s : bool) (z : Z) (e : Z) :
  (0 <= z)%Z ->
  Qabs (inject_Z (cond_Zopp s z) * (2 # 1) ^ e) == inject_Z z * (2 # 1) ^ e.
Proof.
  intros Hz. rewrite Qabs_Qmult.
  rewrite (Qabs_pos ((2 # 1) ^ e)) by (apply Qlt_le_weak, Qpow2_pos).
  apply Qmult_comp; [ | reflexivity ].
  destruct s; cbn [cond_Zopp].
  - rewrite Qabs_neg.
    + rewrite <- inject_Z_opp, Z.opp_involutive. reflexivity.
    + change 0 with (inject_Z 0). rewrite <- Zle_Qle. lia.
  - apply Qabs_pos. change 0 with (inject_Z 0). rewrite <- Zle_Qle. exact Hz.
Qed.

(** The remainder is smaller in magnitude than the divisor, has the sign of
    the dividend, and differs from the dividend by a multiple of the
    divisor. *)
Lemma SF64rem_spec (sa sb : bool) (ma mb : positive) (ea eb : Z) :
  let a := S754_finite sa ma ea in
  let b := S754_finite sb mb eb in
  is_finite (SF64rem a b) = true /\
  Qabs (SF2Q (SF64rem a b)) < Qabs (SF2Q b) /\
  (if sa then SF2Q (SF64rem a b) <= 0 else 0 <= SF2Q (SF64rem a b)) /\
  exists k : Z, SF2Q a == inject_Z k * SF2Q b + SF2Q (SF64rem a b).
Proof.
  intros a b. subst a b.
  destruct (SF64rem_finite sa sb ma mb ea eb) as (Hfin & Hval & _).
  cbv zeta in Hval.
  set (e := Z.min ea eb) in *.
  set (A := Zpos (fst (shl_align ma ea e))) in *.
  set (B := Zpos (fst (shl_align mb eb e))) in *.
  assert (HR : (0 <= Z.rem A B < B)%Z) by (apply Z.rem_bound_pos; subst A B; lia).
  assert (Ha : SF2Q (S754_finite sa ma ea) == inject_Z (cond_Zopp sa A) * (2 # 1) ^ e).
  { apply SF2Q_aligned. subst e. lia. }
  assert (Hb : SF2Q (S754_finite sb mb eb) == inject_Z (cond_Zopp sb B) * (2 # 1) ^ e).
  { apply SF2Q_aligned. subst e. lia. }
  split; [exact Hfin | ]. split; [ | split].
  - rewrite Hval, Hb, !Qabs_cond_Zopp by lia. apply Qpow2_lt_cancel. lia.
  - destruct sa; rewrite Hval; cbn [cond_Zopp].
    + scale_zero e.
      apply Qpow2_le_cancel. lia.
    + scale_zero e.
      apply Qpow2_le_cancel. lia.
  - exists (cond_Zopp sa (cond_Zopp sb (Z.quot A B))).
    rewrite Ha, Hb, Hval.
    rewrite Qmult_assoc, <- Qmult_plus_distr_l, <- inject_Z_mult, <- inject_Z_plus.
    apply Qmult_comp; [ | reflexivity ].
    apply inject_Z_injective.
    pose proof (Z.quot_rem' A B) as Hqr.
    destruct sa, sb; cbn [cond_Zopp]; lia.
Qed.

(** ** Magnitudes *)

Lemma mag_le_finite (v : number) (k : Z) : mag_le v k -> is_finite v = true.
Proof. destruct v; cbn; intros H; try reflexivity; destruct H. Qed.

Lemma Qabs_SF2Q_finite (s : bool) (m : positive) (e : Z) :
  Qabs (SF2Q (S754_finite s m e)) == inject_Z (Zpos m) * (2 # 1) ^ e.
Proof. cbn [SF2Q]. apply Qabs_cond_Zopp. lia. Qed.

Lemma mag_le_of_value (v : number) (k : Z) :
  is_finite v = true -> Qabs (SF2Q v) < (2 # 1) ^ k -> mag_le v k.
Proof.
  destruct v as [ s | s | | s m e ]; cbn [is_finite mag_le]; try discriminate; [trivial | ].
  intros _ Hv. rewrite Qabs_SF2Q_finite in Hv.
  pose proof (digits2_bounds m) as [Hlo _].
  assert (H : (2 # 1) ^ (Zpos (digits2_pos m) - 1 + e) < (2 # 1) ^ k).
  { eapply Qle_lt_trans; [ | exact Hv].
    rewrite Qpow2_add, <- (Qpow2_inject (Zpos (digits2_pos m) - 1)) by lia.
    apply Qpow2_le_cancel. exact Hlo. }
  apply (proj1 (Qpow2_lt_mono _ _)) in H. lia.
Qed.

Lemma value_of_mag_le (v : number) (k : Z) :
  mag_le v k -> Qabs (SF2Q v) < (2 # 1) ^ k.
Proof.
  destruct v as [ s | s | | s m e ]; cbn [mag_le]; try contradiction.
  - intros _. cbn [SF2Q]. apply Qpow2_pos.
  - intros Hd. rewrite Qabs_SF2Q_finite.
    pose proof (digits2_bounds m) as [_ Hhi].
    apply Qlt_le_trans with ((2 # 1) ^ (Zpos (digits2_pos m) + e)).
    + rewrite Qpow2_add, <- (Qpow2_inject (Zpos (digits2_pos m))) by lia.
      apply Qpow2_lt_cancel. exact Hhi.
    + apply Qpow2_le_mono. exact Hd.
Qed.

(** ** Addition *)

Lemma shl_align_digits (m : positive) (e e' : Z) :
  (e' <= e)%Z ->
  (Zpos (digits2_pos (fst (shl_align m e e'))) + e' = Zpos (digits2_pos m) + e)%Z.
Proof.
  intros He. destruct (shl_align_spec m e e') as [_ Hm].
  rewrite (digits2_mul_pow2 m _ (e - Z.min e e')); lia.
Qed.

Lemma aligned_lt_pow2 (m : positive) (e e' k : Z) :
  (e' <= e)%Z -> (Zpos (digits2_pos m) + e <= k)%Z ->
  (Zpos (fst (shl_align m e e')) < 2 ^ (k - e'))%Z.
Proof.
  intros He Hk. apply digits2_le; [ | pose proof (shl_align_digits m e e' He)]; lia.
Qed.

(** The sum of two finite numbers below [2 ^ k] is finite and below
    [2 ^ (k + 2)], unless [k] is close to the top of the format. *)
Lemma SF64add_mag (x y : number) (k : Z) :
  mag_le x k -> mag_le y k -> (emin prec emax <= k)%Z -> (k + 2 <= emax)%Z ->
  mag_le (SF64add x y) (k + 2).
Proof.
  intros Hx Hy Hlo Hhi.
  destruct x as [ sx | sx | | sx mx ex ]; try contradiction;
    destruct y as [ sy | sy | | sy my ey ]; try contradiction;
    cbn [SF64add SFadd].
  - destruct sx, sy; exact I.
  - cbn [mag_le] in *. lia.
  - cbn [mag_le] in *. lia.
  - cbn [mag_le] in Hx, Hy. unfold SF64add. cbn [SFadd].
    set (ez := Z.min ex ey).
    pose proof (aligned_lt_pow2 mx ex ez k ltac:(lia) Hx) as HA.
    pose proof (aligned_lt_pow2 my ey ez k ltac:(lia) Hy) as HB.
    set (A := fst (shl_align mx ex ez)) in *.
    set (B := fst (shl_align my ey ez)) in *.
    assert (Hsum : (Z.abs (cond_Zopp sx (Zpos A) + cond_Zopp sy (Zpos B)) < 2 ^ (k + 1 - ez))%Z).
    { replace (k + 1 - ez)%Z with (1 + (k - ez))%Z by lia.
      rewrite Z.pow_add_r, Z.pow_1_r by lia.
      destruct sx, sy; cbn [cond_Zopp]; lia. }
    destruct (cond_Zopp sx (Zpos A) + cond_Zopp sy (Zpos B))%Z as [ | p | p ];
      cbn [binary_normalize]; [exact I | | ].
    + pose proof (binary_round_shape prec emax false p ez ltac:(reflexivity) ltac:(reflexivity)) as H.
      cbv zeta in H.
      assert (Hd : (Zpos (digits2_pos p) <= k + 1 - ez)%Z) by (apply digits2_le; lia).
      destruct H as [H | [[H Hov] | (m' & e' & H & _ & Hd')]]; rewrite H; cbn [mag_le]; lia.
    + pose proof (binary_round_shape prec emax true p ez ltac:(reflexivity) ltac:(reflexivity)) as H.
      cbv zeta in H.
      assert (Hd : (Zpos (digits2_pos p) <= k + 1 - ez)%Z) by (apply digits2_le; lia).
      destruct H as [H | [[H Hov] | (m' & e' & H & _ & Hd')]]; rewrite H; cbn [mag_le]; lia.
Qed.

(** A sum of two finite numbers whose exact value is positive has its sign
    bit clear, however it is rounded. *)
Lemma SF64add_sign (x y : number) :
  is_finite x = true -> is_finite y = true -> 0 < SF2Q x + SF2Q y ->
  sign_false (SF64add x y).
Proof.
  intros Hx Hy Hpos.
  destruct x as [ sx | sx | | sx mx ex ]; try discriminate;
    destruct y as [ sy | sy | | sy my ey ]; try discriminate;
    unfold SF64add; cbn [SFadd].
  - cbn [SF2Q sign_false] in *. rewrite Qplus_0_l in Hpos.
    destruct sy; [ | reflexivity]. exfalso.
    apply (Qlt_irrefl 0). eapply Qlt_le_trans; [exact Hpos | ].
    cbn [cond_Zopp].
    scale_zero ey.
    apply Qpow2_le_cancel. lia.
  - cbn [SF2Q sign_false] in *. rewrite Qplus_0_r in Hpos.
    destruct sx; [ | reflexivity]. exfalso.
    apply (Qlt_irrefl 0). eapply Qlt_le_trans; [exact Hpos | ].
    cbn [cond_Zopp].
    scale_zero ex.
    apply Qpow2_le_cancel. lia.
  - set (ez := Z.min ex ey).
    rewrite (SF2Q_aligned sx mx ex ez), (SF2Q_aligned sy my ey ez) in Hpos by lia.
    rewrite <- Qmult_plus_distr_l, <- inject_Z_plus in Hpos.
    scale_zero_in ez Hpos.
    apply (proj1 (Qpow2_lt_cancel _ _ _)) in Hpos.
    destruct (cond_Zopp sx (Zpos (fst (shl_align mx ex ez))) +
              cond_Zopp sy (Zpos (fst (shl_align my ey ez))))%Z as [ | p | p ];
      try lia.
    cbn [binary_normalize].
    pose proof (binary_round_shape prec emax false p ez ltac:(reflexivity) ltac:(reflexivity)) as H.
    cbv zeta in H.
    destruct H as [H | [[H _] | (m' & e' & H & _)]]; rewrite H; reflexivity.
Qed.

(** ** The wrap *)

Lemma SF64rem_zero_l (s : bool) (sb : bool) (mb : positive) (eb : Z) :
  SF64rem (S754_zero s) (S754_finite sb mb eb) = S754_zero s.
Proof. reflexivity. Qed.

(** The remainder by a finite non-zero number is finite and smaller than it
    in magnitude, for every finite dividend. *)
Lemma SF64rem_bound (a : number) (sb : bool) (mb : positive) (eb : Z) :
  is_finite a = true ->
  is_finite (SF64rem a (S754_finite sb mb eb)) = true /\
  Qabs (SF2Q (SF64rem a (S754_finite sb mb eb))) < Qabs (SF2Q (S754_finite sb mb eb)).
Proof.
  intros Ha. destruct a as [ sa | sa | | sa ma ea ]; try discriminate.
  - rewrite SF64rem_zero_l. split; [reflexivity | ].
    rewrite Qabs_SF2Q_finite. cbn [SF2Q Qabs].
    setoid_replace (Qabs 0) with (inject_Z 0 * (2 # 1) ^ eb) by (rewrite Qmult_0_l; reflexivity).
    apply Qpow2_lt_cancel. lia.
  - destruct (SF64rem_spec sa sb ma mb ea eb) as (Hfin & Hlt & _). auto.
Qed.

(** [properMod] brings every finite number into [[0, b)], for a positive
    divisor [b] whose double does not overflow. *)
Lemma properMod_in_range (a : number) (mb : positive) (eb : Z) :
  is_finite a = true ->
  (emin prec emax <= Zpos (digits2_pos mb) + eb)%Z ->
  (Zpos (digits2_pos mb) + eb + 2 <= emax)%Z ->
  in_range (properMod a (S754_finite false mb eb)) (S754_finite false mb eb).
Proof.
  intros Ha Hlo Hhi. unfold properMod.
  set (b := S754_finite false mb eb).
  assert (Hb : Qabs (SF2Q b) == SF2Q b) by (subst b; rewrite Qabs_SF2Q_finite; reflexivity).
  assert (Hbmag : mag_le b (Zpos (digits2_pos mb) + eb)) by (subst b; cbn [mag_le]; lia).
  destruct (SF64rem_bound a false mb eb Ha) as [Hfin1 Hlt1]. fold b in Hfin1, Hlt1.
  set (r1 := SF64rem a b) in *.
  rewrite Hb in Hlt1.
  assert (Hmag1 : mag_le r1 (Zpos (digits2_pos mb) + eb)).
  { apply mag_le_of_value; [exact Hfin1 | ].
    eapply Qlt_trans; [exact Hlt1 | ]. rewrite <- Hb. apply value_of_mag_le, Hbmag. }
  pose proof (SF64add_mag r1 b _ Hmag1 Hbmag Hlo Hhi) as Hmags.
  assert (Hsign : sign_false (SF64add r1 b)).
  { apply SF64add_sign; [exact Hfin1 | reflexivity | ].
    apply Qabs_Qlt_condition in Hlt1. destruct Hlt1 as [Hneg _].
    apply (Qplus_lt_l _ _ (SF2Q b)) in Hneg.
    setoid_replace (- SF2Q b + SF2Q b) with 0 in Hneg by ring. exact Hneg. }
  destruct (SF64add r1 b) as [ ss | ss | | ss ms es ]; cbn [mag_le] in Hmags;
    try contradiction; cbn [sign_false] in Hsign; subst ss.
  - subst b. rewrite SF64rem_zero_l. unfold in_range. cbn [is_finite].
    split; [reflexivity | ]. split; [apply Qle_refl | ].
    cbn [SF2Q cond_Zopp].
    scale_zero eb.
    apply Qpow2_lt_cancel. lia.
  - destruct (SF64rem_spec false false ms mb es eb) as (Hfin & Hlt & Hsgn & _).
    cbv zeta in Hfin, Hlt, Hsgn. fold b in Hfin, Hlt, Hsgn. rewrite Hb in Hlt.
    unfold in_range. split; [exact Hfin | ]. split; [exact Hsgn | ].
    eapply Qle_lt_trans; [apply Qle_Qabs | exact Hlt].
Qed.

(** Whatever its argument, the wrap returns [NaN] or a number of [[0, b)]. *)
Lemma properMod_nan_or_in_range (a : number) (mb : positive) (eb : Z) :
  (emin prec emax <= Zpos (digits2_pos mb) + eb)%Z ->
  (Zpos (digits2_pos mb) + eb + 2 <= emax)%Z ->
  properMod a (S754_finite false mb eb) = S754_nan \/
  in_range (properMod a (S754_finite false mb eb)) (S754_finite false mb eb).
Proof.
  intros Hlo Hhi. destruct (is_finite a) eqn:Ha.
  - right. apply properMod_in_range; assumption.
  - left. destruct a; try discriminate; reflexivity.
Qed.

(** ** Multiplication *)

Lemma digits2_mul_le (p q : positive) :
  (Zpos (digits2_pos (p * q)) <= Zpos (digits2_pos p) + Zpos (digits2_pos q))%Z.
Proof.
  apply digits2_le; [lia | ].
  pose proof (digits2_bounds p) as [_ Hp]. pose proof (digits2_bounds q) as [_ Hq].
  rewrite Z.pow_add_r, Pos2Z.inj_mul by lia.
  apply Z.mul_lt_mono_nonneg; lia.
Qed.

(** The product of two finite numbers below [2 ^ kx] and [2 ^ ky] is finite
    and below [2 ^ (kx + ky + 1)], as long as the exponents of the factors
    and the magnitude of the product stay inside the format. *)
Lemma SF64mul_finite_mag (sx sy : bool) (mx my : positive) (ex ey k : Z) :
  (Zpos (digits2_pos mx) + ex + (Zpos (digits2_pos my) + ey) <= k)%Z ->
  (ex + ey <= emax - prec)%Z ->
  (emin prec emax <= k)%Z -> (k + 1 <= emax)%Z ->
  mag_le (SF64mul (S754_finite sx mx ex) (S754_finite sy my ey)) (k + 1).
Proof.
  intros Hk He Hlo Hhi. unfold SF64mul. cbn [SFmul].
  pose proof (binary_round_aux_shape prec emax ltac:(reflexivity) ltac:(reflexivity)
                (xorb sx sy) (mx * my) (ex + ey) loc_Exact) as H.
  cbv zeta in H. pose proof (digits2_mul_le mx my) as Hd.
  destruct H as [H | [[H Hov] | (m' & e' & H & _ & Hd' & _)]]; rewrite H; cbn [mag_le]; lia.
Qed.

Lemma SF64mul_zero_l (s : bool) (y : number) :
  is_finite y = true -> exists s', SF64mul (S754_zero s) y = S754_zero s'.
Proof.
  destruct y; try discriminate; intros _; unfold SF64mul; cbn [SFmul]; eauto.
Qed.

(** Negating a factor negates the product. *)
Lemma binary_round_aux_opp (pr em : Z) (s : bool) (m e : Z) (l : location) :
  binary_round_aux pr em (negb s) m e l = SFopp (binary_round_aux pr em s m e l).
Proof.
  unfold binary_round_aux.
  destruct (shr_fexp pr em m e l) as [mrs1 e1].
  destruct (shr_fexp pr em _ e1 loc_Exact) as [mrs2 e2].
  destruct (shr_m mrs2); cbn [SFopp]; try reflexivity.
  destruct (e2 <=? em - pr)%Z; reflexivity.
Qed.

Lemma SF64mul_opp_l (x y : number) :
  SF64mul (SFopp x) y = SFopp (SF64mul x y).
Proof.
  unfold SF64mul.
  destruct x as [ sx | sx | | sx mx ex ], y as [ sy | sy | | sy my ey ];
    cbn [SFmul SFopp]; try reflexivity;
    try (destruct sx, sy; reflexivity).
  rewrite <- binary_round_aux_opp. f_equal. destruct sx, sy; reflexivity.
Qed.

(** Adding a zero of either sign does not change what the wrap returns. *)
Lemma SF64add_zero_r (v : number) (s : bool) :
  SF64add v (S754_zero s) = v \/
  (exists s1 s2, v = S754_zero s1 /\ SF64add v (S754_zero s) = S754_zero s2).
Proof.
  unfold SF64add.
  destruct v as [ sv | sv | | sv mv ev ]; cbn [SFadd]; auto.
  right. exists sv. destruct sv, s; eauto.
Qed.

(** * The movement engine *)

Lemma WORLD_WIDTH_eq : WORLD_WIDTH = S754_finite false 7036874417766400 (-43).
Proof. reflexivity. Qed.

Lemma WORLD_HEIGHT_eq : WORLD_HEIGHT = S754_finite false 5277655813324800 (-43).
Proof. reflexivity. Qed.

Lemma WORLD_WIDTH_value : SF2Q WORLD_WIDTH == 800.
Proof. reflexivity. Qed.

Lemma WORLD_HEIGHT_value : SF2Q WORLD_HEIGHT == 600.
Proof. reflexivity. Qed.

Lemma PLAYER_SPEED_value : SF2Q PLAYER_SPEED == 500.
Proof. reflexivity. Qed.

(** Whatever the flags, each component of the normalised direction times
    [PLAYER_SPEED] is a zero or one of 250 and 500, of either sign. *)
Lemma speed_component_small (m : Moving.t) :
  below_speed (fst (normalize (sumDirections m)) * PLAYER_SPEED)%num /\
  below_speed (snd (normalize (sumDirections m)) * PLAYER_SPEED)%num.
Proof.
  destruct m as [ [ | ] [ | ] [ | ] [ | ] ]; vm_compute; repeat split; discriminate.
Qed.

Lemma scaled_component_mag (c deltaTime : number) :
  below_speed c -> mag_le deltaTime 1000 -> mag_le (c * deltaTime)%num 1010.
Proof.
  intros Hc Hdt.
  destruct c as [ sc | sc | | sc mc ec ]; cbn [below_speed] in Hc; try contradiction.
  - destruct (SF64mul_zero_l sc deltaTime (mag_le_finite _ _ Hdt)) as [s' ->]. exact I.
  - destruct deltaTime as [ sd | sd | | sd md ed ]; cbn [mag_le] in Hdt; try contradiction.
    + exact I.
    + apply (SF64mul_finite_mag sc sd mc md ec ed 1009).
      * lia.
      * pose proof (Pos2Z.is_pos (digits2_pos md)). unfold emax, prec. lia.
      * unfold emin, emax, prec. lia.
      * unfold emax. lia.
Qed.

Lemma displacement_mag (m : Moving.t) (deltaTime : number) :
  mag_le deltaTime 1000 ->
  mag_le (fst (displacement m deltaTime)) 1010 /\
  mag_le (snd (displacement m deltaTime)) 1010.
Proof.
  intros Hdt. destruct (speed_component_small m) as [Hx Hy].
  unfold displacement. cbn [fst snd].
  split; apply scaled_component_mag; assumption.
Qed.

Lemma in_range_mag (v bound : number) (k : Z) :
  in_range v bound -> mag_le bound k -> mag_le v k.
Proof.
  intros (Hfin & Hlo & Hhi) Hb. apply mag_le_of_value; [exact Hfin | ].
  rewrite Qabs_pos by exact Hlo.
  eapply Qlt_trans; [exact Hhi | ].
  eapply Qle_lt_trans; [apply Qle_Qabs | apply value_of_mag_le, Hb].
Qed.

(** One coordinate of one tick: a finite coordinate in range, displaced by
    a finite amount that does not overflow and wrapped, is in range again. *)
Lemma wrap_displaced_in_range (v d : number) (mb : positive) (eb : Z) :
  in_range v (S754_finite false mb eb) -> mag_le d 1010 ->
  (emin prec emax <= Zpos (digits2_pos mb) + eb <= 1010)%Z ->
  in_range (properMod (v + d)%num (S754_finite false mb eb)) (S754_finite false mb eb).
Proof.
  intros Hv Hd Hb.
  apply properMod_in_range; [ | lia | unfold emax; lia].
  apply (mag_le_finite _ (1010 + 2)), SF64add_mag.
  - apply (in_range_mag v (S754_finite false mb eb)); [exact Hv | cbn [mag_le]; lia].
  - exact Hd.
  - unfold emin, emax, prec. lia.
  - unfold emax. lia.
Qed.

Lemma updatePlayer_in_bounds (player : Player) (deltaTime : number) :
  in_bounds player -> mag_le deltaTime 1000 ->
  in_bounds (updatePlayer player deltaTime).
Proof.
  intros [Hx Hy] Hdt. destruct (displacement_mag (moving player) deltaTime Hdt) as [Hdx Hdy].
  unfold in_bounds, updatePlayer. cbn [x y].
  rewrite WORLD_WIDTH_eq, WORLD_HEIGHT_eq in *.
  split; apply wrap_displaced_in_range; try assumption; vm_compute; split; discriminate.
Qed.

(** ** Canonical representations *)

Lemma bounded_spec (m : positive) (e : Z) :
  bounded prec emax m e = true <->
  fexp prec emax (Zpos (digits2_pos m) + e) = e /\ (e <= emax - prec)%Z.
Proof.
  unfold bounded, canonical_mantissa.
  rewrite andb_true_iff, Z.eqb_eq, Z.leb_le. reflexivity.
Qed.

(** The magnitude of a finite number is determined by its value. *)
Lemma magnitude_unique (m1 m2 : positive) (e1 e2 : Z) :
  inject_Z (Zpos m1) * (2 # 1) ^ e1 == inject_Z (Zpos m2) * (2 # 1) ^ e2 ->
  (Zpos (digits2_pos m1) + e1 = Zpos (digits2_pos m2) + e2)%Z.
Proof.
  intros Hv.
  assert (Hlt : forall k1 k2 f1 f2,
             inject_Z (Zpos k1) * (2 # 1) ^ f1 == inject_Z (Zpos k2) * (2 # 1) ^ f2 ->
             (Zpos (digits2_pos k1) + f1 <= Zpos (digits2_pos k2) + f2)%Z).
  { intros k1 k2 f1 f2 Heq.
    assert (H1 : mag_le (S754_finite false k2 f2) (Zpos (digits2_pos k2) + f2))
      by (cbn [mag_le]; lia).
    apply value_of_mag_le in H1. rewrite Qabs_SF2Q_finite, <- Heq in H1.
    rewrite <- (Qabs_SF2Q_finite false k1 f1) in H1.
    apply mag_le_of_value in H1; [exact H1 | reflexivity]. }
  apply Z.le_antisymm; apply Hlt; [exact Hv | symmetry; exact Hv].
Qed.

(** Two canonical finite numbers of the same sign and value are the same. *)
Lemma canonical_unique (s : bool) (m1 m2 : positive) (e1 e2 : Z) :
  bounded prec emax m1 e1 = true -> bounded prec emax m2 e2 = true ->
  SF2Q (S754_finite s m1 e1) == SF2Q (S754_finite s m2 e2) ->
  S754_finite s m1 e1 = S754_finite s m2 e2.
Proof.
  intros H1 H2 Hv. apply bounded_spec in H1, H2.
  assert (Hmag : inject_Z (Zpos m1) * (2 # 1) ^ e1 == inject_Z (Zpos m2) * (2 # 1) ^ e2).
  { rewrite <- !(Qabs_SF2Q_finite s). rewrite Hv. reflexivity. }
  pose proof (magnitude_unique m1 m2 e1 e2 Hmag) as HD.
  assert (He : e1 = e2) by (destruct H1 as [<- _], H2 as [<- _]; rewrite HD; reflexivity).
  subst e2.
  apply (proj1 (Qmult_inj_r _ _ _ (Qnot_eq_sym _ _ (Qlt_not_eq _ _ (Qpow2_pos e1))))) in Hmag.
  apply (proj1 (inject_Z_injective _ _)) in Hmag. congruence.
Qed.

Lemma SF2Q_finite_nonzero (s : bool) (m : positive) (e : Z) :
  ~ SF2Q (S754_finite s m e) == 0.
Proof.
  intros H. assert (Ha : Qabs (SF2Q (S754_finite s m e)) == 0) by (rewrite H; reflexivity).
  rewrite Qabs_SF2Q_finite in Ha.
  scale_zero_in e Ha.
  apply (proj1 (Qmult_inj_r _ _ _ (Qnot_eq_sym _ _ (Qlt_not_eq _ _ (Qpow2_pos e))))) in Ha.
  apply (proj1 (inject_Z_injective _ _)) in Ha. discriminate.
Qed.

Lemma SF2Q_sign_pos (s : bool) (m : positive) (e : Z) :
  0 <= SF2Q (S754_finite s m e) -> s = false.
Proof.
  destruct s; [ | reflexivity]. cbn [SF2Q cond_Zopp]. intros H. exfalso.
  scale_zero_in e H.
  apply (proj1 (Qpow2_le_cancel _ _ _)) in H. lia.
Qed.

(** The remainder of two canonical numbers is canonical. *)
Lemma SF64rem_valid (sa sb : bool) (ma mb : positive) (ea eb : Z) :
  bounded prec emax ma ea = true -> bounded prec emax mb eb = true ->
  valid_binary prec emax (SF64rem (S754_finite sa ma ea) (S754_finite sb mb eb)) = true.
Proof.
  intros Ha Hb. apply bounded_spec in Ha, Hb. destruct Ha as [Ha Hae], Hb as [Hb Hbe].
  cbn [SF64rem].
  set (e := Z.min ea eb).
  pose proof (shl_align_digits ma ea e ltac:(lia)) as HdA.
  pose proof (shl_align_digits mb eb e ltac:(lia)) as HdB.
  set (A := fst (shl_align ma ea e)) in *. set (B := fst (shl_align mb eb e)) in *.
  assert (HR : (0 <= Z.rem (Zpos A) (Zpos B) < Zpos B)%Z) by (apply Z.rem_bound_pos; lia).
  assert (HRA : (Z.rem (Zpos A) (Zpos B) <= Zpos A)%Z).
  { rewrite Z.rem_mod_nonneg by lia. apply Z.mod_le; lia. }
  destruct (Z.rem (Zpos A) (Zpos B)) as [ | mr | mr ]; [reflexivity | | lia].
  set (D := (Zpos (digits2_pos mr) + e)%Z).
  assert (HD : (fexp prec emax D <= e)%Z).
  { pose proof (digits2_mono mr A HRA). pose proof (digits2_mono mr B ltac:(lia)).
    destruct (Z.min_spec ea eb) as [[_ He] | [_ He]]; fold e in He.
    - apply Z.le_trans with (fexp prec emax (Zpos (digits2_pos ma) + ea)); [ | lia].
      apply fexp_mono. subst D. lia.
    - apply Z.le_trans with (fexp prec emax (Zpos (digits2_pos mb) + eb)); [ | lia].
      apply fexp_mono. subst D. lia. }
  pose proof (shl_align_spec mr e (fexp prec emax D)) as [He' _].
  pose proof (shl_align_digits mr e (fexp prec emax D) HD) as Hd'.
  destruct (shl_align mr e (fexp prec emax D)) as [m' e']. cbn [fst snd] in *.
  cbn [valid_binary]. apply bounded_spec.
  replace e' with (fexp prec emax D) by lia. fold D in Hd'. rewrite Hd'.
  split; [reflexivity | ]. subst e. lia.
Qed.

Lemma SF64add_finite_shape (sx sy : bool) (mx my : positive) (ex ey : Z) :
  let r := SF64add (S754_finite sx mx ex) (S754_finite sy my ey) in
  (exists s, r = S754_zero s) \/ (exists s, r = S754_infinity s) \/
  (exists s m e, r = S754_finite s m e /\ bounded prec emax m e = true).
Proof.
  intros r. subst r. unfold SF64add. cbn [SFadd].
  destruct (cond_Zopp sx (Zpos (fst (shl_align mx ex (Z.min ex ey)))) +
            cond_Zopp sy (Zpos (fst (shl_align my ey (Z.min ex ey)))))%Z as [ | p | p ];
    cbn [binary_normalize]; [left; eauto | | ].
  - pose proof (binary_round_shape prec emax false p (Z.min ex ey)
                  ltac:(reflexivity) ltac:(reflexivity)) as H.
    cbv zeta in H. destruct H as [H | [[H _] | (m' & e' & H & Hb & _)]]; rewrite H; eauto 8.
  - pose proof (binary_round_shape prec emax true p (Z.min ex ey)
                  ltac:(reflexivity) ltac:(reflexivity)) as H.
    cbv zeta in H. destruct H as [H | [[H _] | (m' & e' & H & Hb & _)]]; rewrite H; eauto 8.
Qed.

(** A canonical number of [[0, b)] is its own remainder by [b]. *)
Lemma SF64rem_small (v : number) (sb : bool) (mb : positive) (eb : Z) :
  bounded prec emax mb eb = true -> valid_binary prec emax v = true ->
  is_finite v = true -> 0 <= SF2Q v -> SF2Q v < Qabs (SF2Q (S754_finite sb mb eb)) ->
  SF64rem v (S754_finite sb mb eb) = v.
Proof.
  intros Hb Hv Hfin Hlo Hhi.
  destruct v as [ sv | sv | | sv mv ev ]; try discriminate; [reflexivity | ].
  pose proof (SF2Q_sign_pos _ _ _ Hlo) as ->. cbn [valid_binary] in Hv.
  destruct (SF64rem_finite false sb mv mb ev eb) as (_ & Hval & Hshape).
  pose proof (SF64rem_valid false sb mv mb ev eb Hv Hb) as Hvalid.
  cbv zeta in Hval, Hshape.
  set (e := Z.min ev eb) in *.
  rewrite Qabs_SF2Q_finite in Hhi.
  change (inject_Z (Zpos mb) * (2 # 1) ^ eb) with (SF2Q (S754_finite false mb eb)) in Hhi.
  rewrite (SF2Q_aligned false mv ev e), (SF2Q_aligned false mb eb e) in Hhi by (subst e; lia).
  apply (proj1 (Qpow2_lt_cancel _ _ _)) in Hhi. cbn [cond_Zopp] in Hhi, Hval.
  rewrite Z.rem_small in Hval by lia.
  rewrite <- (SF2Q_aligned false mv ev e) in Hval by (subst e; lia).
  destruct Hshape as [H0 | (m' & e' & H1)].
  - rewrite H0 in Hval. cbn [SF2Q] in Hval. exfalso.
    apply (SF2Q_finite_nonzero false mv ev). symmetry. exact Hval.
  - rewrite H1 in Hval, Hvalid |- *. cbn [valid_binary] in Hvalid.
    apply canonical_unique; assumption.
Qed.

(** The remainder of a canonical number of [[b, 2b)] by [b] is the number
    less [b], computed exactly. *)
Lemma SF64rem_once (ms mb : positive) (es eb : Z) :
  let s := S754_finite false ms es in
  let b := S754_finite false mb eb in
  bounded prec emax ms es = true -> bounded prec emax mb eb = true ->
  SF2Q b <= SF2Q s -> SF2Q s < SF2Q b + SF2Q b ->
  SF2Q (SF64rem s b) == SF2Q s - SF2Q b /\
  valid_binary prec emax (SF64rem s b) = true /\
  (SF64rem s b = S754_zero false \/ exists m' e', SF64rem s b = S754_finite false m' e').
Proof.
  intros s b Hs Hb Hlo Hhi. subst s b.
  destruct (SF64rem_finite false false ms mb es eb) as (_ & Hval & Hshape).
  cbv zeta in Hval, Hshape.
  split; [ | split; [apply SF64rem_valid; assumption | exact Hshape]].
  set (e := Z.min es eb) in *.
  rewrite (SF2Q_aligned false ms es e), (SF2Q_aligned false mb eb e) in Hlo, Hhi |- *
    by (subst e; lia).
  rewrite <- Qmult_plus_distr_l, <- inject_Z_plus in Hhi.
  apply (proj1 (Qpow2_le_cancel _ _ _)) in Hlo.
  apply (proj1 (Qpow2_lt_cancel _ _ _)) in Hhi.
  cbn [cond_Zopp] in *. rewrite Hval.
  set (S := Zpos (fst (shl_align ms es e))) in *.
  set (B := Zpos (fst (shl_align mb eb e))) in *.
  assert (Hrem : Z.rem S B = (S - B)%Z).
  { rewrite Z.rem_mod_nonneg by (subst S B; lia).
    symmetry. apply Z.mod_unique with 1%Z; lia. }
  rewrite Hrem. unfold Zminus. rewrite inject_Z_plus, inject_Z_opp. ring.
Qed.

(** The wrap returns a canonical coordinate of [[0, b)] unchanged whenever
    adding [b] to it is exact. *)
Lemma properMod_fixed (v : number) (mb : positive) (eb : Z) :
  let b := S754_finite false mb eb in
  bounded prec emax mb eb = true ->
  valid_binary prec emax v = true -> in_range v b -> v <> S754_zero true ->
  SF2Q (SF64add v b) == SF2Q v + SF2Q b ->
  properMod v b = v.
Proof.
  intros b Hb Hv (Hfin & Hlo & Hhi) Hnz Hexact. unfold properMod.
  assert (Hbabs : Qabs (SF2Q b) == SF2Q b) by (subst b; rewrite Qabs_SF2Q_finite; reflexivity).
  assert (Hbpos : 0 < SF2Q b) by (eapply Qle_lt_trans; eassumption).
  replace (SF64rem v b) with v
    by (symmetry; apply (SF64rem_small v false mb eb Hb Hv Hfin Hlo);
        fold b; rewrite Hbabs; exact Hhi).
  assert (Hspos : 0 < SF2Q (SF64add v b)).
  { rewrite Hexact. lra. }
  assert (Hsvalid : valid_binary prec emax (SF64add v b) = true).
  { destruct v as [ sv | sv | | sv mv ev ]; try discriminate.
    - exact Hb.
    - destruct (SF64add_finite_shape sv false mv mb ev eb) as [[s H] | [[s H] | (s & m & e & H & Hbd)]];
        fold b in H; rewrite H; try reflexivity. exact Hbd. }
  destruct (SF64add v b) as [ ss | ss | | ss ms es ] eqn:Hsum;
    try (exfalso; revert Hspos; apply Qlt_irrefl).
  pose proof (SF2Q_sign_pos _ _ _ (Qlt_le_weak _ _ Hspos)) as ->.
  cbn [valid_binary] in Hsvalid.
  destruct (SF64rem_once ms mb es eb Hsvalid Hb) as (Hval & Hvalid & Hshape).
  - fold b. rewrite Hexact. lra.
  - fold b. rewrite Hexact. lra.
  - fold b in Hval, Hvalid, Hshape. rewrite Hexact in Hval.
    setoid_replace (SF2Q v + SF2Q b - SF2Q b) with (SF2Q v) in Hval by ring.
    destruct v as [ sv | sv | | sv mv ev ]; try discriminate.
    + destruct Hshape as [H0 | (m' & e' & H1)].
      * rewrite H0. destruct sv; [contradiction Hnz; reflexivity | reflexivity].
      * rewrite H1 in Hval. exfalso. apply (SF2Q_finite_nonzero false m' e'). exact Hval.
    + pose proof (SF2Q_sign_pos _ _ _ Hlo) as ->.
      destruct Hshape as [H0 | (m' & e' & H1)].
      * rewrite H0 in Hval. exfalso. apply (SF2Q_finite_nonzero false mv ev).
        symmetry. exact Hval.
      * rewrite H1 in Hval, Hvalid |- *. cbn [valid_binary] in Hvalid, Hv.
        apply canonical_unique; assumption.
Qed.

(** Adding a zero of either sign before the wrap changes nothing. *)
Lemma properMod_add_zero (v : number) (s : bool) (mb : positive) (eb : Z) :
  properMod (v + S754_zero s)%num (S754_finite false mb eb) =
  properMod v (S754_finite false mb eb).
Proof.
  destruct (SF64add_zero_r v s) as [-> | (s1 & s2 & -> & ->)]; [reflexivity | ].
  unfold properMod. rewrite !SF64rem_zero_l.
  unfold SF64add. cbn [SFadd]. reflexivity.
Qed.

Lemma same_number_eq (a b : number) : same_number a b = true -> a = b.
Proof.
  destruct a as [ s1 | s1 | | s1 m1 e1 ], b as [ s2 | s2 | | s2 m2 e2 ];
    cbn [same_number]; try discriminate; try reflexivity.
  - intros H. apply Bool.eqb_prop in H. congruence.
  - intros H. apply Bool.eqb_prop in H. congruence.
  - rewrite !andb_true_iff. intros [[Hs Hm] He].
    apply Bool.eqb_prop in Hs. apply Pos.eqb_eq in Hm. apply Z.eqb_eq in He. congruence.
Qed.

(** Integer coordinates are returned by the wrap as they are. *)
Lemma properMod_integer (bound : number) (n : nat) :
  forallb (fun k => same_number (properMod (num_of_Z (Z.of_nat k)) bound)
                                (num_of_Z (Z.of_nat k))) (seq 0 n) = true ->
  forall i : Z, (0 <= i < Z.of_nat n)%Z -> properMod (num_of_Z i) bound = num_of_Z i.
Proof.
  intros Hall i Hi. rewrite forallb_forall in Hall.
  apply same_number_eq. rewrite <- (Z2Nat.id i) by lia.
  apply Hall, in_seq. lia.
Qed.

Lemma properMod_integer_width (i : Z) :
  (0 <= i < 800)%Z -> properMod (num_of_Z i) WORLD_WIDTH = num_of_Z i.
Proof. apply (properMod_integer WORLD_WIDTH 800). vm_compute. reflexivity. Qed.

Lemma properMod_integer_height (i : Z) :
  (0 <= i < 600)%Z -> properMod (num_of_Z i) WORLD_HEIGHT = num_of_Z i.
Proof. apply (properMod_integer WORLD_HEIGHT 600). vm_compute. reflexivity. Qed.

(** With a single flag set the direction needs no normalising: the moving
    axis is displaced by [PLAYER_SPEED * deltaTime], the other by a zero. *)
Lemma properMod_zero_times (v deltaTime : number) (s : bool) (mb : positive) (eb : Z) :
  is_finite deltaTime = true ->
  properMod (v + S754_zero s * deltaTime)%num (S754_finite false mb eb) =
  properMod v (S754_finite false mb eb).
Proof.
  intros Hdt. destruct (SF64mul_zero_l s deltaTime Hdt) as [s' ->].
  apply properMod_add_zero.
Qed.

Lemma updatePlayer_idle (i x0 y0 h deltaTime : number) :
  is_finite deltaTime = true ->
  updatePlayer (mkPlayer i x0 y0 idle h) deltaTime =
  mkPlayer i (properMod x0 WORLD_WIDTH) (properMod y0 WORLD_HEIGHT) idle h.
Proof.
  intros Hdt. unfold updatePlayer, displacement. cbn [id x y moving hue fst snd].
  change (fst (normalize (sumDirections idle)) * PLAYER_SPEED)%num with (S754_zero false).
  change (snd (normalize (sumDirections idle)) * PLAYER_SPEED)%num with (S754_zero false).
  rewrite WORLD_WIDTH_eq, WORLD_HEIGHT_eq, !properMod_zero_times by exact Hdt.
  reflexivity.
Qed.

Lemma updatePlayer_only_right (i x0 y0 h deltaTime : number) :
  is_finite deltaTime = true ->
  updatePlayer (mkPlayer i x0 y0 only_right h) deltaTime =
  mkPlayer i (properMod (x0 + PLAYER_SPEED * deltaTime)%num WORLD_WIDTH)
             (properMod y0 WORLD_HEIGHT) only_right h.
Proof.
  intros Hdt. unfold updatePlayer, displacement. cbn [id x y moving hue fst snd].
  change (fst (normalize (sumDirections only_right)) * PLAYER_SPEED)%num with PLAYER_SPEED.
  change (snd (normalize (sumDirections only_right)) * PLAYER_SPEED)%num with (S754_zero false).
  rewrite WORLD_HEIGHT_eq, properMod_zero_times by exact Hdt. reflexivity.
Qed.

Lemma updatePlayer_only_left (i x0 y0 h deltaTime : number) :
  is_finite deltaTime = true ->
  updatePlayer (mkPlayer i x0 y0 only_left h) deltaTime =
  mkPlayer i (properMod (x0 + - (PLAYER_SPEED * deltaTime))%num WORLD_WIDTH)
             (properMod y0 WORLD_HEIGHT) only_left h.
Proof.
  intros Hdt. unfold updatePlayer, displacement. cbn [id x y moving hue fst snd].
  change (fst (normalize (sumDirections only_left)) * PLAYER_SPEED)%num
    with (SFopp PLAYER_SPEED).
  change (snd (normalize (sumDirections only_left)) * PLAYER_SPEED)%num with (S754_zero false).
  rewrite SF64mul_opp_l.
  rewrite WORLD_HEIGHT_eq, properMod_zero_times by exact Hdt. reflexivity.
Qed.

Lemma updatePlayer_only_down (i x0 y0 h deltaTime : number) :
  is_finite deltaTime = true ->
  updatePlayer (mkPlayer i x0 y0 only_down h) deltaTime =
  mkPlayer i (properMod x0 WORLD_WIDTH)
             (properMod (y0 + PLAYER_SPEED * deltaTime)%num WORLD_HEIGHT) only_down h.
Proof.
  intros Hdt. unfold updatePlayer, displacement. cbn [id x y moving hue fst snd].
  change (fst (normalize (sumDirections only_down)) * PLAYER_SPEED)%num with (S754_zero false).
  change (snd (normalize (sumDirections only_down)) * PLAYER_SPEED)%num with PLAYER_SPEED.
  rewrite WORLD_WIDTH_eq, properMod_zero_times by exact Hdt. reflexivity.
Qed.

Lemma updatePlayer_only_up (i x0 y0 h deltaTime : number) :
  is_finite deltaTime = true ->
  updatePlayer (mkPlayer i x0 y0 only_up h) deltaTime =
  mkPlayer i (properMod x0 WORLD_WIDTH)
             (properMod (y0 + - (PLAYER_SPEED * deltaTime))%num WORLD_HEIGHT) only_up h.
Proof.
  intros Hdt. unfold updatePlayer, displacement. cbn [id x y moving hue fst snd].
  change (fst (normalize (sumDirections only_up)) * PLAYER_SPEED)%num with (S754_zero false).
  change (snd (normalize (sumDirections only_up)) * PLAYER_SPEED)%num with (SFopp PLAYER_SPEED).
  rewrite SF64mul_opp_l.
  rewrite WORLD_WIDTH_eq, properMod_zero_times by exact Hdt. reflexivity.
Qed.

Lemma updatePlayer_nan_or_in_range (player : Player) (deltaTime : number) :
  (x (updatePlayer player deltaTime) = S754_nan \/
   in_range (x (updatePlayer player deltaTime)) WORLD_WIDTH) /\
  (y (updatePlayer player deltaTime) = S754_nan \/
   in_range (y (updatePlayer player deltaTime)) WORLD_HEIGHT).
Proof.
  unfold updatePlayer. cbn [x y]. rewrite WORLD_WIDTH_eq, WORLD_HEIGHT_eq.
  split; apply properMod_nan_or_in_range; vm_compute; discriminate.
Qed.

(** * The claims about the movement engine *)

(** C1 (amended): a player inside the world bounds stays inside them, with
    finite coordinates, through every sequence of [updatePlayer] calls whose
    [deltaTime]s are finite and smaller than [2 ^ 1000] in magnitude.
    Whatever the [deltaTime]s are, each coordinate is [NaN] or a number of
    [[0, WORLD_WIDTH)], respectively [[0, WORLD_HEIGHT)], never negative and
    never at or above the bound: the wrap [properMod] brings every finite
    number into that range. *)
Theorem updatePlayer_wrap_invariant :
  (forall (player : Player) (deltaTimes : list number),
      in_bounds player ->
      Forall (fun dt => is_finite dt = true /\ Qabs (SF2Q dt) < (2 # 1) ^ 1000) deltaTimes ->
      in_bounds (updatePlayerMany player deltaTimes)) /\
  (forall (player : Player) (deltaTimes : list number),
      in_bounds player ->
      (x (updatePlayerMany player deltaTimes) = S754_nan \/
       in_range (x (updatePlayerMany player deltaTimes)) WORLD_WIDTH) /\
      (y (updatePlayerMany player deltaTimes) = S754_nan \/
       in_range (y (updatePlayerMany player deltaTimes)) WORLD_HEIGHT)) /\
  (forall a : number,
      is_finite a = true ->
      in_range (properMod a WORLD_WIDTH) WORLD_WIDTH /\
      in_range (properMod a WORLD_HEIGHT) WORLD_HEIGHT).
Proof.
  split; [ | split].
  - intros player deltaTimes Hin Hall. revert player Hin.
    induction Hall as [ | dt dts [Hfin Hmag] _ IH ]; intros player Hin;
      cbn [updatePlayerMany fold_left].
    + exact Hin.
    + apply IH, updatePlayer_in_bounds; [exact Hin | ].
      apply mag_le_of_value; assumption.
  - intros player deltaTimes [Hx Hy].
    destruct deltaTimes as [ | dt dts _ ] using rev_ind; [cbn; auto | ].
    unfold updatePlayerMany. rewrite fold_left_app. cbn [fold_left].
    apply updatePlayer_nan_or_in_range.
  - intros a Ha. rewrite WORLD_WIDTH_eq, WORLD_HEIGHT_eq.
    split; apply properMod_in_range; try exact Ha; vm_compute; discriminate.
Qed.

(** C1, as stated, fails: a player at the origin moving right, ticked once
    with the finite, non-negative [deltaTime = 2 ** 1020], ends with
    [x = NaN], because [PLAYER_SPEED * deltaTime] overflows to [Infinity]
    and [Infinity % WORLD_WIDTH] is [NaN]. *)
Lemma updatePlayer_overflow_leaves_bounds :
  in_bounds (mkPlayer (num_of_Z 1) (num_of_Z 0) (num_of_Z 0) only_right (num_of_Z 0)) /\
  is_finite two_pow_1020 = true /\
  0 <= SF2Q two_pow_1020 /\
  (PLAYER_SPEED * two_pow_1020)%num = S754_infinity false /\
  x (updatePlayer (mkPlayer (num_of_Z 1) (num_of_Z 0) (num_of_Z 0) only_right (num_of_Z 0))
       two_pow_1020) = S754_nan /\
  ~ in_bounds (updatePlayer
                 (mkPlayer (num_of_Z 1) (num_of_Z 0) (num_of_Z 0) only_right (num_of_Z 0))
                 two_pow_1020).
Proof.
  split; [ | split; [ | split; [ | split; [ | split]]]].
  - split; in_range_by_evaluation.
  - reflexivity.
  - discriminate.
  - vm_compute. reflexivity.
  - vm_compute. reflexivity.
  - intros [[Hfin _] _]. vm_compute in Hfin. discriminate.
Qed.

Lemma updatePlayer_wrap_invariant_witness :
  in_bounds (updatePlayerMany
               (mkPlayer (num_of_Z 1) (num_of_Z 790) (num_of_Z 300) only_right (num_of_Z 0))
               [tenth; tenth]).
Proof.
  apply (proj1 updatePlayer_wrap_invariant).
  - split; in_range_by_evaluation.
  - repeat constructor; vm_compute; reflexivity.
Defined.

(** C5: the diagonal scenario.  With [up] and [right] set the summed vector
    is [(1, -1)], its squared length is [2], dividing by it gives
    [(0.5, -0.5)], and with [deltaTime = 0.1] the position is displaced by
    [(25, -25)] before it is wrapped. *)
Theorem updatePlayer_diagonal_scenario :
  let m := Moving.mk false true true false in
  sumDirections m = (num_of_Z 1, (- num_of_Z 1)%num) /\
  squaredLength (sumDirections m) = num_of_Z 2 /\
  normalize (sumDirections m) =
    ((num_of_Z 1 / num_of_Z 2)%num, (- (num_of_Z 1 / num_of_Z 2))%num) /\
  SF2Q (fst (normalize (sumDirections m))) == 1 # 2 /\
  PLAYER_SPEED = num_of_Z 500 /\
  displacement m tenth = (num_of_Z 25, (- num_of_Z 25)%num) /\
  forall i x0 y0 h : number,
    updatePlayer (mkPlayer i x0 y0 m h) tenth =
    mkPlayer i (properMod (x0 + num_of_Z 25)%num WORLD_WIDTH)
               (properMod (y0 + - num_of_Z 25)%num WORLD_HEIGHT) m h.
Proof.
  cbv zeta. repeat split.
Qed.

(** C9: [updatePlayer] changes nothing but [x] and [y]. *)
Theorem updatePlayer_frame (player : Player) (deltaTime : number) :
  id (updatePlayer player deltaTime) = id player /\
  hue (updatePlayer player deltaTime) = hue player /\
  moving (updatePlayer player deltaTime) = moving player /\
  Moving.left (moving (updatePlayer player deltaTime)) = Moving.left (moving player) /\
  Moving.right (moving (updatePlayer player deltaTime)) = Moving.right (moving player) /\
  Moving.up (moving (updatePlayer player deltaTime)) = Moving.up (moving player) /\
  Moving.down (moving (updatePlayer player deltaTime)) = Moving.down (moving player).
Proof. repeat split. Qed.

(** C6 (amended): with exactly one flag set and a finite [deltaTime],
    [updatePlayer] replaces the coordinate on that direction's axis by the
    wrap of the coordinate displaced by [PLAYER_SPEED * deltaTime] (negated
    for [left] and [up]) and the other coordinate [c] by the wrap of [c]
    itself; the wrap returns a canonical, in-range [c] other than [-0]
    unchanged whenever [c + bound] is computed exactly.  In scenario A the
    player at [(790, 300)] moving right for [0.1] ends at [(40, 300)]. *)
Theorem updatePlayer_single_direction :
  (forall i x0 y0 h deltaTime : number,
      is_finite deltaTime = true ->
      (updatePlayer (mkPlayer i x0 y0 only_left h) deltaTime =
         mkPlayer i (properMod (x0 + - (PLAYER_SPEED * deltaTime))%num WORLD_WIDTH)
                    (properMod y0 WORLD_HEIGHT) only_left h /\
       updatePlayer (mkPlayer i x0 y0 only_right h) deltaTime =
         mkPlayer i (properMod (x0 + PLAYER_SPEED * deltaTime)%num WORLD_WIDTH)
                    (properMod y0 WORLD_HEIGHT) only_right h /\
       updatePlayer (mkPlayer i x0 y0 only_up h) deltaTime =
         mkPlayer i (properMod x0 WORLD_WIDTH)
                    (properMod (y0 + - (PLAYER_SPEED * deltaTime))%num WORLD_HEIGHT) only_up h /\
       updatePlayer (mkPlayer i x0 y0 only_down h) deltaTime =
         mkPlayer i (properMod x0 WORLD_WIDTH)
                    (properMod (y0 + PLAYER_SPEED * deltaTime)%num WORLD_HEIGHT) only_down h) /\
      (valid_binary prec emax x0 = true -> in_range x0 WORLD_WIDTH ->
       x0 <> S754_zero true -> add_exact x0 WORLD_WIDTH ->
       properMod x0 WORLD_WIDTH = x0) /\
      (valid_binary prec emax y0 = true -> in_range y0 WORLD_HEIGHT ->
       y0 <> S754_zero true -> add_exact y0 WORLD_HEIGHT ->
       properMod y0 WORLD_HEIGHT = y0)) /\
  (SF2Q WORLD_WIDTH == 800 /\ SF2Q PLAYER_SPEED == 500 /\
   (PLAYER_SPEED * tenth)%num = num_of_Z 50 /\
   (num_of_Z 790 + num_of_Z 50)%num = num_of_Z 840 /\
   properMod (num_of_Z 840) WORLD_WIDTH = num_of_Z 40 /\
   updatePlayer (mkPlayer (num_of_Z 1) (num_of_Z 790) (num_of_Z 300) only_right (num_of_Z 0))
                tenth =
   mkPlayer (num_of_Z 1) (num_of_Z 40) (num_of_Z 300) only_right (num_of_Z 0)).
Proof.
  split; [ | repeat split].
  intros i x0 y0 h deltaTime Hdt. split; [ | split].
  - repeat split.
    + apply updatePlayer_only_left, Hdt.
    + apply updatePlayer_only_right, Hdt.
    + apply updatePlayer_only_up, Hdt.
    + apply updatePlayer_only_down, Hdt.
  - rewrite WORLD_WIDTH_eq. intros Hv Hr Hnz Hex.
    apply properMod_fixed; try assumption. reflexivity.
  - rewrite WORLD_HEIGHT_eq. intros Hv Hr Hnz Hex.
    apply properMod_fixed; try assumption. reflexivity.
Qed.

(** C6, as stated, fails on the axis that should not change: a player at
    [(790, 0.1)] moving right for [0.1] ends with [y] equal to
    [0.10000000000002274], because [0.1 + 600] is rounded; and a player at
    [(790, 300)] moving right for [deltaTime = Infinity] ends with
    [y = NaN], because [0 * 500 * Infinity] is [NaN]. *)
Lemma updatePlayer_right_perturbs_y :
  y (updatePlayer (mkPlayer (num_of_Z 1) (num_of_Z 790) (num_of_Z 300) only_right (num_of_Z 0))
                  (S754_infinity false)) = S754_nan /\
  in_bounds (mkPlayer (num_of_Z 1) (num_of_Z 790) tenth only_right (num_of_Z 0)) /\
  is_finite tenth = true /\
  y (updatePlayer (mkPlayer (num_of_Z 1) (num_of_Z 790) tenth only_right (num_of_Z 0)) tenth)
    = S754_finite false 7205759403794432 (-56) /\
  y (updatePlayer (mkPlayer (num_of_Z 1) (num_of_Z 790) tenth only_right (num_of_Z 0)) tenth)
    <> tenth /\
  strict_eq
    (y (updatePlayer (mkPlayer (num_of_Z 1) (num_of_Z 790) tenth only_right (num_of_Z 0)) tenth))
    tenth = false.
Proof.
  split; [vm_compute; reflexivity | ].
  split; [ | split; [ | split; [ | split]]].
  - split; in_range_by_evaluation.
  - reflexivity.
  - vm_compute. reflexivity.
  - vm_compute. discriminate.
  - vm_compute. reflexivity.
Qed.

Lemma updatePlayer_single_direction_witness :
  is_finite tenth = true /\
  updatePlayer (mkPlayer (num_of_Z 1) (num_of_Z 790) (num_of_Z 300) only_right (num_of_Z 0))
               tenth =
  mkPlayer (num_of_Z 1)
           (properMod (num_of_Z 790 + PLAYER_SPEED * tenth)%num WORLD_WIDTH)
           (num_of_Z 300) only_right (num_of_Z 0).
Proof.
  split; [reflexivity | ].
  destruct (proj1 updatePlayer_single_direction
              (num_of_Z 1) (num_of_Z 790) (num_of_Z 300) (num_of_Z 0) tenth eq_refl)
    as ((_ & Hright & _) & _ & Hy).
  assert (Hrange : in_range (num_of_Z 300) WORLD_HEIGHT)
    by in_range_by_evaluation.
  assert (Hnz : num_of_Z 300 <> S754_zero true) by discriminate.
  assert (Hexact : add_exact (num_of_Z 300) WORLD_HEIGHT) by (vm_compute; reflexivity).
  rewrite Hright, (Hy eq_refl Hrange Hnz Hexact). reflexivity.
Defined.

(** C7 (amended): with all four flags false and a finite [deltaTime],
    [updatePlayer] sets [x] to the wrap of [x] and [y] to the wrap of [y];
    the player is left as it was when it is inside the world bounds, its
    coordinates are canonical and not [-0], and adding the bound to each
    coordinate is exact, as it is for every integer position. *)
Theorem updatePlayer_idle_position :
  forall i x0 y0 h deltaTime : number,
    is_finite deltaTime = true ->
    let player := mkPlayer i x0 y0 idle h in
    updatePlayer player deltaTime =
      mkPlayer i (properMod x0 WORLD_WIDTH) (properMod y0 WORLD_HEIGHT) idle h /\
    (in_bounds player ->
     valid_binary prec emax x0 = true -> valid_binary prec emax y0 = true ->
     x0 <> S754_zero true -> y0 <> S754_zero true ->
     add_exact x0 WORLD_WIDTH -> add_exact y0 WORLD_HEIGHT ->
     updatePlayer player deltaTime = player) /\
    (forall a b : Z,
        (0 <= a < 800)%Z -> (0 <= b < 600)%Z -> x0 = num_of_Z a -> y0 = num_of_Z b ->
        updatePlayer player deltaTime = player).
Proof.
  intros i x0 y0 h deltaTime Hdt player. subst player.
  rewrite (updatePlayer_idle i x0 y0 h deltaTime Hdt).
  split; [reflexivity | split].
  - intros [Hx Hy] Hvx Hvy Hnx Hny Hex Hey. cbn [x y] in Hx, Hy.
    rewrite WORLD_WIDTH_eq, WORLD_HEIGHT_eq in *.
    rewrite !properMod_fixed by (assumption || reflexivity). reflexivity.
  - intros a b Ha Hb -> ->.
    rewrite properMod_integer_width, properMod_integer_height by assumption. reflexivity.
Qed.

(** C7, as stated, fails: an idle player at [(0.1, 0.1)] is moved to
    [0.10000000000002274] on both axes by one tick, because [0.1 + 800] and
    [0.1 + 600] are rounded before the remainder is taken; and an idle
    player at [(790, 300)] ticked with [deltaTime = Infinity] ends with
    [x = NaN], because [0 * 500 * Infinity] is [NaN]. *)
Lemma updatePlayer_idle_perturbs_position :
  x (updatePlayer (mkPlayer (num_of_Z 1) (num_of_Z 790) (num_of_Z 300) idle (num_of_Z 0))
                  (S754_infinity false)) = S754_nan /\
  in_bounds (mkPlayer (num_of_Z 1) tenth tenth idle (num_of_Z 0)) /\
  is_finite tenth = true /\
  x (updatePlayer (mkPlayer (num_of_Z 1) tenth tenth idle (num_of_Z 0)) tenth)
    = S754_finite false 7205759403794432 (-56) /\
  y (updatePlayer (mkPlayer (num_of_Z 1) tenth tenth idle (num_of_Z 0)) tenth)
    = S754_finite false 7205759403794432 (-56) /\
  x (updatePlayer (mkPlayer (num_of_Z 1) tenth tenth idle (num_of_Z 0)) tenth) <> tenth /\
  strict_eq (x (updatePlayer (mkPlayer (num_of_Z 1) tenth tenth idle (num_of_Z 0)) tenth))
            tenth = false.
Proof.
  split; [vm_compute; reflexivity | ].
  split; [ | split; [ | split; [ | split; [ | split]]]].
  - split; in_range_by_evaluation.
  - reflexivity.
  - vm_compute. reflexivity.
  - vm_compute. reflexivity.
  - vm_compute. discriminate.
  - vm_compute. reflexivity.
Qed.

Lemma updatePlayer_idle_position_witness :
  is_finite tenth = true /\
  updatePlayer (mkPlayer (num_of_Z 1) (num_of_Z 790) (num_of_Z 300) idle (num_of_Z 0)) tenth =
  mkPlayer (num_of_Z 1) (num_of_Z 790) (num_of_Z 300) idle (num_of_Z 0).
Proof.
  split; [reflexivity | ].
  apply (proj1 (proj2 (updatePlayer_idle_position
           (num_of_Z 1) (num_of_Z 790) (num_of_Z 300) (num_of_Z 0) tenth eq_refl))).
  - split; in_range_by_evaluation.
  - reflexivity.
  - reflexivity.
  - discriminate.
  - discriminate.
  - vm_compute. reflexivity.
  - vm_compute. reflexivity.
Defined.

(** X4: opposing flags cancel: with [left] and [right] both set, and [up] and
    [down] both set or both clear, the summed vector is zero and a tick
    with a finite [deltaTime] only wraps the position. *)
Theorem updatePlayer_opposing_flags_cancel :
  forall (i x0 y0 h deltaTime : number) (vertical : bool),
    is_finite deltaTime = true ->
    sumDirections (Moving.mk true true vertical vertical) = (S754_zero false, S754_zero false) /\
    updatePlayer (mkPlayer i x0 y0 (Moving.mk true true vertical vertical) h) deltaTime =
    mkPlayer i (properMod x0 WORLD_WIDTH) (properMod y0 WORLD_HEIGHT)
             (Moving.mk true true vertical vertical) h.
Proof.
  intros i x0 y0 h deltaTime vertical Hdt.
  split; [destruct vertical; reflexivity | ].
  unfold updatePlayer, displacement. cbn [id x y moving hue fst snd].
  replace (fst (normalize (sumDirections (Moving.mk true true vertical vertical)))
           * PLAYER_SPEED)%num with (S754_zero false) by (destruct vertical; reflexivity).
  replace (snd (normalize (sumDirections (Moving.mk true true vertical vertical)))
           * PLAYER_SPEED)%num with (S754_zero false) by (destruct vertical; reflexivity).
  rewrite WORLD_WIDTH_eq, WORLD_HEIGHT_eq, !properMod_zero_times by exact Hdt.
  reflexivity.
Qed.

Lemma updatePlayer_opposing_flags_cancel_witness :
  updatePlayer (mkPlayer (num_of_Z 1) (num_of_Z 790) (num_of_Z 300)
                         (Moving.mk true true false false) (num_of_Z 0)) tenth =
  mkPlayer (num_of_Z 1) (properMod (num_of_Z 790) WORLD_WIDTH)
           (properMod (num_of_Z 300) WORLD_HEIGHT) (Moving.mk true true false false) (num_of_Z 0).
Proof.
  exact (proj2 (updatePlayer_opposing_flags_cancel
                  (num_of_Z 1) (num_of_Z 790) (num_of_Z 300) (num_of_Z 0) tenth false eq_refl)).
Defined.

(** X5: two orthogonal flags: the summed vector has squared length 2 and is
    divided by it, so each axis is displaced by [(PLAYER_SPEED / 2) *
    deltaTime], half of what a single flag gives. *)
Theorem updatePlayer_diagonal_half_speed :
  forall deltaTime : number,
    (PLAYER_SPEED / num_of_Z 2)%num = num_of_Z 250 /\
    displacement (Moving.mk false true false true) deltaTime =
      ((num_of_Z 250 * deltaTime)%num, (num_of_Z 250 * deltaTime)%num) /\
    displacement (Moving.mk false true true false) deltaTime =
      ((num_of_Z 250 * deltaTime)%num, (- (num_of_Z 250 * deltaTime))%num) /\
    displacement (Moving.mk true false false true) deltaTime =
      ((- (num_of_Z 250 * deltaTime))%num, (num_of_Z 250 * deltaTime)%num) /\
    displacement (Moving.mk true false true false) deltaTime =
      ((- (num_of_Z 250 * deltaTime))%num, (- (num_of_Z 250 * deltaTime))%num).
Proof.
  intros deltaTime. rewrite <- !SF64mul_opp_l. repeat split.
Qed.

(** * The binary schema *)

Local Open Scope Z_scope.

(** ** Bytes of a view *)

Lemma length_setNth (view : DataView) (n : nat) (b : Z) :
  List.length (setNth view n b) = List.length view.
Proof.
  revert n. induction view as [ | c rest IH ]; intros [ | n ]; cbn; auto.
Qed.

Lemma nth_setNth_same (view : DataView) (n : nat) (b d : Z) :
  (n < List.length view)%nat -> nth n (setNth view n b) d = b.
Proof.
  revert n. induction view as [ | c rest IH ]; intros [ | n ] Hn; cbn in *;
    try lia; try reflexivity. apply IH. lia.
Qed.

Lemma nth_setNth_other (view : DataView) (n n' : nat) (b d : Z) :
  n <> n' -> nth n' (setNth view n b) d = nth n' view d.
Proof.
  revert n n'. induction view as [ | c rest IH ]; intros [ | n ] [ | n' ] Hn; cbn;
    try reflexivity; try congruence.
  apply IH. congruence.
Qed.

Lemma length_setByte (view : DataView) (i b : Z) :
  List.length (setByte view i b) = List.length view.
Proof. apply length_setNth. Qed.

Lemma getByte_setByte_same (view : DataView) (i b : Z) :
  0 <= i < Z.of_nat (List.length view) -> getByte (setByte view i b) i = b.
Proof. intros Hi. apply nth_setNth_same. lia. Qed.

Lemma getByte_setByte_other (view : DataView) (i j b : Z) :
  0 <= i -> 0 <= j -> i <> j -> getByte (setByte view i b) j = getByte view j.
Proof. intros Hi Hj Hij. apply nth_setNth_other. lia. Qed.

Lemma in_view_spec (view : DataView) (i n : Z) :
  in_view view i n = true <-> 0 <= i /\ i + n <= Z.of_nat (List.length view).
Proof. unfold in_view. rewrite andb_true_iff, !Z.leb_le. reflexivity. Qed.

(** ** 32-bit words *)

Lemma uint32_of_bytes_of_uint32 (u : Z) :
  0 <= u < 2 ^ 32 ->
  uint32_of_bytes (u mod 256) (u / 2 ^ 8 mod 256) (u / 2 ^ 16 mod 256) (u / 2 ^ 24 mod 256) = u.
Proof.
  intros Hu. unfold uint32_of_bytes.
  change (2 ^ 8) with 256. change (2 ^ 16) with 65536. change (2 ^ 24) with 16777216.
  change (2 ^ 32) with 4294967296 in Hu. Z.div_mod_to_equations. lia.
Qed.

Lemma length_setWord (view : DataView) (i u : Z) :
  List.length (setWord view i u) = List.length view.
Proof. unfold setWord, bytes_of_uint32. rewrite !length_setByte. reflexivity. Qed.

Lemma getByte_setWord_other (view : DataView) (i j u : Z) :
  0 <= i -> 0 <= j -> (j < i \/ i + 4 <= j) ->
  getByte (setWord view i u) j = getByte view j.
Proof.
  intros Hi Hj Hij. unfold setWord, bytes_of_uint32.
  rewrite !getByte_setByte_other by lia. reflexivity.
Qed.

Lemma getWord_setWord_same (view : DataView) (i u : Z) :
  0 <= i -> i + 4 <= Z.of_nat (List.length view) -> 0 <= u < 2 ^ 32 ->
  getWord (setWord view i u) i = u.
Proof.
  intros Hi Hlen Hu. unfold getWord, setWord, bytes_of_uint32.
  rewrite (getByte_setByte_same _ (i + 3)) by (rewrite !length_setByte; lia).
  rewrite (getByte_setByte_other _ (i + 3) (i + 2)) by lia.
  rewrite (getByte_setByte_same _ (i + 2)) by (rewrite !length_setByte; lia).
  rewrite !(getByte_setByte_other _ (i + 3) (i + 1)) by lia.
  rewrite !(getByte_setByte_other _ (i + 2) (i + 1)) by lia.
  rewrite (getByte_setByte_same _ (i + 1)) by (rewrite !length_setByte; lia).
  rewrite !(getByte_setByte_other _ (i + 3) i) by lia.
  rewrite !(getByte_setByte_other _ (i + 2) i) by lia.
  rewrite !(getByte_setByte_other _ (i + 1) i) by lia.
  rewrite (getByte_setByte_same _ i) by lia.
  apply uint32_of_bytes_of_uint32, Hu.
Qed.

Lemma getWord_setWord_other (view : DataView) (i j u : Z) :
  0 <= i -> 0 <= j -> (j + 4 <= i \/ i + 4 <= j) ->
  getWord (setWord view i u) j = getWord view j.
Proof.
  intros Hi Hj Hij. unfold getWord.
  rewrite !getByte_setWord_other by lia. reflexivity.
Qed.

Lemma getWord_setByte_other (view : DataView) (i j b : Z) :
  0 <= i -> 0 <= j -> (i < j \/ j + 4 <= i) ->
  getWord (setByte view i b) j = getWord view j.
Proof.
  intros Hi Hj Hij. unfold getWord.
  rewrite !getByte_setByte_other by lia. reflexivity.
Qed.

(** ** Integers as numbers *)

(** Below [2 ^ 53] an integer literal is a number with that exact value. *)
Lemma binary_round_integer (s : bool) (p : positive) :
  Zpos p < 2 ^ 53 ->
  exists m e,
    binary_round prec emax s p 0 = S754_finite s m e /\
    e <= 0 /\ Zpos m = Zpos p * 2 ^ (- e) /\ bounded prec emax m e = true.
Proof.
  intros Hp.
  assert (Hd : Zpos (digits2_pos p) <= 53) by (apply digits2_le; lia).
  pose proof (Pos2Z.is_pos (digits2_pos p)) as Hd0.
  set (D := Zpos (digits2_pos p) + 0).
  assert (HfD : fexp prec emax D = D - 53) by (unfold fexp, emin, emax, prec, D; lia).
  pose proof (binary_round_exact prec emax s p 0 ltac:(reflexivity) ltac:(reflexivity)) as H.
  cbv zeta in H. fold D in H. rewrite HfD in H.
  specialize (H ltac:(unfold D; lia) ltac:(unfold D, emax; lia)).
  destruct (shl_align_spec p 0 (D - 53)) as [_ Hm].
  pose proof (shl_align_digits p 0 (D - 53) ltac:(unfold D; lia)) as Hdig.
  exists (fst (shl_align p 0 (D - 53))), (D - 53).
  split; [exact H | ]. split; [unfold D; lia | ]. split.
  - rewrite Hm. f_equal. f_equal. unfold D. lia.
  - apply bounded_spec. fold D in Hdig. rewrite Hdig.
    split; [exact HfD | unfold D, emax, prec; lia].
Qed.

Lemma truncate_integer_mantissa (s : bool) (p m : positive) (e : Z) :
  e <= 0 -> Zpos m = Zpos p * 2 ^ (- e) ->
  truncate (S754_finite s m e) = cond_Zopp s (Zpos p).
Proof.
  intros He Hm. cbn [truncate]. f_equal.
  destruct (Z.leb_spec 0 e) as [H0 | H0].
  - assert (e = 0) by lia. subst e. cbn in Hm |- *. lia.
  - rewrite Hm. apply Z.div_mul. apply Z.pow_nonzero; lia.
Qed.

Lemma truncate_num_of_Z (n : Z) :
  Z.abs n < 2 ^ 53 -> truncate (num_of_Z n) = n.
Proof.
  intros Hn. destruct n as [ | p | p ]; [reflexivity | | ]; unfold num_of_Z; cbn [binary_normalize].
  - destruct (binary_round_integer false p ltac:(lia)) as (m & e & -> & He & Hm & _).
    apply (truncate_integer_mantissa false p m e He Hm).
  - destruct (binary_round_integer true p ltac:(lia)) as (m & e & -> & He & Hm & _).
    apply (truncate_integer_mantissa true p m e He Hm).
Qed.

Lemma SF2Q_integer_mantissa (s : bool) (p m : positive) (e : Z) :
  e <= 0 -> Zpos m = Zpos p * 2 ^ (- e) ->
  (SF2Q (S754_finite s m e) == inject_Z (cond_Zopp s (Zpos p)))%Q.
Proof.
  intros He Hm. cbn [SF2Q]. rewrite Hm, cond_Zopp_mul.
  pose proof (Qpow2_shift (cond_Zopp s (Zpos p)) (- e) 0 ltac:(lia)) as H.
  replace (0 - - e) with e in H by lia. rewrite H. cbn [Qpower]. apply Qmult_1_r.
Qed.

Lemma SF2Q_num_of_Z (n : Z) :
  Z.abs n < 2 ^ 53 -> (SF2Q (num_of_Z n) == inject_Z n)%Q.
Proof.
  intros Hn. destruct n as [ | p | p ]; [reflexivity | | ]; unfold num_of_Z; cbn [binary_normalize].
  - destruct (binary_round_integer false p ltac:(lia)) as (m & e & -> & He & Hm & _).
    apply (SF2Q_integer_mantissa false p m e He Hm).
  - destruct (binary_round_integer true p ltac:(lia)) as (m & e & -> & He & Hm & _).
    apply (SF2Q_integer_mantissa true p m e He Hm).
Qed.

Lemma is_finite_num_of_Z (n : Z) : Z.abs n < 2 ^ 53 -> is_finite (num_of_Z n) = true.
Proof.
  intros Hn. destruct n as [ | p | p ]; [reflexivity | | ]; unfold num_of_Z; cbn [binary_normalize].
  - destruct (binary_round_integer false p ltac:(lia)) as (m & e & -> & _). reflexivity.
  - destruct (binary_round_integer true p ltac:(lia)) as (m & e & -> & _). reflexivity.
Qed.

(** The integer part of a number that denotes an integer is that integer. *)
Lemma truncate_integer (v : number) (n : Z) :
  is_finite v = true -> (SF2Q v == inject_Z n)%Q -> truncate v = n.
Proof.
  intros Hfin Hv. destruct v as [ s | s | | s m e ]; try discriminate.
  - cbn [SF2Q truncate] in *. symmetry. apply inject_Z_injective. symmetry. exact Hv.
  - cbn [SF2Q truncate] in *.
    destruct (Z.leb_spec 0 e) as [H0 | H0].
    + rewrite <- Qpow2_inject, <- inject_Z_mult in Hv by lia.
      apply (proj1 (inject_Z_injective _ _)) in Hv. rewrite <- Hv. apply cond_Zopp_mul.
    + assert (Hc : cond_Zopp s (Zpos m) = n * 2 ^ (- e)).
      { apply inject_Z_injective.
        rewrite inject_Z_mult, Qpow2_inject by lia.
        rewrite <- Hv, <- Qmult_assoc, <- Qpow2_add.
        replace (e + - e) with 0 by lia. cbn. ring. }
      assert (Hpow : 0 < 2 ^ (- e)) by (apply Z.pow_pos_nonneg; lia).
      destruct s; cbn [cond_Zopp] in *.
      * replace (Zpos m) with (- n * 2 ^ (- e)) by lia.
        rewrite Z.div_mul by lia. lia.
      * rewrite Hc, Z.div_mul by lia. reflexivity.
Qed.

(** ** binary32 values and their bits *)

Lemma bounded32_spec (m : positive) (e : Z) :
  bounded prec32 emax32 m e = true ->
  -149 <= e <= 104 /\ Zpos m < 2 ^ 24 /\ (Zpos m < 2 ^ 23 -> e = -149).
Proof.
  unfold bounded, canonical_mantissa. rewrite andb_true_iff, Z.eqb_eq, Z.leb_le.
  unfold fexp, emin, prec32, emax32. intros [Hc He].
  pose proof (Pos2Z.is_pos (digits2_pos m)) as Hd0.
  assert (Hd : Zpos (digits2_pos m) <= 24) by lia.
  split; [lia | ]. split.
  - apply digits2_le; lia.
  - intros Hsub. assert (Zpos (digits2_pos m) <= 23) by (apply digits2_le; lia). lia.
Qed.

Lemma bits_of_binary32_range (f : spec_float) :
  valid_binary prec32 emax32 f = true -> 0 <= bits_of_binary32 f < 2 ^ 32.
Proof.
  destruct f as [ s | s | | s m e ]; cbn [valid_binary bits_of_binary32]; intros Hv.
  - destruct s; cbn; lia.
  - destruct s; cbn; lia.
  - cbn. lia.
  - apply bounded32_spec in Hv. destruct Hv as (He & Hm & Hsub).
    change (2 ^ 24) with 16777216 in *. change (2 ^ 23) with 8388608 in *.
    change (2 ^ 32) with 4294967296.
    destruct (Z.ltb_spec (Zpos m) 8388608); destruct s; cbn [sign_bit];
      change (2 ^ 31) with 2147483648; lia.
Qed.

(** Decoding the bits of a binary32 value gives the value back. *)
Lemma binary32_of_bits_of_binary32 (f : spec_float) :
  valid_binary prec32 emax32 f = true ->
  binary32_of_bits (bits_of_binary32 f) = f.
Proof.
  destruct f as [ s | s | | s m e ]; cbn [valid_binary bits_of_binary32]; intros Hv.
  - destruct s; reflexivity.
  - destruct s; reflexivity.
  - reflexivity.
  - apply bounded32_spec in Hv. destruct Hv as (He & Hm & Hsub).
    unfold binary32_of_bits.
    change (2 ^ 24) with 16777216 in *. change (2 ^ 23) with 8388608 in *.
    change (2 ^ 8) with 256. change (2 ^ 31) with 2147483648.
    destruct (Z.ltb_spec (Zpos m) 8388608) as [Hlt | Hge].
    + specialize (Hsub Hlt). subst e.
      assert (Hs : (2147483648 <=? sign_bit s + Zpos m) = s).
      { destruct s; cbn [sign_bit]; change (2 ^ 31) with 2147483648;
          [apply Z.leb_le | apply Z.leb_gt]; lia. }
      assert (HE : (sign_bit s + Zpos m) / 8388608 mod 256 = 0).
      { destruct s; cbn [sign_bit]; change (2 ^ 31) with 2147483648;
          Z.div_mod_to_equations; lia. }
      assert (HM : (sign_bit s + Zpos m) mod 8388608 = Zpos m).
      { destruct s; cbn [sign_bit]; change (2 ^ 31) with 2147483648;
          Z.div_mod_to_equations; lia. }
      rewrite Hs, HE, HM. reflexivity.
    + set (b := sign_bit s + (e + 150) * 8388608 + (Zpos m - 8388608)).
      assert (Hs : (2147483648 <=? b) = s).
      { subst b. destruct s; cbn [sign_bit]; change (2 ^ 31) with 2147483648;
          [apply Z.leb_le | apply Z.leb_gt]; lia. }
      assert (HE : b / 8388608 mod 256 = e + 150).
      { subst b. destruct s; cbn [sign_bit]; change (2 ^ 31) with 2147483648;
          Z.div_mod_to_equations; lia. }
      assert (HM : b mod 8388608 = Zpos m - 8388608).
      { subst b. destruct s; cbn [sign_bit]; change (2 ^ 31) with 2147483648;
          Z.div_mod_to_equations; lia. }
      rewrite Hs, HE, HM.
      destruct (Z.eqb_spec (e + 150) 0); [lia | ].
      destruct (Z.eqb_spec (e + 150) 255); [lia | ].
      replace (Zpos m - 8388608 + 8388608) with (Zpos m) by lia.
      f_equal. lia.
Qed.

Lemma to_binary32_valid (v : number) :
  valid_binary prec32 emax32 (to_binary32 v) = true.
Proof.
  destruct v as [ s | s | | s m e ]; try reflexivity. cbn [to_binary32].
  pose proof (binary_round_shape prec32 emax32 s m e ltac:(reflexivity) ltac:(reflexivity)) as H.
  cbv zeta in H.
  destruct H as [H | [[H _] | (m' & e' & H & Hb & _)]]; rewrite H; try reflexivity.
  exact Hb.
Qed.

(** Reading a binary32 value as a number is exact. *)
Lemma of_binary32_value (f : spec_float) :
  valid_binary prec32 emax32 f = true ->
  is_finite (of_binary32 f) = is_finite f /\ (SF2Q (of_binary32 f) == SF2Q f)%Q.
Proof.
  destruct f as [ s | s | | s m e ]; cbn [valid_binary of_binary32]; intros Hv;
    try (split; reflexivity).
  apply bounded32_spec in Hv. destruct Hv as (He & Hm & _).
  assert (Hd : Zpos (digits2_pos m) <= 24) by (apply digits2_le; lia).
  pose proof (Pos2Z.is_pos (digits2_pos m)) as Hd0.
  pose proof (binary_round_exact prec emax s m e ltac:(reflexivity) ltac:(reflexivity)) as H.
  cbv zeta in H.
  rewrite H by (unfold fexp, emin, emax, prec; lia).
  split; [reflexivity | ].
  pose proof (shl_align_finite_value s m e (fexp prec emax (Zpos (digits2_pos m) + e))) as Hval.
  destruct (shl_align_spec m e (fexp prec emax (Zpos (digits2_pos m) + e))) as [Hsnd _].
  rewrite Hsnd in Hval.
  replace (Z.min e (fexp prec emax (Zpos (digits2_pos m) + e)))
    with (fexp prec emax (Zpos (digits2_pos m) + e)) in Hval
    by (unfold fexp, emin, emax, prec; lia).
  exact Hval.
Qed.

Lemma getWord_binary32 (view : DataView) (i : Z) (v : number) :
  0 <= i -> i + 4 <= Z.of_nat (List.length view) ->
  of_binary32 (binary32_of_bits (getWord (setWord view i (bits_of_binary32 (to_binary32 v))) i))
  = fround v.
Proof.
  intros Hi Hlen.
  rewrite getWord_setWord_same by
    (try assumption; apply bits_of_binary32_range, to_binary32_valid).
  rewrite binary32_of_bits_of_binary32 by apply to_binary32_valid. reflexivity.
Qed.

(** ** Fields *)

(** C3: the handshake schema lays its fields out cumulatively, in
    declaration order: [kind] is one byte at offset 0, [id] four bytes at
    1, [x] four bytes at 5, [y] four bytes at 9, [hue] one byte at 13, and
    the schema is 14 bytes long; multi-byte fields are stored least
    significant byte first, as the record [(0x01020304, 1, -2.5, 255)]
    written over 14 zero bytes shows. *)
Theorem HelloStruct_layout :
  (Field.offset (Hello.kind HelloStruct) = 0 /\ Field.size (Hello.kind HelloStruct) = 1) /\
  (Field.offset (Hello.id HelloStruct) = 1 /\ Field.size (Hello.id HelloStruct) = 4) /\
  (Field.offset (Hello.x HelloStruct) = 5 /\ Field.size (Hello.x HelloStruct) = 4) /\
  (Field.offset (Hello.y HelloStruct) = 9 /\ Field.size (Hello.y HelloStruct) = 4) /\
  (Field.offset (Hello.hue HelloStruct) = 13 /\ Field.size (Hello.hue HelloStruct) = 1) /\
  Hello.size HelloStruct = 14 /\
  (forall allocator : Allocator,
      Field.offset (fst (allocUint8Field allocator)) = iota allocator /\
      iota (snd (allocUint8Field allocator)) = iota allocator + UINT8_SIZE /\
      Field.offset (fst (allocUint32Field allocator)) = iota allocator /\
      iota (snd (allocUint32Field allocator)) = iota allocator + UINT32_SIZE /\
      Field.offset (fst (allocFloat32Field allocator)) = iota allocator /\
      iota (snd (allocFloat32Field allocator)) = iota allocator + FLOAT32_SIZE) /\
  (forall (view : DataView) (baseOffset : Z) (v : number),
      Field.write (Hello.kind HelloStruct) view baseOffset v = setUint8 view (baseOffset + 0) v /\
      Field.write (Hello.id HelloStruct) view baseOffset v = setUint32 view (baseOffset + 1) v /\
      Field.write (Hello.x HelloStruct) view baseOffset v = setFloat32 view (baseOffset + 5) v /\
      Field.write (Hello.y HelloStruct) view baseOffset v = setFloat32 view (baseOffset + 9) v /\
      Field.write (Hello.hue HelloStruct) view baseOffset v = setUint8 view (baseOffset + 13) v /\
      Field.read (Hello.kind HelloStruct) view baseOffset = getUint8 view (baseOffset + 0) /\
      Field.read (Hello.id HelloStruct) view baseOffset = getUint32 view (baseOffset + 1) /\
      Field.read (Hello.x HelloStruct) view baseOffset = getFloat32 view (baseOffset + 5) /\
      Field.read (Hello.y HelloStruct) view baseOffset = getFloat32 view (baseOffset + 9) /\
      Field.read (Hello.hue HelloStruct) view baseOffset = getUint8 view (baseOffset + 13)) /\
  writeHello (repeat 0 14) 0 (num_of_Z 16909060) (num_of_Z 1)
             (- (num_of_Z 5 / num_of_Z 2))%num (num_of_Z 255)
  = Normal [0; 4; 3; 2; 1; 0; 0; 128; 63; 0; 0; 32; 192; 255].
Proof. repeat split. Qed.

Lemma in_view_true (view : DataView) (i n : Z) :
  0 <= i -> i + n <= Z.of_nat (List.length view) -> in_view view i n = true.
Proof. intros. apply in_view_spec. lia. Qed.

Lemma ToUint32_range (v : number) : 0 <= ToUint32 v < 2 ^ 32.
Proof. unfold ToUint32. apply Z.mod_pos_bound. reflexivity. Qed.

Lemma ToUint32_num_of_Z (n : Z) : 0 <= n < 2 ^ 32 -> ToUint32 (num_of_Z n) = n.
Proof.
  intros Hn. unfold ToUint32.
  rewrite truncate_num_of_Z by (change (2 ^ 53) with 9007199254740992;
                                change (2 ^ 32) with 4294967296 in Hn; lia).
  apply Z.mod_small, Hn.
Qed.

Lemma ToUint8_num_of_Z (n : Z) : 0 <= n < 2 ^ 8 -> ToUint8 (num_of_Z n) = n.
Proof.
  intros Hn. unfold ToUint8.
  rewrite truncate_num_of_Z by (change (2 ^ 53) with 9007199254740992;
                                change (2 ^ 8) with 256 in Hn; lia).
  apply Z.mod_small, Hn.
Qed.

(** What the five writes leave in the view, and what each reader then
    returns, for any five numbers. *)
Lemma writeHello_reads (view : DataView) (baseOffset : Z) (id x y hue : number) :
  in_view view baseOffset (Hello.size HelloStruct) = true ->
  exists view',
    writeHello view baseOffset id x y hue = Normal view' /\
    List.length view' = List.length view /\
    Field.read (Hello.kind HelloStruct) view' baseOffset = Normal (num_of_Z 0) /\
    Field.read (Hello.id HelloStruct) view' baseOffset = Normal (num_of_Z (ToUint32 id)) /\
    Field.read (Hello.x HelloStruct) view' baseOffset = Normal (fround x) /\
    Field.read (Hello.y HelloStruct) view' baseOffset = Normal (fround y) /\
    Field.read (Hello.hue HelloStruct) view' baseOffset = Normal (num_of_Z (ToUint8 hue)).
Proof.
  intros Hview. apply in_view_spec in Hview. change (Hello.size HelloStruct) with 14 in Hview.
  destruct Hview as [Hbase Hlen].
  set (v1 := setByte view (baseOffset + 0) (ToUint8 MessageKind.Hello)).
  set (v2 := setWord v1 (baseOffset + 1) (ToUint32 id)).
  set (v3 := setWord v2 (baseOffset + 5) (bits_of_binary32 (to_binary32 x))).
  set (v4 := setWord v3 (baseOffset + 9) (bits_of_binary32 (to_binary32 y))).
  set (v5 := setByte v4 (baseOffset + 13) (ToUint8 hue)).
  assert (L1 : List.length v1 = List.length view) by apply length_setByte.
  assert (L2 : List.length v2 = List.length view)
    by (unfold v2; rewrite length_setWord; exact L1).
  assert (L3 : List.length v3 = List.length view)
    by (unfold v3; rewrite length_setWord; exact L2).
  assert (L4 : List.length v4 = List.length view)
    by (unfold v4; rewrite length_setWord; exact L3).
  assert (L5 : List.length v5 = List.length view)
    by (unfold v5; rewrite length_setByte; exact L4).
  exists v5. split; [ | split; [exact L5 | ]].
  - unfold writeHello.
    change (Field.write (Hello.kind HelloStruct)) with
      (fun view b value => setUint8 view (b + 0) value).
    change (Field.write (Hello.id HelloStruct)) with
      (fun view b value => setUint32 view (b + 1) value).
    change (Field.write (Hello.x HelloStruct)) with
      (fun view b value => setFloat32 view (b + 5) value).
    change (Field.write (Hello.y HelloStruct)) with
      (fun view b value => setFloat32 view (b + 9) value).
    change (Field.write (Hello.hue HelloStruct)) with
      (fun view b value => setUint8 view (b + 13) value).
    cbv beta. unfold setUint8 at 1.
    rewrite in_view_true by lia. cbn [bind]. fold v1.
    unfold setUint32. rewrite in_view_true by lia. cbn [bind]. fold v2.
    unfold setFloat32 at 1. rewrite in_view_true by lia. cbn [bind]. fold v3.
    unfold setFloat32. rewrite in_view_true by lia. cbn [bind]. fold v4.
    unfold setUint8. rewrite in_view_true by lia. reflexivity.
  - change (Field.read (Hello.kind HelloStruct) v5 baseOffset) with (getUint8 v5 (baseOffset + 0)).
    change (Field.read (Hello.id HelloStruct) v5 baseOffset) with (getUint32 v5 (baseOffset + 1)).
    change (Field.read (Hello.x HelloStruct) v5 baseOffset) with (getFloat32 v5 (baseOffset + 5)).
    change (Field.read (Hello.y HelloStruct) v5 baseOffset) with (getFloat32 v5 (baseOffset + 9)).
    change (Field.read (Hello.hue HelloStruct) v5 baseOffset) with (getUint8 v5 (baseOffset + 13)).
    unfold getUint8, getUint32, getFloat32. rewrite !in_view_true by lia.
    repeat split; f_equal.
    + f_equal. unfold v5. rewrite getByte_setByte_other by lia.
      unfold v4, v3, v2. rewrite !getByte_setWord_other by lia.
      unfold v1. rewrite getByte_setByte_same by lia. reflexivity.
    + f_equal. unfold v5. rewrite getWord_setByte_other by lia.
      unfold v4, v3. rewrite !getWord_setWord_other by lia.
      unfold v2. apply getWord_setWord_same; try lia. apply ToUint32_range.
    + unfold v5. rewrite getWord_setByte_other by lia.
      unfold v4. rewrite getWord_setWord_other by lia.
      unfold v3. apply getWord_binary32; lia.
    + unfold v5. rewrite getWord_setByte_other by lia.
      unfold v4. apply getWord_binary32; lia.
    + f_equal. unfold v5. apply getByte_setByte_same. lia.
Qed.

Lemma SF2Q_num_of_Z_mod (n k : Z) (v : number) :
  0 < k <= 2 ^ 32 -> (SF2Q v == inject_Z n)%Q ->
  (SF2Q (num_of_Z (n mod k)) == SF2Q v)%Q <-> 0 <= n < k.
Proof.
  intros Hk Hv.
  pose proof (Z.mod_pos_bound n k ltac:(lia)) as Hmod.
  rewrite SF2Q_num_of_Z, Hv
    by (change (2 ^ 53) with 9007199254740992; change (2 ^ 32) with 4294967296 in Hk; lia).
  rewrite inject_Z_injective. split.
  - intros H. rewrite <- H. exact Hmod.
  - intros H. apply Z.mod_small, H.
Qed.

(** C10: a number that denotes the integer [n], written through a uint8
    field, is stored as the byte [n mod 256] and read back as that integer,
    which is the value written exactly when [0 <= n <= 255]; through a
    uint32 field it is stored as [n mod 2^32], least significant byte
    first, and read back unchanged exactly when [0 <= n < 2^32].
    [HelloStruct.kind] and [HelloStruct.hue] are such uint8 fields and
    [HelloStruct.id] is such a uint32 field. *)
Theorem uint_field_round_trip :
  forall (allocator : Allocator) (view : DataView) (baseOffset : Z) (v : number) (n : Z),
    is_finite v = true -> (SF2Q v == inject_Z n)%Q ->
    (in_view view (baseOffset + iota allocator) 1 = true ->
     exists view',
       Field.write (fst (allocUint8Field allocator)) view baseOffset v = Normal view' /\
       getByte view' (baseOffset + iota allocator) = n mod 2 ^ 8 /\
       Field.read (fst (allocUint8Field allocator)) view' baseOffset
         = Normal (num_of_Z (n mod 2 ^ 8)) /\
       ((SF2Q (num_of_Z (n mod 2 ^ 8)) == SF2Q v)%Q <-> 0 <= n <= 255) /\
       (v = num_of_Z n -> 0 <= n <= 255 ->
        Field.read (fst (allocUint8Field allocator)) view' baseOffset = Normal v)) /\
    (in_view view (baseOffset + iota allocator) 4 = true ->
     exists view',
       Field.write (fst (allocUint32Field allocator)) view baseOffset v = Normal view' /\
       getWord view' (baseOffset + iota allocator) = n mod 2 ^ 32 /\
       Field.read (fst (allocUint32Field allocator)) view' baseOffset
         = Normal (num_of_Z (n mod 2 ^ 32)) /\
       ((SF2Q (num_of_Z (n mod 2 ^ 32)) == SF2Q v)%Q <-> 0 <= n < 2 ^ 32) /\
       (v = num_of_Z n -> 0 <= n < 2 ^ 32 ->
        Field.read (fst (allocUint32Field allocator)) view' baseOffset = Normal v)) /\
    Hello.kind HelloStruct = fst (allocUint8Field {| iota := 0 |}) /\
    Hello.hue HelloStruct = fst (allocUint8Field {| iota := 13 |}) /\
    Hello.id HelloStruct = fst (allocUint32Field {| iota := 1 |}).
Proof.
  intros allocator view baseOffset v n Hfin Hv.
  pose proof (truncate_integer v n Hfin Hv) as Htr.
  split; [ | split; [ | repeat split]].
  - intros Hview. pose proof Hview as Hview'. apply in_view_spec in Hview'.
    exists (setByte view (baseOffset + iota allocator) (ToUint8 v)).
    cbn [allocUint8Field fst Field.write Field.read].
    unfold setUint8, getUint8. rewrite Hview.
    rewrite in_view_true by (rewrite ?length_setByte; lia).
    rewrite getByte_setByte_same by lia.
    unfold ToUint8. rewrite Htr.
    split; [reflexivity | ]. split; [reflexivity | ]. split; [reflexivity | ]. split.
    + rewrite (SF2Q_num_of_Z_mod n (2 ^ 8) v) by (cbn; try lia; exact Hv).
      change (2 ^ 8) with 256. lia.
    + intros -> Hn. rewrite Z.mod_small by (change (2 ^ 8) with 256; lia). reflexivity.
  - intros Hview. pose proof Hview as Hview'. apply in_view_spec in Hview'.
    exists (setWord view (baseOffset + iota allocator) (ToUint32 v)).
    cbn [allocUint32Field fst Field.write Field.read].
    unfold setUint32, getUint32. rewrite Hview.
    rewrite in_view_true by (rewrite ?length_setWord; lia).
    rewrite getWord_setWord_same by (try lia; apply ToUint32_range).
    unfold ToUint32. rewrite Htr.
    split; [reflexivity | ]. split; [reflexivity | ]. split; [reflexivity | ]. split.
    + apply (SF2Q_num_of_Z_mod n (2 ^ 32) v); [cbn; lia | exact Hv].
    + intros -> Hn. rewrite Z.mod_small by exact Hn. reflexivity.
Qed.

Lemma uint_field_round_trip_witness :
  exists view',
    Field.write (Hello.hue HelloStruct) (repeat 0 14) 0 (num_of_Z 300) = Normal view' /\
    getByte view' 13 = 44 /\
    Field.read (Hello.hue HelloStruct) view' 0 = Normal (num_of_Z 44).
Proof.
  destruct (proj1 (uint_field_round_trip {| iota := 13 |} (repeat 0 14) 0 (num_of_Z 300) 300
               eq_refl eq_refl) eq_refl)
    as (view' & Hw & Hb & Hr & _).
  exists view'. repeat split; assumption.
Defined.
(** * The validators *)

Section ValidatorFacts.
Variable Number_toString : number -> string.

Lemma getField_object (props : list (string * JSValue)) (f : EventField) :
  getField (JSObject props) f = Normal (fieldOf props f).
Proof. unfold getField, fieldOf. destruct (lookup (fieldName f) props); reflexivity. Qed.

Lemma js_and_bool (a : bool) (v : JSValue) (k : JSValue -> bool) :
  js_and (Normal (JSBool a)) (fun _ => x <- Normal v ;; Normal (JSBool (k x)))
  = Normal (JSBool (a && k v)).
Proof. destruct a; reflexivity. Qed.

Lemma js_and_object (props : list (string * JSValue)) (v : JSValue) (k : JSValue -> bool) :
  js_and (Normal (JSObject props)) (fun _ => x <- Normal v ;; Normal (JSBool (k x)))
  = Normal (JSBool (k v)).
Proof. reflexivity. Qed.

(** The last operand of the chain, the direction check, is reached only
    when the checks before it hold. *)
Lemma js_and_direction (a : bool) (v : JSValue) :
  js_and (Normal (JSBool a))
    (fun _ => direction <- Normal v ;;
              accepted <- isDirection Number_toString direction ;; Normal (JSBool accepted))
  = if a then accepted <- isDirection Number_toString v ;; Normal (JSBool accepted)
    else Normal (JSBool false).
Proof. destruct a; reflexivity. Qed.

(** Every validator is settled the same way: a primitive or an array by
    evaluation, an object by folding the chain of [&&] into a conjunction. *)
Ltac validator_by_cases arg :=
  destruct arg as [ | | [ | ] | [ | | | ] | [ | ] | | ? ]; try reflexivity;
  cbv delta [isPlayerJoined isPlayerLeft isAmmaMoving isPlayerMoving]; cbv beta;
  rewrite !getField_object, js_and_object, ?js_and_bool, ?js_and_direction; reflexivity.

(** On an object each validator is the conjunction of its checks; a falsy
    argument is returned as it is; any other argument has none of the
    fields and is answered [false]. *)
Lemma isPlayerJoined_eq (arg : JSValue) :
  isPlayerJoined arg =
  match arg with
  | JSObject props =>
      Normal (JSBool (strictEqualsString (fieldOf props f_kind) "PlayerJoined"
                      && isNumber (fieldOf props f_id) && isNumber (fieldOf props f_x)
                      && isNumber (fieldOf props f_y) && isNumber (fieldOf props f_hue)))
  | _ => if ToBoolean arg then Normal (JSBool false) else Normal arg
  end.
Proof. validator_by_cases arg. Qed.

Lemma isPlayerLeft_eq (arg : JSValue) :
  isPlayerLeft arg =
  match arg with
  | JSObject props =>
      Normal (JSBool (strictEqualsString (fieldOf props f_kind) "PlayerLeft"
                      && isNumber (fieldOf props f_id)))
  | _ => if ToBoolean arg then Normal (JSBool false) else Normal arg
  end.
Proof. validator_by_cases arg. Qed.

(** The direction is converted and looked up only when the checks before
    it hold; what that throws, the validator throws. *)
Lemma isAmmaMoving_eq (arg : JSValue) :
  isAmmaMoving Number_toString arg =
  match arg with
  | JSObject props =>
      if strictEqualsString (fieldOf props f_kind) "AmmaMoving"
         && isBoolean (fieldOf props f_start)
      then accepted <- isDirection Number_toString (fieldOf props f_direction) ;;
           Normal (JSBool accepted)
      else Normal (JSBool false)
  | _ => if ToBoolean arg then Normal (JSBool false) else Normal arg
  end.
Proof. validator_by_cases arg. Qed.

Lemma isPlayerMoving_eq (arg : JSValue) :
  isPlayerMoving Number_toString arg =
  match arg with
  | JSObject props =>
      if strictEqualsString (fieldOf props f_kind) "PlayerMoving"
         && isNumber (fieldOf props f_id) && isNumber (fieldOf props f_x)
         && isNumber (fieldOf props f_y) && isBoolean (fieldOf props f_start)
      then accepted <- isDirection Number_toString (fieldOf props f_direction) ;;
           Normal (JSBool accepted)
      else Normal (JSBool false)
  | _ => if ToBoolean arg then Normal (JSBool false) else Normal arg
  end.
Proof. validator_by_cases arg. Qed.

End ValidatorFacts.

Lemma strictEqualsString_true (v : JSValue) (literal : string) :
  strictEqualsString v literal = true <-> v = JSString literal.
Proof.
  destruct v; cbn [strictEqualsString]; try (split; [discriminate | intros [=]]).
  rewrite String.eqb_eq. split; [intros -> | intros [=]]; congruence.
Qed.

(** ** Conversion to a property key *)

Lemma ToString_array (Number_toString : number -> string) (items : list JSValue) :
  ToString Number_toString (JSArray items) =
  parts <- element_strings (ToString Number_toString) items ;;
  Normal (join "," parts).
Proof.
  cbn [ToString]. f_equal.
  induction items as [ | item rest IH]; [reflexivity | ].
  cbn [element_strings]. rewrite <- IH. destruct item; reflexivity.
Qed.

(** The conversion throws exactly on the unconvertible values, and a
    [TypeError]. *)
Lemma ToString_unconvertible (Number_toString : number -> string) (v : JSValue) :
  if unconvertible v then ToString Number_toString v = Throw TypeError
  else exists key, ToString Number_toString v = Normal key.
Proof.
  induction v as [ | | b | n | s | items IH | props ] using JSValue_elements_ind;
    try (cbn; eauto; fail).
  - destruct b; cbn; eauto.
  - rewrite ToString_array. cbn [unconvertible].
    assert (H : if existsb unconvertible items
                then element_strings (ToString Number_toString) items = Throw TypeError
                else exists parts,
                       element_strings (ToString Number_toString) items = Normal parts).
    { induction IH as [ | item rest Hitem _ IHrest]; [cbn; eauto | ].
      cbn [existsb element_strings].
      destruct (unconvertible item) eqn:Hu.
      - cbn [orb]. destruct item; try discriminate Hu; cbn [element_string]; rewrite Hitem;
          reflexivity.
      - cbn [orb].
        assert (Hpart : exists part,
                   element_string (ToString Number_toString) item = Normal part).
        { destruct item; cbn [element_string]; eauto. }
        destruct Hpart as [part ->]. cbn [bind].
        destruct (existsb unconvertible rest).
        + rewrite IHrest. reflexivity.
        + destruct IHrest as [parts ->]. cbn [bind]. eauto. }
    destruct (existsb unconvertible items).
    + rewrite H. reflexivity.
    + destruct H as [parts ->]. cbn [bind]. eauto.
  - cbn. destruct (lookup "toString" props); eauto.
Qed.

Lemma ToString_throws (Number_toString : number -> string) (v : JSValue) (e : JSError) :
  ToString Number_toString v = Throw e <-> e = TypeError /\ unconvertible v = true.
Proof.
  pose proof (ToString_unconvertible Number_toString v) as H.
  destruct (unconvertible v).
  - rewrite H. split; [intros [= <-]; auto | intros [-> _]; reflexivity].
  - destruct H as [key ->]. split; [discriminate | intros [_ [=]]].
Qed.

(** The keys the lookup finds are the names of [direction_names]. *)
Lemma accepted_key (key : string) :
  match lookup key DIRECTION_VECTORS with
  | Some _ => true
  | None => string_in key Object_prototype_keys
  end = true <-> In key direction_names.
Proof.
  unfold direction_names. rewrite in_app_iff.
  assert (Hown : (exists v, lookup key DIRECTION_VECTORS = Some v) <->
                 In key ["left"; "right"; "up"; "down"]%string).
  { unfold DIRECTION_VECTORS. cbn [lookup In].
    destruct (String.eqb_spec "left" key) as [<- | H1]; [split; eauto | ].
    destruct (String.eqb_spec "right" key) as [<- | H2]; [split; eauto | ].
    destruct (String.eqb_spec "up" key) as [<- | H3]; [split; eauto | ].
    destruct (String.eqb_spec "down" key) as [<- | H4]; [split; eauto 6 | ].
    split; [intros [v [=]] | intros [ | [ | [ | [ | [] ]]]]; congruence]. }
  assert (Hproto : string_in key Object_prototype_keys = true <-> In key Object_prototype_keys).
  { unfold string_in. rewrite existsb_exists. split.
    - intros (k & Hin & Heq). apply String.eqb_eq in Heq. subst k. exact Hin.
    - intros Hin. exists key. split; [exact Hin | apply String.eqb_refl]. }
  destruct (lookup key DIRECTION_VECTORS) as [v | ] eqn:Hl.
  - split; [intros _; left; apply Hown; eauto | reflexivity].
  - rewrite Hproto. split; [auto | ].
    intros [Hin | Hin]; [ | exact Hin]. apply Hown in Hin. destruct Hin as [v [=]].
Qed.

Lemma isDirection_true (Number_toString : number -> string) (v : JSValue) :
  isDirection Number_toString v = Normal true <->
  exists key, ToString Number_toString v = Normal key /\ In key direction_names.
Proof.
  unfold isDirection. destruct (ToString Number_toString v) as [key | e]; cbn [bind].
  - split.
    + intros [= H]. exists key. split; [reflexivity | apply accepted_key; exact H].
    + intros (key' & [= <-] & H). apply accepted_key in H. rewrite H. reflexivity.
  - split; [discriminate | intros (key & [=] & _)].
Qed.

Lemma isDirection_throws (Number_toString : number -> string) (v : JSValue) (e : JSError) :
  isDirection Number_toString v = Throw e <-> e = TypeError /\ unconvertible v = true.
Proof.
  rewrite <- ToString_throws with (Number_toString := Number_toString).
  unfold isDirection. destruct (ToString Number_toString v); cbn [bind];
    split; congruence.
Qed.

(** What the last operand of a validator answers. *)
Lemma direction_operand_true (c : Completion bool) :
  (accepted <- c ;; Normal (JSBool accepted)) = Normal (JSBool true) <-> c = Normal true.
Proof. destruct c as [[ | ] | e]; cbn; split; congruence. Qed.

Lemma direction_operand_throws (c : Completion bool) (e : JSError) :
  (accepted <- c ;; Normal (JSBool accepted)) = Throw e <-> c = Throw e.
Proof. destruct c as [[ | ] | e']; cbn; split; congruence. Qed.

Lemma direction_operand_cases (c : Completion bool) :
  (exists e, (accepted <- c ;; Normal (JSBool accepted)) = Throw e) \/
  (accepted <- c ;; Normal (JSBool accepted)) = Normal (JSBool true) \/
  exists v, (accepted <- c ;; Normal (JSBool accepted)) = Normal v /\ ToBoolean v = false.
Proof. destruct c as [[ | ] | e]; cbn; eauto. Qed.

(** No name of [direction_names] has a comma, and the conversion of an
    array of two elements or more has one. *)
Lemma direction_names_no_comma (key : string) :
  In key direction_names -> has_comma key = false.
Proof.
  intros H.
  assert (Hall : forallb (fun name => negb (has_comma name)) direction_names = true)
    by reflexivity.
  rewrite forallb_forall in Hall. apply Hall in H. destruct (has_comma key); [discriminate | reflexivity].
Qed.

Lemma has_comma_app (a b : string) :
  has_comma (a ++ b) = has_comma a || has_comma b.
Proof.
  induction a as [ | c a IH]; [reflexivity | ].
  cbn [append has_comma]. rewrite IH, orb_assoc. reflexivity.
Qed.

Lemma join_has_comma (p q : string) (rest : list string) :
  has_comma (join "," (p :: q :: rest)) = true.
Proof.
  change (join "," (p :: q :: rest)) with (p ++ "," ++ join "," (q :: rest))%string.
  rewrite !has_comma_app. cbn [has_comma]. rewrite Ascii.eqb_refl.
  destruct (has_comma p); reflexivity.
Qed.

Lemma direction_names_in (key : string) :
  In key direction_names -> string_in key direction_names = true.
Proof.
  intros H. unfold string_in. rewrite existsb_exists.
  exists key. split; [exact H | apply String.eqb_refl].
Qed.

(** A one-element array is converted as its element is. *)
Lemma ToString_singleton (Number_toString : number -> string) (item : JSValue) :
  ToString Number_toString (JSArray [item]) =
  element_string (ToString Number_toString) item.
Proof.
  rewrite ToString_array. cbn [element_strings].
  destruct (element_string (ToString Number_toString) item); reflexivity.
Qed.

Lemma ToString_many (Number_toString : number -> string)
    (a b : JSValue) (rest : list JSValue) (key : string) :
  ToString Number_toString (JSArray (a :: b :: rest)) = Normal key ->
  has_comma key = true.
Proof.
  rewrite ToString_array. cbn [element_strings].
  destruct (element_string (ToString Number_toString) a) as [p | ]; [ | discriminate].
  destruct (element_string (ToString Number_toString) b) as [q | ]; [ | discriminate].
  destruct (element_strings (ToString Number_toString) rest) as [parts | ]; [ | discriminate].
  cbn [bind]. intros [= <-]. apply join_has_comma.
Qed.

(** A value is converted to a name of [direction_names] only when it is a
    string or a number inside one-element arrays. *)
Lemma ToString_accepted (Number_toString : number -> string) (v : JSValue) (key : string) :
  ToString Number_toString v = Normal key -> In key direction_names ->
  (exists s, unwrap v = JSString s /\ In s direction_names) \/
  (exists n, unwrap v = JSNumber n /\ In (Number_toString n) direction_names).
Proof.
  revert key.
  induction v as [ | | b | n | s | items IH | props ] using JSValue_elements_ind;
    intros key Hkey Hin.
  - injection Hkey as <-. apply direction_names_in in Hin. discriminate Hin.
  - injection Hkey as <-. apply direction_names_in in Hin. discriminate Hin.
  - destruct b; injection Hkey as <-; apply direction_names_in in Hin; discriminate Hin.
  - injection Hkey as <-. right. exists n. split; [reflexivity | exact Hin].
  - injection Hkey as <-. left. exists s. split; [reflexivity | exact Hin].
  - destruct items as [ | item [ | item' rest]].
    + injection Hkey as <-. apply direction_names_in in Hin. discriminate Hin.
    + rewrite ToString_singleton in Hkey. inversion IH as [ | ? ? Hitem _]; subst.
      cbn [unwrap].
      destruct item; cbn [element_string] in Hkey;
        try (eapply Hitem; eassumption);
        injection Hkey as <-; apply direction_names_in in Hin; discriminate Hin.
    + apply ToString_many in Hkey. apply direction_names_no_comma in Hin. congruence.
  - cbn [ToString] in Hkey. destruct (lookup "toString" props); [discriminate | ].
    injection Hkey as <-. apply direction_names_in in Hin. discriminate Hin.
Qed.

(** A string or a number inside one-element arrays is converted as it is
    alone. *)
Lemma ToString_unwrap (Number_toString : number -> string) (v : JSValue) :
  (exists s, unwrap v = JSString s) \/ (exists n, unwrap v = JSNumber n) ->
  ToString Number_toString v = ToString Number_toString (unwrap v).
Proof.
  induction v as [ | | b | n | s | items IH | props ] using JSValue_elements_ind;
    try reflexivity.
  destruct items as [ | item [ | item' rest]]; try reflexivity.
  inversion IH as [ | ? ? Hitem _]; subst. cbn [unwrap]. intros H.
  rewrite ToString_singleton, <- (Hitem H).
  destruct item; try reflexivity; destruct H as [[s [=]] | [n [=]]].
Qed.

(** C2, where the code departs from it: [isDirection] looks the value up
    along the prototype chain of [DIRECTION_VECTORS] and converts it to a
    property key first, so ["toString"], which is no key of the table, and
    the array [["left"]], which is no string, pass as directions; a
    direction that is an object with an own property [toString] makes the
    validator throw a [TypeError]; and a falsy argument is returned as it
    is, [null] for [null], rather than [false]. *)
Theorem validators_accept_foreign_direction :
  forall Number_toString : number -> string,
    lookup "toString" DIRECTION_VECTORS = None /\
    isDirection Number_toString (JSString "toString") = Normal true /\
    isAmmaMoving Number_toString amma_toString = Normal (JSBool true) /\
    isString (JSArray [JSString "left"]) = false /\
    isDirection Number_toString (JSArray [JSString "left"]) = Normal true /\
    isPlayerMoving Number_toString moving_array_direction = Normal (JSBool true) /\
    isPlayerJoined JSNull = Normal JSNull /\
    isPlayerLeft JSUndefined = Normal JSUndefined /\
    isAmmaMoving Number_toString amma_object_direction = Throw TypeError.
Proof. intros Number_toString. repeat split. Qed.

(** A validator whose checks before the direction are [checks]. *)
Lemma guarded_direction (Number_toString : number -> string)
    (checks : bool) (direction : JSValue) :
  let c := if checks
           then accepted <- isDirection Number_toString direction ;; Normal (JSBool accepted)
           else Normal (JSBool false) in
  (forall e, c = Throw e <->
     e = TypeError /\ checks = true /\ unconvertible direction = true) /\
  ((exists e, c = Throw e) \/ c = Normal (JSBool true) \/
   exists v, c = Normal v /\ ToBoolean v = false).
Proof.
  destruct checks; cbv zeta; split.
  - intros e. rewrite direction_operand_throws, isDirection_throws. tauto.
  - apply direction_operand_cases.
  - intros e. split; [discriminate | intros (_ & [=] & _)].
  - right. right. eauto.
Qed.

Lemma guarded_direction_true (Number_toString : number -> string)
    (checks : bool) (direction : JSValue) :
  (if checks
   then accepted <- isDirection Number_toString direction ;; Normal (JSBool accepted)
   else Normal (JSBool false)) = Normal (JSBool true) <->
  checks = true /\ isDirection Number_toString direction = Normal true.
Proof.
  destruct checks; [rewrite direction_operand_true; tauto | ].
  split; [discriminate | intros [[=] _]].
Qed.

(** A value that is no object is answered without a throw. *)
Lemma unguarded (arg : JSValue) (check : list (string * JSValue) -> Prop) :
  (forall props, arg <> JSObject props) ->
  let c := if ToBoolean arg then Normal (JSBool false) else Normal arg in
  (forall e, c = Throw e <->
     e = TypeError /\ exists props, arg = JSObject props /\ check props) /\
  ((exists e, c = Throw e) \/ c = Normal (JSBool true) \/
   exists v, c = Normal v /\ ToBoolean v = false).
Proof.
  intros Hno. cbv zeta. split.
  - intros e. split.
    + destruct (ToBoolean arg); discriminate.
    + intros (_ & props & Hprops & _). destruct (Hno props Hprops).
  - right. right. destruct (ToBoolean arg) eqn:Hb; eauto.
Qed.

(** X1: what a validator can throw.  [isPlayerJoined] and [isPlayerLeft]
    never throw.  [isAmmaMoving] and [isPlayerMoving] throw nothing but a
    [TypeError], and exactly when the value is an object that passes every
    check before the direction and whose direction cannot be converted to
    a property key: an object with an own property [toString], or an array
    with such an object among its elements.  A validator that does not
    throw returns [true] or a falsy value. *)
Theorem validators_throw_only_on_direction :
  forall (Number_toString : number -> string) (arg : JSValue),
    (isPlayerJoined arg = Normal (JSBool true) \/
     exists v, isPlayerJoined arg = Normal v /\ ToBoolean v = false) /\
    (isPlayerLeft arg = Normal (JSBool true) \/
     exists v, isPlayerLeft arg = Normal v /\ ToBoolean v = false) /\
    (forall e, isAmmaMoving Number_toString arg = Throw e <->
       e = TypeError /\
       exists props, arg = JSObject props /\
         fieldOf props f_kind = JSString "AmmaMoving" /\
         isBoolean (fieldOf props f_start) = true /\
         unconvertible (fieldOf props f_direction) = true) /\
    ((exists e, isAmmaMoving Number_toString arg = Throw e) \/
     isAmmaMoving Number_toString arg = Normal (JSBool true) \/
     exists v, isAmmaMoving Number_toString arg = Normal v /\ ToBoolean v = false) /\
    (forall e, isPlayerMoving Number_toString arg = Throw e <->
       e = TypeError /\
       exists props, arg = JSObject props /\
         fieldOf props f_kind = JSString "PlayerMoving" /\
         isNumber (fieldOf props f_id) = true /\ isNumber (fieldOf props f_x) = true /\
         isNumber (fieldOf props f_y) = true /\ isBoolean (fieldOf props f_start) = true /\
         unconvertible (fieldOf props f_direction) = true) /\
    ((exists e, isPlayerMoving Number_toString arg = Throw e) \/
     isPlayerMoving Number_toString arg = Normal (JSBool true) \/
     exists v, isPlayerMoving Number_toString arg = Normal v /\ ToBoolean v = false).
Proof.
  intros Number_toString arg.
  rewrite isPlayerJoined_eq, isPlayerLeft_eq, isAmmaMoving_eq, isPlayerMoving_eq.
  split; [ | split].
  1, 2: destruct arg as [ | | [ | ] | [ | | | ] | [ | ] | | props ]; cbn [ToBoolean];
    try (right; eexists; split; reflexivity);
    match goal with
    | |- Normal (JSBool ?b) = _ \/ _ => destruct b; [left; reflexivity | right; eauto]
    end.
  rewrite <- !and_assoc. rewrite and_assoc. split.
  all: destruct arg as [ | | b | n | s | items | props ];
    try (apply unguarded; discriminate).
  all: match goal with
       | |- context [if ?checks then bind (isDirection _ ?direction) _ else _] =>
           pose proof (guarded_direction Number_toString checks direction) as [Ht Hc]
       end.
  all: split; [ | exact Hc].
  all: intros e; rewrite Ht, !andb_true_iff, !strictEqualsString_true; split.
  1, 3: intros (-> & Hchecks & Hu); split; [reflexivity | exists props; tauto].
  all: intros (-> & props' & [= <-] & Hchecks); tauto.
Qed.

(** X2: a validator answers [true] only for an object whose [kind] is the
    expected literal and whose number and boolean fields have those types;
    the direction is held to [isDirection] only. *)
Theorem validators_sound :
  forall (Number_toString : number -> string) (arg : JSValue),
    (isPlayerJoined arg = Normal (JSBool true) <->
     exists props, arg = JSObject props /\
       fieldOf props f_kind = JSString "PlayerJoined" /\
       isNumber (fieldOf props f_id) = true /\ isNumber (fieldOf props f_x) = true /\
       isNumber (fieldOf props f_y) = true /\ isNumber (fieldOf props f_hue) = true) /\
    (isPlayerLeft arg = Normal (JSBool true) <->
     exists props, arg = JSObject props /\
       fieldOf props f_kind = JSString "PlayerLeft" /\
       isNumber (fieldOf props f_id) = true) /\
    (isAmmaMoving Number_toString arg = Normal (JSBool true) <->
     exists props, arg = JSObject props /\
       fieldOf props f_kind = JSString "AmmaMoving" /\
       isBoolean (fieldOf props f_start) = true /\
       isDirection Number_toString (fieldOf props f_direction) = Normal true) /\
    (isPlayerMoving Number_toString arg = Normal (JSBool true) <->
     exists props, arg = JSObject props /\
       fieldOf props f_kind = JSString "PlayerMoving" /\
       isNumber (fieldOf props f_id) = true /\ isNumber (fieldOf props f_x) = true /\
       isNumber (fieldOf props f_y) = true /\ isBoolean (fieldOf props f_start) = true /\
       isDirection Number_toString (fieldOf props f_direction) = Normal true).
Proof.
  intros Number_toString arg.
  rewrite isPlayerJoined_eq, isPlayerLeft_eq, isAmmaMoving_eq, isPlayerMoving_eq.
  destruct arg as [ | | [ | ] | [ | | | ] | [ | ] | | props ]; cbn [ToBoolean];
    try (repeat split; try discriminate; intros (props & [=] & _)).
  split; [ | split; [ | split]].
  1, 2: split;
    [ intros [= H]; rewrite !andb_true_iff, strictEqualsString_true in H;
      exists props; tauto
    | intros (props' & [= <-] & H); do 2 f_equal;
      rewrite !andb_true_iff, strictEqualsString_true; tauto ].
  all: rewrite guarded_direction_true, !andb_true_iff, strictEqualsString_true; split;
    [ intros H; exists props; tauto | intros (props' & [= <-] & H); tauto ].
Qed.

(** X3: the values [isDirection] accepts, by their shape: a string that is
    one of the four keys of the table or a name inherited from
    [Object.prototype], a number that is rendered as such a name, or one of
    those inside one-element arrays; and it throws, a [TypeError], exactly
    on the unconvertible values.  Booleans, [null], [undefined], objects
    and arrays of no or several elements are never accepted. *)
Theorem isDirection_by_shape :
  forall (Number_toString : number -> string) (arg : JSValue),
    (isDirection Number_toString arg = Normal true <->
     (exists s, unwrap arg = JSString s /\ In s direction_names) \/
     (exists n, unwrap arg = JSNumber n /\ In (Number_toString n) direction_names)) /\
    (forall e, isDirection Number_toString arg = Throw e <->
       e = TypeError /\ unconvertible arg = true) /\
    (forall b, isDirection Number_toString (JSBool b) = Normal false) /\
    isDirection Number_toString JSNull = Normal false /\
    isDirection Number_toString JSUndefined = Normal false /\
    (forall props, isDirection Number_toString (JSObject props) <> Normal true) /\
    isDirection Number_toString (JSArray []) = Normal false /\
    (forall a b rest, isDirection Number_toString (JSArray (a :: b :: rest)) <> Normal true).
Proof.
  intros Number_toString arg.
  split; [ | split; [ | split; [ | split; [ | split; [ | split; [ | split]]]]]].
  - rewrite isDirection_true. split.
    + intros (key & Hkey & Hin). eapply ToString_accepted; eassumption.
    + intros [(s & Hs & Hin) | (n & Hn & Hin)].
      * exists s. rewrite ToString_unwrap, Hs by eauto. auto.
      * exists (Number_toString n). rewrite ToString_unwrap, Hn by eauto. auto.
  - intros e. apply isDirection_throws.
  - intros [ | ]; reflexivity.
  - reflexivity.
  - reflexivity.
  - intros props. unfold isDirection. cbn [ToString].
    destruct (lookup "toString" props); [discriminate | ]. cbn. discriminate.
  - reflexivity.
  - intros a b rest. rewrite isDirection_true. intros (key & Hkey & Hin).
    apply ToString_many in Hkey. apply direction_names_no_comma in Hin. congruence.
Qed.

(** * The message codec *)

(** C8: [sendMessage] encodes the message, calls the socket's [send] once,
    with the encoded text, after whatever was sent before, and returns the
    length of that text (a JavaScript string is shorter than [2 ^ 53], so
    the length is a number exactly). *)
Theorem sendMessage_sends_once :
  forall (Message : Type) (JSON_stringify : Message -> string)
         (socket : Socket) (message : Message),
    (Z.of_nat (String.length (JSON_stringify message)) < 2 ^ 53)%Z ->
    sent (fst (sendMessage Message JSON_stringify socket message))
      = sent socket ++ [JSON_stringify message] /\
    List.length (sent (fst (sendMessage Message JSON_stringify socket message)))
      = S (List.length (sent socket)) /\
    is_finite (snd (sendMessage Message JSON_stringify socket message)) = true /\
    (SF2Q (snd (sendMessage Message JSON_stringify socket message))
       == inject_Z (Z.of_nat (String.length (JSON_stringify message))))%Q /\
    truncate (snd (sendMessage Message JSON_stringify socket message))
      = Z.of_nat (String.length (JSON_stringify message)).
Proof.
  intros Message JSON_stringify socket message Hlen.
  unfold sendMessage, send. cbn [fst snd sent].
  split; [reflexivity | ]. split.
  - rewrite length_app. cbn [List.length]. lia.
  - split; [ | split].
    + apply is_finite_num_of_Z. lia.
    + apply SF2Q_num_of_Z. lia.
    + apply truncate_num_of_Z. lia.
Qed.

Lemma sendMessage_sends_once_witness :
  sent (fst (sendMessage unit (fun _ => "PlayerLeft"%string) (mkSocket ["hello"%string]) tt))
    = ["hello"; "PlayerLeft"]%string /\
  truncate (snd (sendMessage unit (fun _ => "PlayerLeft"%string) (mkSocket ["hello"%string]) tt))
    = 10%Z.
Proof.
  destruct (sendMessage_sends_once unit (fun _ => "PlayerLeft"%string)
              (mkSocket ["hello"%string]) tt eq_refl) as (Hs & _ & _ & _ & Ht).
  split; [exact Hs | exact Ht].
Defined.

(** * Exact arithmetic *)

Local Open Scope Z_scope.

(** ** Roundings that lose nothing *)

Lemma shr_1_double (w : Z) :
  0 <= w -> shr_1 (Build_shr_record (2 * w) false false) = Build_shr_record w false false.
Proof.
  intros Hw. destruct w as [ | q | q ]; [reflexivity | | lia].
  replace (2 * Zpos q) with (Zpos q~0) by lia. reflexivity.
Qed.

Lemma shr_iter_exact (p : positive) :
  forall w : Z, 0 <= w ->
  iter_pos shr_1 p (Build_shr_record (w * 2 ^ Zpos p) false false)
  = Build_shr_record w false false.
Proof.
  induction p as [ p IH | p IH | ]; intros w Hw; cbn [iter_pos].
  - replace (w * 2 ^ Zpos p~1) with (2 * (w * 2 ^ Zpos p * 2 ^ Zpos p)).
    + rewrite shr_1_double by nia. rewrite IH by nia. apply IH, Hw.
    + replace (Zpos p~1) with (1 + Zpos p + Zpos p) by lia.
      rewrite !Z.pow_add_r by lia. lia.
  - replace (w * 2 ^ Zpos p~0) with (w * 2 ^ Zpos p * 2 ^ Zpos p).
    + rewrite IH by nia. apply IH, Hw.
    + replace (Zpos p~0) with (Zpos p + Zpos p) by lia.
      rewrite Z.pow_add_r by lia. lia.
  - replace (w * 2 ^ 1) with (2 * w) by lia. apply shr_1_double, Hw.
Qed.

(** A mantissa with trailing zeros, below its canonical exponent, is shifted
    to it without loss. *)
Lemma binary_round_aux_shift (pr em : Z) (s : bool) (m m0 : positive) (e e0 : Z) :
  0 < pr -> pr < em ->
  bounded pr em m0 e0 = true -> e <= e0 -> Zpos m = Zpos m0 * 2 ^ (e0 - e) ->
  binary_round_aux pr em s (Zpos m) e loc_Exact = S754_finite s m0 e0.
Proof.
  intros Hpr Hem Hb He Hm.
  unfold bounded in Hb. apply andb_true_iff in Hb as [Hc Hb].
  unfold canonical_mantissa in Hc. apply Z.eqb_eq in Hc. apply Z.leb_le in Hb.
  assert (HD : Zpos (digits2_pos m) + e = Zpos (digits2_pos m0) + e0).
  { rewrite (digits2_mul_pow2 m0 m (e0 - e)); lia. }
  destruct (Z.eq_dec e e0) as [-> | Hne].
  - replace (e0 - e0) with 0 in Hm by lia. rewrite Z.pow_0_r, Z.mul_1_r in Hm.
    injection Hm as ->. apply binary_round_aux_exact; lia.
  - unfold binary_round_aux.
    assert (H1 : shr_fexp pr em (Zpos m) e loc_Exact
                 = (Build_shr_record (Zpos m0) false false, e0)).
    { unfold shr_fexp, shr. cbn [Zdigits2]. rewrite HD, Hc.
      destruct (e0 - e) as [ | n | n ] eqn:Hn; try lia.
      cbn [shr_record_of_loc]. rewrite Hm, shr_iter_exact by lia.
      f_equal. lia. }
    rewrite H1. cbn [shr_m loc_of_shr_record round_nearest_even].
    assert (H2 : shr_fexp pr em (Zpos m0) e0 loc_Exact
                 = (Build_shr_record (Zpos m0) false false, e0)).
    { unfold shr_fexp, shr. cbn [Zdigits2]. rewrite Hc, Z.sub_diag. reflexivity. }
    rewrite H2. cbn [shr_m]. apply Z.leb_le in Hb. rewrite Hb. reflexivity.
Qed.


Lemma Qpow2_scaled_eq (a b : Z) (e e0 : Z) :
  e <= e0 ->
  (inject_Z a * (2 # 1) ^ e == inject_Z b * (2 # 1) ^ e0)%Q -> a = b * 2 ^ (e0 - e).
Proof.
  intros He H.
  rewrite <- (Qpow2_shift b (e0 - e) e0) in H by lia.
  replace (e0 - (e0 - e)) with e in H by lia.
  apply (proj1 (Qmult_inj_r _ _ _ (Qnot_eq_sym _ _ (Qlt_not_eq _ _ (Qpow2_pos e))))) in H.
  apply (proj1 (inject_Z_injective _ _)) in H. exact H.
Qed.

(** Rounding a representable value returns its canonical representation. *)
Lemma binary_round_representable (pr em : Z) (s : bool) (m m0 : positive) (e e0 : Z) :
  0 < pr -> pr < em ->
  bounded pr em m0 e0 = true ->
  (inject_Z (Zpos m) * (2 # 1) ^ e == inject_Z (Zpos m0) * (2 # 1) ^ e0)%Q ->
  binary_round pr em s m e = S754_finite s m0 e0.
Proof.
  intros Hpr Hem Hb Hv.
  pose proof (magnitude_unique _ _ _ _ Hv) as HD.
  pose proof Hb as Hb'. unfold bounded in Hb'. apply andb_true_iff in Hb' as [Hc _].
  unfold canonical_mantissa in Hc. apply Z.eqb_eq in Hc.
  unfold binary_round. rewrite HD, Hc.
  destruct (shl_align_spec m e e0) as [Hez Hmz].
  destruct (shl_align m e e0) as [mz ez]. cbn [fst snd] in Hez, Hmz.
  apply binary_round_aux_shift; try assumption; [lia | ].
  destruct (Z.le_ge_cases e e0) as [Hle | Hge].
  - replace (Z.min e e0) with e in * by lia. subst ez.
    replace (e - e) with 0 in Hmz by lia. rewrite Z.pow_0_r, Z.mul_1_r in Hmz.
    rewrite Hmz. apply Qpow2_scaled_eq; assumption.
  - replace (Z.min e e0) with e0 in * by lia. subst ez.
    replace (e0 - e0) with 0 by lia. rewrite Z.pow_0_r, Z.mul_1_r, Hmz.
    symmetry. apply Qpow2_scaled_eq; [exact Hge | symmetry; exact Hv].
Qed.

Local Open Scope Q_scope.

(** ** Exact operations *)

Lemma SF2Q_signed (s : bool) (m : positive) (e : Z) :
  SF2Q (S754_finite s m e)
  == (if s then - (1) else 1) * (inject_Z (Zpos m) * (2 # 1) ^ e).
Proof.
  cbn [SF2Q]. destruct s; cbn [cond_Zopp].
  - change (Z.opp (Zpos m)) with (- Zpos m)%Z. rewrite inject_Z_opp. ring.
  - ring.
Qed.

Lemma magnitude_pos (m : positive) (e : Z) : 0 < inject_Z (Zpos m) * (2 # 1) ^ e.
Proof.
  apply Qmult_lt_0_compat; [ | apply Qpow2_pos].
  change 0 with (inject_Z 0). rewrite <- Zlt_Qlt. reflexivity.
Qed.

(** Two finite numbers of the same value have the same sign. *)
Lemma SF2Q_same_sign (s1 s2 : bool) (m1 m2 : positive) (e1 e2 : Z) :
  SF2Q (S754_finite s1 m1 e1) == SF2Q (S754_finite s2 m2 e2) -> s1 = s2.
Proof.
  rewrite !SF2Q_signed. intros H.
  pose proof (magnitude_pos m1 e1). pose proof (magnitude_pos m2 e2).
  destruct s1, s2; try reflexivity; exfalso; lra.
Qed.

(** A canonical finite number is determined by its value. *)
Lemma number_unique (s1 s2 : bool) (m1 m2 : positive) (e1 e2 : Z) :
  bounded prec emax m1 e1 = true -> bounded prec emax m2 e2 = true ->
  SF2Q (S754_finite s1 m1 e1) == SF2Q (S754_finite s2 m2 e2) ->
  S754_finite s1 m1 e1 = S754_finite s2 m2 e2.
Proof.
  intros H1 H2 Hv. pose proof (SF2Q_same_sign _ _ _ _ _ _ Hv) as ->.
  apply canonical_unique; assumption.
Qed.

Lemma binary_normalize_value_sign (z : Z) (e : Z) (s0 : bool) (m0 : positive) (e0 : Z) :
  inject_Z z * (2 # 1) ^ e == SF2Q (S754_finite s0 m0 e0) ->
  z = cond_Zopp s0 (Zpos (Z.to_pos (Z.abs z))) /\
  inject_Z (Zpos (Z.to_pos (Z.abs z))) * (2 # 1) ^ e == inject_Z (Zpos m0) * (2 # 1) ^ e0.
Proof.
  intros H. rewrite SF2Q_signed in H.
  pose proof (magnitude_pos m0 e0) as Hpos. pose proof (Qpow2_pos e) as Hpe.
  destruct z as [ | p | p ].
  - exfalso. rewrite Qmult_0_l in H. destruct s0; lra.
  - cbn [Z.abs Z.to_pos]. destruct s0.
    + exfalso. pose proof (magnitude_pos p e). lra.
    + split; [reflexivity | ]. rewrite H. ring.
  - cbn [Z.abs Z.to_pos]. destruct s0.
    + split; [reflexivity | ].
      change (Zneg p) with (- Zpos p)%Z in H. rewrite inject_Z_opp in H. lra.
    + exfalso. pose proof (magnitude_pos p e).
      change (Zneg p) with (- Zpos p)%Z in H. rewrite inject_Z_opp in H. lra.
Qed.

(** Normalising an integer multiple of a power of two whose value is
    representable yields the number of that value. *)
Lemma binary_normalize_representable (z e : Z) (sz s0 : bool) (m0 : positive) (e0 : Z) :
  bounded prec emax m0 e0 = true ->
  inject_Z z * (2 # 1) ^ e == SF2Q (S754_finite s0 m0 e0) ->
  binary_normalize prec emax z e sz = S754_finite s0 m0 e0.
Proof.
  intros Hb Hv. destruct (binary_normalize_value_sign z e s0 m0 e0 Hv) as [Hz Hm].
  destruct z as [ | p | p ]; cbn [Z.abs Z.to_pos] in *.
  - destruct s0; discriminate.
  - destruct s0; [discriminate | ]. cbn [binary_normalize].
    apply binary_round_representable; try reflexivity; assumption.
  - destruct s0; [ | discriminate]. cbn [binary_normalize].
    apply binary_round_representable; try reflexivity; assumption.
Qed.

Lemma SF64add_aligned_value (sx sy : bool) (mx my : positive) (ex ey : Z) :
  let ez := Z.min ex ey in
  inject_Z (cond_Zopp sx (Zpos (fst (shl_align mx ex ez))) +
            cond_Zopp sy (Zpos (fst (shl_align my ey ez)))) * (2 # 1) ^ ez
  == SF2Q (S754_finite sx mx ex) + SF2Q (S754_finite sy my ey).
Proof.
  intros ez. rewrite inject_Z_plus, Qmult_plus_distr_l.
  rewrite <- (SF2Q_aligned sx mx ex ez), <- (SF2Q_aligned sy my ey ez) by (subst ez; lia).
  reflexivity.
Qed.

(** A sum whose value is representable is computed exactly. *)
Lemma SF64add_representable (sx sy s0 : bool) (mx my m0 : positive) (ex ey e0 : Z) :
  bounded prec emax m0 e0 = true ->
  SF2Q (S754_finite s0 m0 e0) == SF2Q (S754_finite sx mx ex) + SF2Q (S754_finite sy my ey) ->
  SF64add (S754_finite sx mx ex) (S754_finite sy my ey) = S754_finite s0 m0 e0.
Proof.
  intros Hb Hv. unfold SF64add. cbn [SFadd].
  apply binary_normalize_representable; [exact Hb | ].
  rewrite SF64add_aligned_value. symmetry. exact Hv.
Qed.

(** Two finite numbers that cancel add up to [+0]. *)
Lemma SF64add_cancel (sx sy : bool) (mx my : positive) (ex ey : Z) :
  SF2Q (S754_finite sx mx ex) + SF2Q (S754_finite sy my ey) == 0 ->
  SF64add (S754_finite sx mx ex) (S754_finite sy my ey) = S754_zero false.
Proof.
  intros Hv. unfold SF64add. cbn [SFadd].
  rewrite <- SF64add_aligned_value in Hv. cbv zeta in Hv.
  scale_zero_in (Z.min ex ey) Hv.
  apply (proj1 (Qmult_inj_r _ _ _ (Qnot_eq_sym _ _ (Qlt_not_eq _ _ (Qpow2_pos _))))) in Hv.
  apply (proj1 (inject_Z_injective _ _)) in Hv. rewrite Hv. reflexivity.
Qed.

(** The exponent of a product of canonical mantissas is at or below its
    canonical exponent. *)
Lemma product_exponent (mx my : positive) (ex ey : Z) :
  bounded prec emax mx ex = true -> bounded prec emax my ey = true ->
  (ex + ey <= fexp prec emax (Zpos (digits2_pos (mx * my)) + (ex + ey)))%Z.
Proof.
  intros Hx Hy. apply bounded_spec in Hx, Hy. destruct Hx as [Hx _], Hy as [Hy _].
  assert (Hd : (Zpos (digits2_pos mx) + Zpos (digits2_pos my) - 1
                <= Zpos (digits2_pos (mx * my)))%Z).
  { pose proof (digits2_bounds mx) as [Hlx _]. pose proof (digits2_bounds my) as [Hly _].
    assert (Hp : (2 ^ (Zpos (digits2_pos mx) - 1 + (Zpos (digits2_pos my) - 1))
                  <= Zpos (mx * my))%Z).
    { rewrite Z.pow_add_r by lia. rewrite Pos2Z.inj_mul. apply Z.mul_le_mono_nonneg; lia. }
    destruct (Z_lt_le_dec (Zpos (digits2_pos (mx * my)))
                (Zpos (digits2_pos mx) + Zpos (digits2_pos my) - 1)) as [Hlt | Hle];
      [ | exact Hle].
    exfalso.
    assert (Hup : (Zpos (mx * my)
                   < 2 ^ (Zpos (digits2_pos mx) - 1 + (Zpos (digits2_pos my) - 1)))%Z).
    { apply digits2_le; lia. }
    lia. }
  unfold fexp, emin, prec, emax in *. lia.
Qed.

(** A product whose value is representable is computed exactly. *)
Lemma SF64mul_representable (sx sy s0 : bool) (mx my m0 : positive) (ex ey e0 : Z) :
  bounded prec emax mx ex = true -> bounded prec emax my ey = true ->
  bounded prec emax m0 e0 = true ->
  SF2Q (S754_finite s0 m0 e0) == SF2Q (S754_finite sx mx ex) * SF2Q (S754_finite sy my ey) ->
  SF64mul (S754_finite sx mx ex) (S754_finite sy my ey) = S754_finite s0 m0 e0.
Proof.
  intros Hx Hy Hb Hv. unfold SF64mul. cbn [SFmul].
  assert (Hmag : inject_Z (Zpos (mx * my)) * (2 # 1) ^ (ex + ey)
                 == inject_Z (Zpos m0) * (2 # 1) ^ e0).
  { rewrite <- (Qabs_SF2Q_finite s0 m0 e0), Hv, Qabs_Qmult, !Qabs_SF2Q_finite.
    rewrite Pos2Z.inj_mul, inject_Z_mult, Qpow2_add. ring. }
  assert (Hs : s0 = xorb sx sy).
  { rewrite !SF2Q_signed in Hv.
    rewrite Pos2Z.inj_mul, inject_Z_mult, Qpow2_add in Hmag.
    pose proof (magnitude_pos m0 e0).
    destruct s0, sx, sy; try reflexivity; exfalso; cbn [xorb] in *; lra. }
  subst s0.
  pose proof (magnitude_unique _ _ _ _ Hmag) as HD.
  pose proof (product_exponent mx my ex ey Hx Hy) as He.
  pose proof Hb as Hb'. apply bounded_spec in Hb' as [Hc _].
  apply binary_round_aux_shift; try reflexivity; try assumption.
  - rewrite HD, Hc in He. exact He.
  - apply Qpow2_scaled_eq; [ | exact Hmag]. rewrite HD, Hc in He. exact He.
Qed.

(** ** Numbers on a dyadic grid *)

Lemma dyadic_zero (j : Z) : dyadic 0 j = S754_zero false.
Proof. reflexivity. Qed.

(** A grid point is a canonical number of the expected value and sign. *)
Lemma dyadic_finite (n j : Z) :
  n <> 0%Z -> (Z.abs n < 2 ^ 53)%Z -> (0 <= j <= 1074)%Z ->
  exists m e,
    dyadic n j = S754_finite (n <? 0)%Z m e /\ bounded prec emax m e = true /\
    (e <= - j)%Z /\
    SF2Q (S754_finite (n <? 0)%Z m e) == inject_Z n * (2 # 1) ^ (- j).
Proof.
  intros Hn Hlt Hj.
  assert (H : forall (s : bool) (p : positive),
             (Zpos p < 2 ^ 53)%Z ->
             exists m e,
               binary_round prec emax s p (- j) = S754_finite s m e /\
               bounded prec emax m e = true /\ (e <= - j)%Z /\
               SF2Q (S754_finite s m e) == inject_Z (cond_Zopp s (Zpos p)) * (2 # 1) ^ (- j)).
  { intros s p Hp.
    assert (Hd : (Zpos (digits2_pos p) <= 53)%Z) by (apply digits2_le; lia).
    set (D := (Zpos (digits2_pos p) + - j)%Z).
    assert (Hf : (fexp prec emax D <= - j)%Z) by (unfold fexp, emin, prec, emax; lia).
    pose proof (binary_round_exact prec emax s p (- j) ltac:(reflexivity) ltac:(reflexivity))
      as Hr. cbv zeta in Hr. fold D in Hr.
    specialize (Hr Hf ltac:(unfold emax; lia)).
    exists (fst (shl_align p (- j) (fexp prec emax D))), (fexp prec emax D).
    split; [exact Hr | ]. split; [ | split; [exact Hf | ]].
    - apply bounded_spec.
      rewrite (shl_align_digits p (- j) (fexp prec emax D) Hf). fold D.
      split; [reflexivity | ]. unfold fexp, emin, prec, emax. lia.
    - rewrite <- (SF2Q_aligned s p (- j) (fexp prec emax D) Hf). reflexivity. }
  unfold dyadic. destruct n as [ | p | p ]; [contradiction Hn; reflexivity | | ];
    cbn [binary_normalize]; cbn [Z.ltb Z.compare].
  - apply (H false p). lia.
  - apply (H true p). lia.
Qed.

(** A canonical number whose value lies on the grid is that grid point. *)
Lemma dyadic_unique (n j : Z) (s : bool) (m : positive) (e : Z) :
  bounded prec emax m e = true ->
  SF2Q (S754_finite s m e) == inject_Z n * (2 # 1) ^ (- j) ->
  dyadic n j = S754_finite s m e.
Proof.
  intros Hb Hv. unfold dyadic.
  apply binary_normalize_representable; [exact Hb | symmetry; exact Hv].
Qed.

Lemma dyadic_valid (n j : Z) :
  (Z.abs n < 2 ^ 53)%Z -> (0 <= j <= 1074)%Z ->
  valid_binary prec emax (dyadic n j) = true /\ is_finite (dyadic n j) = true /\
  SF2Q (dyadic n j) == inject_Z n * (2 # 1) ^ (- j).
Proof.
  intros Hn Hj. destruct (Z.eq_dec n 0) as [-> | Hnz].
  - rewrite dyadic_zero. cbn. rewrite Qmult_0_l. repeat split; reflexivity.
  - destruct (dyadic_finite n j Hnz Hn Hj) as (m & e & -> & Hb & _ & Hv).
    repeat split; assumption.
Qed.

(** Grid points of one grid add up to a grid point. *)
Lemma dyadic_add (a b j : Z) :
  (Z.abs a < 2 ^ 53)%Z -> (Z.abs b < 2 ^ 53)%Z -> (Z.abs (a + b) < 2 ^ 53)%Z ->
  (0 <= j <= 1074)%Z ->
  SF64add (dyadic a j) (dyadic b j) = dyadic (a + b) j.
Proof.
  intros Ha Hb Hab Hj.
  destruct (Z.eq_dec a 0) as [-> | Haz]; [ | destruct (Z.eq_dec b 0) as [-> | Hbz]].
  - rewrite dyadic_zero, Z.add_0_l. destruct (Z.eq_dec b 0) as [-> | Hbz]; [reflexivity | ].
    destruct (dyadic_finite b j Hbz Hb Hj) as (m & e & -> & _). reflexivity.
  - rewrite dyadic_zero, Z.add_0_r.
    destruct (dyadic_finite a j Haz Ha Hj) as (m & e & -> & _). reflexivity.
  - destruct (dyadic_finite a j Haz Ha Hj) as (ma & ea & -> & _ & _ & Hva).
    destruct (dyadic_finite b j Hbz Hb Hj) as (mb & eb & -> & _ & _ & Hvb).
    destruct (Z.eq_dec (a + b) 0) as [Hz | Hnz].
    + rewrite Hz, dyadic_zero. apply SF64add_cancel.
      rewrite Hva, Hvb, <- Qmult_plus_distr_l, <- inject_Z_plus, Hz. ring.
    + destruct (dyadic_finite (a + b) j Hnz Hab Hj) as (m & e & -> & Hbd & _ & Hv).
      apply SF64add_representable; [exact Hbd | ].
      rewrite Hv, Hva, Hvb, inject_Z_plus. ring.
Qed.

(** Grid points multiply to a grid point of the product grid. *)
Lemma dyadic_mul (a b j k : Z) :
  a <> 0%Z -> b <> 0%Z -> (Z.abs (a * b) < 2 ^ 53)%Z ->
  (0 <= j)%Z -> (0 <= k)%Z -> (j + k <= 1074)%Z ->
  SF64mul (dyadic a j) (dyadic b k) = dyadic (a * b) (j + k).
Proof.
  intros Haz Hbz Hab Hj Hk Hjk.
  assert (Ha : (Z.abs a < 2 ^ 53)%Z) by nia.
  assert (Hb : (Z.abs b < 2 ^ 53)%Z) by nia.
  destruct (dyadic_finite a j Haz Ha ltac:(lia)) as (ma & ea & -> & Hba & _ & Hva).
  destruct (dyadic_finite b k Hbz Hb ltac:(lia)) as (mb & eb & -> & Hbb & _ & Hvb).
  destruct (dyadic_finite (a * b) (j + k) ltac:(nia) Hab ltac:(lia))
    as (m & e & -> & Hbd & _ & Hv).
  apply SF64mul_representable; try assumption.
  rewrite Hv, Hva, Hvb, inject_Z_mult.
  replace (- (j + k))%Z with (- j + - k)%Z by lia. rewrite Qpow2_add. ring.
Qed.

(** The remainder of two grid points is the grid point of the integer
    remainder; a zero remainder has the sign of the dividend. *)
Lemma dyadic_rem (a b j : Z) :
  b <> 0%Z -> (Z.abs a < 2 ^ 53)%Z -> (Z.abs b < 2 ^ 53)%Z -> (0 <= j <= 1074)%Z ->
  SF64rem (dyadic a j) (dyadic b j) =
  if (Z.rem a b =? 0)%Z then S754_zero (a <? 0)%Z else dyadic (Z.rem a b) j.
Proof.
  intros Hbz Ha Hb Hj.
  destruct (dyadic_finite b j Hbz Hb Hj) as (mb & eb & -> & Hbb & Heb & Hvb).
  destruct (Z.eq_dec a 0) as [-> | Haz].
  - rewrite dyadic_zero. reflexivity.
  - destruct (dyadic_finite a j Haz Ha Hj) as (ma & ea & -> & Hba & Hea & Hva).
    destruct (SF64rem_finite (a <? 0)%Z (b <? 0)%Z ma mb ea eb) as (_ & Hval & Hshape).
    pose proof (SF64rem_valid (a <? 0)%Z (b <? 0)%Z ma mb ea eb Hba Hbb) as Hvalid.
    cbv zeta in Hval, Hshape.
    set (e := Z.min ea eb) in *.
    assert (He : (e <= - j)%Z) by (subst e; lia).
    rewrite (SF2Q_aligned _ ma ea e) in Hva by (subst e; lia).
    rewrite (SF2Q_aligned _ mb eb e) in Hvb by (subst e; lia).
    apply (Qpow2_scaled_eq _ _ _ _ He) in Hva, Hvb.
    set (A := Zpos (fst (shl_align ma ea e))) in *.
    set (B := Zpos (fst (shl_align mb eb e))) in *.
    assert (Hpow : (0 < 2 ^ (- j - e))%Z) by (apply Z.pow_pos_nonneg; lia).
    assert (Hrem : (cond_Zopp (a <? 0)%Z (Z.rem A B) = Z.rem a b * 2 ^ (- j - e))%Z).
    { assert (HA : (A = Z.abs a * 2 ^ (- j - e))%Z).
      { destruct (Z.ltb_spec a 0); cbn [cond_Zopp] in Hva;
          [rewrite Z.abs_neq by lia | rewrite Z.abs_eq by lia]; lia. }
      assert (HB : (B = Z.abs b * 2 ^ (- j - e))%Z).
      { destruct (Z.ltb_spec b 0); cbn [cond_Zopp] in Hvb;
          [rewrite Z.abs_neq by lia | rewrite Z.abs_eq by lia]; lia. }
      rewrite HA, HB, !Z.rem_mod_nonneg by nia.
      rewrite Zmult_mod_distr_r.
      rewrite <- Z.rem_mod_nonneg by lia.
      rewrite Z.rem_abs by exact Hbz.
      destruct (Z.ltb_spec a 0); cbn [cond_Zopp].
      - pose proof (Z.rem_nonpos a b Hbz ltac:(lia)).
        rewrite Z.abs_neq by assumption. ring.
      - pose proof (Z.rem_nonneg a b Hbz ltac:(lia)).
        rewrite Z.abs_eq by assumption. reflexivity. }
    rewrite Hrem in Hval.
    assert (Hval' : SF2Q (SF64rem (S754_finite (a <? 0)%Z ma ea) (S754_finite (b <? 0)%Z mb eb))
                    == inject_Z (Z.rem a b) * (2 # 1) ^ (- j)).
    { rewrite Hval. rewrite <- (Qpow2_shift (Z.rem a b) (- j - e) (- j)) by lia.
      replace (- j - (- j - e))%Z with e by lia. reflexivity. }
    clear Hval. rename Hval' into Hval.
    destruct (Z.eqb_spec (Z.rem a b) 0) as [Hz | Hnz].
    + destruct Hshape as [H0 | (m' & e' & H1)]; [exact H0 | ].
      exfalso. rewrite H1, Hz, Qmult_0_l in Hval.
      apply (SF2Q_finite_nonzero _ _ _ Hval).
    + destruct Hshape as [H0 | (m' & e' & H1)].
      * exfalso. rewrite H0 in Hval. cbn [SF2Q] in Hval.
        scale_zero_in (- j)%Z Hval.
        apply (proj1 (Qmult_inj_r _ _ _ (Qnot_eq_sym _ _ (Qlt_not_eq _ _ (Qpow2_pos _)))))
          in Hval.
        apply (proj1 (inject_Z_injective _ _)) in Hval. congruence.
      * rewrite H1 in Hval, Hvalid |- *. cbn [valid_binary] in Hvalid.
        symmetry. apply dyadic_unique; assumption.
Qed.

(** The wrap of a grid point by a positive grid point is the grid point of
    the mathematical modulo. *)
Lemma properMod_dyadic_eq (a b j : Z) :
  (0 < b < 2 ^ 52)%Z -> (Z.abs a < 2 ^ 53)%Z -> (0 <= j <= 1074)%Z ->
  properMod (dyadic a j) (dyadic b j) = dyadic (a mod b) j.
Proof.
  intros Hb Ha Hj. unfold properMod.
  assert (Hb53 : (Z.abs b < 2 ^ 53)%Z) by lia.
  pose proof (Z.rem_bound_abs a b ltac:(lia)) as Hrb.
  assert (Hrr : (Z.abs (Z.rem a b) < b)%Z).
  { lia. }
  assert (Hsum : SF64add (SF64rem (dyadic a j) (dyadic b j)) (dyadic b j)
                 = dyadic (Z.rem a b + b) j).
  { rewrite dyadic_rem by (try assumption; lia).
    destruct (Z.eqb_spec (Z.rem a b) 0) as [Hz | Hnz].
    - rewrite Hz, Z.add_0_l.
      destruct (dyadic_finite b j ltac:(lia) Hb53 Hj) as (m & e & -> & _). reflexivity.
    - apply dyadic_add; lia. }
  rewrite Hsum, dyadic_rem by (try assumption; lia).
  assert (Hmod : Z.rem (Z.rem a b + b) b = (a mod b)%Z).
  { rewrite Z.rem_mod_nonneg by lia.
    replace (Z.rem a b + b)%Z with (Z.rem a b + 1 * b)%Z by lia.
    rewrite Z_mod_plus_full.
    rewrite (Z.quot_rem' a b) at 2.
    rewrite Z.add_comm, (Z.mul_comm b). symmetry. apply Z_mod_plus_full. }
  rewrite Hmod.
  destruct (Z.eqb_spec (a mod b) 0) as [Hz | Hnz].
  - rewrite Hz, dyadic_zero. destruct (Z.ltb_spec (Z.rem a b + b) 0); [lia | reflexivity].
  - reflexivity.
Qed.

(** ** Movement on a dyadic grid *)

(** The number a speed of [velocity] is in the running program: a zero
    speed is [+0]. *)
Lemma speed_components (m : Moving.t) :
  (fst (normalize (sumDirections m)) * PLAYER_SPEED)%num = dyadic (fst (velocity m)) 0 /\
  (snd (normalize (sumDirections m)) * PLAYER_SPEED)%num = dyadic (snd (velocity m)) 0.
Proof. destruct m as [[ | ] [ | ] [ | ] [ | ]]; split; vm_compute; reflexivity. Qed.

Lemma velocity_bound (m : Moving.t) :
  (Z.abs (fst (velocity m)) <= 500)%Z /\ (Z.abs (snd (velocity m)) <= 500)%Z.
Proof. destruct m as [[ | ] [ | ] [ | ] [ | ]]; split; vm_compute; discriminate. Qed.

Lemma world_bounds_dyadic (j : Z) :
  (0 <= j)%Z ->
  WORLD_WIDTH = dyadic (800 * 2 ^ j) j /\ WORLD_HEIGHT = dyadic (600 * 2 ^ j) j.
Proof.
  intros Hj. rewrite WORLD_WIDTH_eq, WORLD_HEIGHT_eq. split; symmetry.
  - apply dyadic_unique; [reflexivity | ].
    rewrite <- WORLD_WIDTH_eq, WORLD_WIDTH_value.
    rewrite <- (Qpow2_shift 800 j 0) by exact Hj. reflexivity.
  - apply dyadic_unique; [reflexivity | ].
    rewrite <- WORLD_HEIGHT_eq, WORLD_HEIGHT_value.
    rewrite <- (Qpow2_shift 600 j 0) by exact Hj. reflexivity.
Qed.

(** One axis of a tick: the coordinate [X], the speed [c] and the time [K],
    all on the grid of step [2 ^ (- j)]. *)
Lemma grid_axis (c X K B j : Z) :
  (Z.abs c <= 500)%Z -> (0 <= X < B)%Z -> (B < 2 ^ 52)%Z -> (Z.abs K < 2 ^ 43)%Z ->
  (0 <= j <= 1074)%Z ->
  properMod (dyadic X j + dyadic c 0 * dyadic K j)%num (dyadic B j)
  = dyadic ((X + c * K) mod B) j.
Proof.
  intros Hc HX HB HK Hj.
  assert (HcK : (Z.abs (c * K) < 2 ^ 52)%Z).
  { rewrite Z.abs_mul.
    apply Z.le_lt_trans with (500 * Z.abs K)%Z; [apply Z.mul_le_mono_nonneg_r; lia | lia]. }
  assert (Hsum : (dyadic X j + dyadic c 0 * dyadic K j)%num = dyadic (X + c * K) j).
  { destruct (Z.eq_dec c 0) as [-> | Hcz]; [ | destruct (Z.eq_dec K 0) as [-> | HKz]].
    - rewrite Z.mul_0_l, Z.add_0_r, (dyadic_zero 0).
      assert (Hz : exists s, SF64mul (S754_zero false) (dyadic K j) = S754_zero s).
      { apply SF64mul_zero_l. apply dyadic_valid; lia. }
      destruct Hz as [s ->].
      destruct (Z.eq_dec X 0) as [-> | HXz]; [destruct s; reflexivity | ].
      destruct (dyadic_finite X j HXz ltac:(lia) Hj) as (m & e & -> & _). reflexivity.
    - rewrite Z.mul_0_r, Z.add_0_r, (dyadic_zero j).
      destruct (dyadic_finite c 0 Hcz ltac:(lia) ltac:(lia)) as (mc & ec & -> & _).
      unfold SF64mul. cbn [SFmul].
      destruct (Z.eq_dec X 0) as [-> | HXz];
        [rewrite dyadic_zero; destruct (xorb (c <? 0)%Z false); reflexivity | ].
      destruct (dyadic_finite X j HXz ltac:(lia) Hj) as (m & e & -> & _). reflexivity.
    - replace j with (0 + j)%Z at 2 by lia.
      rewrite dyadic_mul by lia. replace (0 + j)%Z with j by lia.
      apply dyadic_add; lia. }
  rewrite Hsum. apply properMod_dyadic_eq; lia.
Qed.

Lemma updatePlayer_grid_tick (i h : number) (m : Moving.t) (j X Y K : Z) :
  (0 <= j <= 42)%Z -> (0 <= X < 800 * 2 ^ j)%Z -> (0 <= Y < 600 * 2 ^ j)%Z ->
  (Z.abs K < 2 ^ 43)%Z ->
  updatePlayer (mkPlayer i (dyadic X j) (dyadic Y j) m h) (dyadic K j) =
  mkPlayer i (dyadic ((X + fst (velocity m) * K) mod (800 * 2 ^ j)) j)
             (dyadic ((Y + snd (velocity m) * K) mod (600 * 2 ^ j)) j) m h.
Proof.
  intros Hj HX HY HK.
  destruct (speed_components m) as [Hcx Hcy].
  destruct (velocity_bound m) as [Hvx Hvy].
  destruct (world_bounds_dyadic j ltac:(lia)) as [HW HH].
  assert (Hp : (2 ^ j <= 2 ^ 42)%Z) by (apply Z.pow_le_mono_r; lia).
  unfold updatePlayer, displacement. cbn [id x y moving hue fst snd].
  rewrite Hcx, Hcy, HW, HH.
  rewrite !grid_axis by lia. reflexivity.
Qed.

Lemma updatePlayerMany_grid (i h : number) (m : Moving.t) (j : Z) (Ks : list Z) :
  (0 <= j <= 42)%Z -> Forall (fun K => Z.abs K < 2 ^ 43)%Z Ks ->
  forall X Y : Z,
    (0 <= X < 800 * 2 ^ j)%Z -> (0 <= Y < 600 * 2 ^ j)%Z ->
    updatePlayerMany (mkPlayer i (dyadic X j) (dyadic Y j) m h)
                     (map (fun K => dyadic K j) Ks) =
    mkPlayer i
      (dyadic ((X + fst (velocity m) * fold_right Z.add 0%Z Ks) mod (800 * 2 ^ j)) j)
      (dyadic ((Y + snd (velocity m) * fold_right Z.add 0%Z Ks) mod (600 * 2 ^ j)) j) m h.
Proof.
  intros Hj Hall.
  assert (Hp : (0 < 2 ^ j)%Z) by (apply Z.pow_pos_nonneg; lia).
  induction Hall as [ | K Ks HK _ IH ]; intros X Y HX HY;
    cbn [map fold_right updatePlayerMany fold_left].
  - rewrite !Z.mul_0_r, !Z.add_0_r, !Z.mod_small by lia. reflexivity.
  - rewrite updatePlayer_grid_tick by assumption.
    fold (updatePlayerMany
            (mkPlayer i (dyadic ((X + fst (velocity m) * K) mod (800 * 2 ^ j)) j)
                        (dyadic ((Y + snd (velocity m) * K) mod (600 * 2 ^ j)) j) m h)
            (map (fun K => dyadic K j) Ks)).
    rewrite IH by (apply Z.mod_pos_bound; lia).
    rewrite !Zplus_mod_idemp_l, <- !Z.add_assoc, <- !Z.mul_add_distr_l. reflexivity.
Qed.

(** X6: on a dyadic grid the movement is exact.  When the coordinates and
    every [deltaTime] are multiples of one step [2 ^ (- j)] ([j] up to 42:
    whole numbers, sixty-fourths, ...), with the position inside the world
    and each [deltaTime] below [2 ^ 43] steps, any run of [updatePlayer]
    calls leaves the player exactly at the start plus speed times the total
    time, modulo the world size: nothing is rounded and no error builds up
    from tick to tick.  [velocity] is the speed the flags give, in units per
    second: 0, 250 or 500 on each axis, of either sign. *)
Theorem updatePlayer_exact_on_grid :
  forall (i h : number) (m : Moving.t) (j X Y : Z) (Ks : list Z),
    (0 <= j <= 42)%Z ->
    (0 <= X < 800 * 2 ^ j)%Z -> (0 <= Y < 600 * 2 ^ j)%Z ->
    Forall (fun K => Z.abs K < 2 ^ 43)%Z Ks ->
    updatePlayerMany (mkPlayer i (dyadic X j) (dyadic Y j) m h)
                     (map (fun K => dyadic K j) Ks) =
    mkPlayer i
      (dyadic ((X + fst (velocity m) * fold_right Z.add 0%Z Ks) mod (800 * 2 ^ j)) j)
      (dyadic ((Y + snd (velocity m) * fold_right Z.add 0%Z Ks) mod (600 * 2 ^ j)) j) m h /\
    (forall n : Z, (Z.abs n < 2 ^ 53)%Z ->
       is_finite (dyadic n j) = true /\ SF2Q (dyadic n j) == inject_Z n * (2 # 1) ^ (- j)) /\
    (Z.abs (fst (velocity m)) <= 500)%Z /\ (Z.abs (snd (velocity m)) <= 500)%Z.
Proof.
  intros i h m j X Y Ks Hj HX HY Hall.
  split; [apply updatePlayerMany_grid; assumption | ].
  split; [ | apply velocity_bound].
  intros n Hn. apply dyadic_valid; lia.
Qed.

Lemma updatePlayer_exact_on_grid_witness :
  updatePlayerMany
    (mkPlayer (num_of_Z 1) (dyadic (790 * 64) 6) (dyadic (300 * 64) 6) only_right (num_of_Z 0))
    [dyadic 1 6; dyadic 1 6; dyadic 1 6]
  = mkPlayer (num_of_Z 1) (dyadic (790 * 64 + 1500 - 800 * 64) 6) (dyadic (300 * 64) 6)
             only_right (num_of_Z 0).
Proof.
  apply (proj1 (updatePlayer_exact_on_grid (num_of_Z 1) (num_of_Z 0) only_right 6
                  (790 * 64) (300 * 64) [1; 1; 1]%Z
                  ltac:(lia) ltac:(lia) ltac:(lia)
                  ltac:(repeat constructor))).
Defined.

(** X7: [properMod] is the mathematical modulo on a dyadic grid.  For a
    dividend [a] and a positive divisor [b] that are multiples of one step
    [2 ^ (- j)], it returns the multiple [a mod b] of that step, the
    representative of [[0, b)], for negative [a] too; for whole numbers
    ([j = 0]) it is the integer modulo. *)
Theorem properMod_exact_on_grid :
  forall a b j : Z,
    (0 < b < 2 ^ 52)%Z -> (Z.abs a < 2 ^ 53)%Z -> (0 <= j <= 1074)%Z ->
    properMod (dyadic a j) (dyadic b j) = dyadic (a mod b) j /\
    properMod (num_of_Z a) (num_of_Z b) = num_of_Z (a mod b) /\
    SF2Q (dyadic a j) == inject_Z a * (2 # 1) ^ (- j) /\
    SF2Q (dyadic b j) == inject_Z b * (2 # 1) ^ (- j) /\
    SF2Q (properMod (dyadic a j) (dyadic b j)) == inject_Z (a mod b) * (2 # 1) ^ (- j).
Proof.
  intros a b j Hb Ha Hj.
  pose proof (Z.mod_pos_bound a b ltac:(lia)) as Hm.
  split; [apply properMod_dyadic_eq; assumption | ].
  split; [apply (properMod_dyadic_eq a b 0); lia | ].
  split; [apply dyadic_valid; lia | ].
  split; [apply dyadic_valid; lia | ].
  rewrite properMod_dyadic_eq by assumption. apply dyadic_valid; lia.
Qed.

Lemma properMod_exact_on_grid_witness :
  properMod (num_of_Z (-50)) (num_of_Z 800) = num_of_Z 750.
Proof.
  apply (proj1 (proj2 (properMod_exact_on_grid (-50) 800 0
                         ltac:(lia) ltac:(lia) ltac:(lia)))).
Defined.

(** ** Numbers that are not finite *)

Lemma properMod_non_finite (v b : number) :
  is_finite v = false -> properMod v b = S754_nan.
Proof.
  intros Hv. unfold properMod.
  destruct v as [ sv | sv | | sv mv ev ]; try discriminate; destruct b; reflexivity.
Qed.

Lemma SF64add_non_finite (v d : number) :
  is_finite v = false \/ is_finite d = false -> is_finite (v + d)%num = false.
Proof.
  intros [H | H];
    destruct v as [ [ | ] | [ | ] | | sv mv ev ], d as [ [ | ] | [ | ] | | sd md ed ];
    try discriminate; reflexivity.
Qed.

Lemma SF64mul_non_finite (c d : number) :
  is_finite c = true -> is_finite d = false -> is_finite (c * d)%num = false.
Proof.
  intros Hc Hd.
  destruct c as [ sc | sc | | sc mc ec ], d as [ sd | sd | | sd md ed ];
    try discriminate; reflexivity.
Qed.

Lemma speed_component_finite (m : Moving.t) :
  is_finite (fst (normalize (sumDirections m)) * PLAYER_SPEED)%num = true /\
  is_finite (snd (normalize (sumDirections m)) * PLAYER_SPEED)%num = true.
Proof. destruct m as [[ | ] [ | ] [ | ] [ | ]]; split; vm_compute; reflexivity. Qed.

Lemma updatePlayer_non_finite (player : Player) (deltaTime : number) :
  (is_finite (x player) = false \/ is_finite deltaTime = false ->
   x (updatePlayer player deltaTime) = S754_nan) /\
  (is_finite (y player) = false \/ is_finite deltaTime = false ->
   y (updatePlayer player deltaTime) = S754_nan).
Proof.
  destruct (speed_component_finite (moving player)) as [Hcx Hcy].
  unfold updatePlayer, displacement. cbn [x y fst snd].
  split; intros [H | H]; apply properMod_non_finite, SF64add_non_finite; auto;
    right; apply SF64mul_non_finite; assumption.
Qed.

Lemma updatePlayerMany_nan (deltaTimes : list number) :
  forall player : Player,
    (x player = S754_nan -> x (updatePlayerMany player deltaTimes) = S754_nan) /\
    (y player = S754_nan -> y (updatePlayerMany player deltaTimes) = S754_nan).
Proof.
  induction deltaTimes as [ | dt dts IH ]; intros player; cbn [updatePlayerMany fold_left].
  - auto.
  - destruct (updatePlayer_non_finite player dt) as [Hx Hy].
    destruct (IH (updatePlayer player dt)) as [IHx IHy].
    split; intros H; [apply IHx, Hx | apply IHy, Hy]; left; rewrite H; reflexivity.
Qed.

(** X8: a coordinate that is not a finite number is lost for good.  If a
    coordinate is [NaN] or an infinity when a tick starts, or the tick's
    [deltaTime] is [NaN] or an infinity, then that coordinate is [NaN] after
    the tick, whatever the movement flags are, and it is [NaN] after every
    later tick, whatever their [deltaTime]s: [updatePlayer] never brings a
    player back from [NaN]. *)
Theorem updatePlayer_non_finite_is_permanent :
  forall (player : Player) (deltaTime : number) (later : list number),
    (is_finite (x player) = false \/ is_finite deltaTime = false ->
     x (updatePlayer player deltaTime) = S754_nan /\
     x (updatePlayerMany player (deltaTime :: later)) = S754_nan) /\
    (is_finite (y player) = false \/ is_finite deltaTime = false ->
     y (updatePlayer player deltaTime) = S754_nan /\
     y (updatePlayerMany player (deltaTime :: later)) = S754_nan) /\
    (is_finite deltaTime = false ->
     ~ in_bounds (updatePlayerMany player (deltaTime :: later))).
Proof.
  intros player deltaTime later.
  destruct (updatePlayer_non_finite player deltaTime) as [Hx Hy].
  destruct (updatePlayerMany_nan later (updatePlayer player deltaTime)) as [Lx Ly].
  split; [ | split].
  - intros H. split; [apply Hx, H | apply Lx, Hx, H].
  - intros H. split; [apply Hy, H | apply Ly, Hy, H].
  - intros H [[Hfin _] _]. cbn [updatePlayerMany fold_left] in Hfin.
    fold (updatePlayerMany (updatePlayer player deltaTime) later) in Hfin.
    rewrite Lx in Hfin by (apply Hx; right; exact H). discriminate.
Qed.

(** X9: one tick brings any finite position into the world.  Whatever the
    coordinates of a player are before a tick, inside the world or not,
    negative or not, as long as they are finite and smaller than [2 ^ 1010]
    in magnitude and [deltaTime] is finite and smaller than [2 ^ 1000], the
    player is inside the world bounds after the tick. *)
Theorem updatePlayer_reaches_bounds :
  forall (player : Player) (deltaTime : number),
    is_finite (x player) = true -> Qabs (SF2Q (x player)) < (2 # 1) ^ 1010 ->
    is_finite (y player) = true -> Qabs (SF2Q (y player)) < (2 # 1) ^ 1010 ->
    is_finite deltaTime = true -> Qabs (SF2Q deltaTime) < (2 # 1) ^ 1000 ->
    in_bounds (updatePlayer player deltaTime).
Proof.
  intros player deltaTime Hfx Hmx Hfy Hmy Hfd Hmd.
  pose proof (mag_le_of_value _ _ Hfx Hmx) as Hx.
  pose proof (mag_le_of_value _ _ Hfy Hmy) as Hy.
  pose proof (mag_le_of_value _ _ Hfd Hmd) as Hd.
  destruct (displacement_mag (moving player) deltaTime Hd) as [Hdx Hdy].
  unfold in_bounds, updatePlayer. cbn [x y].
  rewrite WORLD_WIDTH_eq, WORLD_HEIGHT_eq.
  split; (apply properMod_in_range; [ | vm_compute; discriminate | vm_compute; discriminate ]);
    apply (mag_le_finite _ (1010 + 2)), SF64add_mag; try assumption;
    vm_compute; discriminate.
Qed.

Lemma updatePlayer_reaches_bounds_witness :
  in_bounds (updatePlayer (mkPlayer (num_of_Z 1) (num_of_Z (-5000)) (num_of_Z 123456)
                                    only_left (num_of_Z 0)) tenth).
Proof.
  apply updatePlayer_reaches_bounds; cbn [x y]; try reflexivity.
Defined.

Lemma updatePlayer_non_finite_is_permanent_witness :
  x (updatePlayerMany
       (mkPlayer (num_of_Z 1) (num_of_Z 790) (num_of_Z 300) only_right (num_of_Z 0))
       [S754_infinity false; tenth; tenth]) = S754_nan.
Proof.
  apply (proj1 (updatePlayer_non_finite_is_permanent
                  (mkPlayer (num_of_Z 1) (num_of_Z 790) (num_of_Z 300) only_right (num_of_Z 0))
                  (S754_infinity false) [tenth; tenth])).
  right. reflexivity.
Defined.


Local Open Scope Z_scope.

(** * More about the binary schema *)

Lemma fits_in_view (f : Field.t) (view : DataView) (baseOffset : Z) :
  in_view view (baseOffset + Field.offset f) (Field.size f) = true <-> fits f view baseOffset.
Proof. rewrite in_view_spec. unfold fits. lia. Qed.

Lemma not_fits_in_view (f : Field.t) (view : DataView) (baseOffset : Z) :
  ~ fits f view baseOffset -> in_view view (baseOffset + Field.offset f) (Field.size f) = false.
Proof.
  intros H. destruct (in_view _ _ _) eqn:Hin; [ | reflexivity].
  apply fits_in_view in Hin. contradiction.
Qed.

Lemma getByte_setWord_range (view : DataView) (i j u : Z) :
  0 <= i -> i + 4 <= Z.of_nat (List.length view) -> i <= j < i + 4 ->
  0 <= getByte (setWord view i u) j < 256.
Proof.
  intros Hi Hlen Hj. unfold setWord, bytes_of_uint32.
  assert (H0 : 0 <= u mod 256 < 256) by (apply Z.mod_pos_bound; lia).
  assert (H1 : 0 <= u / 2 ^ 8 mod 256 < 256) by (apply Z.mod_pos_bound; lia).
  assert (H2 : 0 <= u / 2 ^ 16 mod 256 < 256) by (apply Z.mod_pos_bound; lia).
  assert (H3 : 0 <= u / 2 ^ 24 mod 256 < 256) by (apply Z.mod_pos_bound; lia).
  assert (Hcase : j = i \/ j = i + 1 \/ j = i + 2 \/ j = i + 3) by lia.
  destruct Hcase as [-> | [-> | [-> | ->]]].
  - rewrite !getByte_setByte_other by lia.
    rewrite getByte_setByte_same by lia. exact H0.
  - rewrite !(getByte_setByte_other _ _ (i + 1)) by lia.
    rewrite getByte_setByte_same by (rewrite ?length_setByte; lia). exact H1.
  - rewrite !(getByte_setByte_other _ _ (i + 2)) by lia.
    rewrite getByte_setByte_same by (rewrite ?length_setByte; lia). exact H2.
  - rewrite getByte_setByte_same by (rewrite ?length_setByte; lia). exact H3.
Qed.

(** What an allocated field is, by the allocator that made it. *)
Lemma allocators_cases (alloc : Allocator -> Field.t * Allocator) (allocator : Allocator) :
  In alloc allocators ->
  let f := fst (alloc allocator) in
  Field.offset f = iota allocator /\
  ((Field.size f = 1 /\
    (forall view baseOffset,
        Field.read f view baseOffset = getUint8 view (baseOffset + Field.offset f)) /\
    (forall view baseOffset value,
        Field.write f view baseOffset value
        = setUint8 view (baseOffset + Field.offset f) value)) \/
   (Field.size f = 4 /\
    (forall view baseOffset,
        Field.read f view baseOffset = getUint32 view (baseOffset + Field.offset f)) /\
    (forall view baseOffset value,
        Field.write f view baseOffset value
        = setUint32 view (baseOffset + Field.offset f) value)) \/
   (Field.size f = 4 /\
    (forall view baseOffset,
        Field.read f view baseOffset = getFloat32 view (baseOffset + Field.offset f)) /\
    (forall view baseOffset value,
        Field.write f view baseOffset value
        = setFloat32 view (baseOffset + Field.offset f) value))).
Proof.
  intros [<- | [<- | [<- | []]]]; cbn; (split; [reflexivity | ]); auto 10.
Qed.

(** A write that succeeds keeps the length of the view and every byte
    outside the field, and stores bytes. *)
Lemma write_frame (alloc : Allocator -> Field.t * Allocator) (allocator : Allocator)
      (view view' : DataView) (baseOffset : Z) (value : number) :
  In alloc allocators ->
  let f := fst (alloc allocator) in
  Field.write f view baseOffset value = Normal view' ->
  fits f view baseOffset /\
  List.length view' = List.length view /\
  (forall i, 0 <= i -> ~ field_range f baseOffset i -> getByte view' i = getByte view i) /\
  (forall i, field_range f baseOffset i -> 0 <= getByte view' i < 256).
Proof.
  intros Hin f Hw. subst f.
  destruct (allocators_cases alloc allocator Hin) as [Hoff Hkind]. cbv zeta in Hkind.
  set (f := fst (alloc allocator)) in *.
  assert (Hfits : fits f view baseOffset).
  { apply fits_in_view.
    destruct Hkind as [(Hs & _ & Hwr) | [(Hs & _ & Hwr) | (Hs & _ & Hwr)]];
      rewrite Hwr in Hw; rewrite Hs;
      unfold setUint8, setUint32, setFloat32 in Hw;
      destruct (in_view view (baseOffset + Field.offset f) _); [reflexivity | discriminate
                                                               | reflexivity | discriminate
                                                               | reflexivity | discriminate]. }
  split; [exact Hfits | ].
  pose proof Hfits as [Hlo Hhi]. unfold field_range.
  destruct Hkind as [(Hs & _ & Hwr) | [(Hs & _ & Hwr) | (Hs & _ & Hwr)]];
    rewrite Hwr in Hw; rewrite Hs in *;
    unfold setUint8, setUint32, setFloat32 in Hw;
    rewrite (in_view_true view (baseOffset + Field.offset f)) in Hw by lia;
    injection Hw as <-.
  - split; [apply length_setByte | ]. split.
    + intros i Hi Hout. apply getByte_setByte_other; lia.
    + intros i Hi. replace i with (baseOffset + Field.offset f) by lia.
      rewrite getByte_setByte_same by lia. apply Z.mod_pos_bound. lia.
  - split; [apply length_setWord | ]. split.
    + intros i Hi Hout. apply getByte_setWord_other; lia.
    + intros i Hi. apply getByte_setWord_range; lia.
  - split; [apply length_setWord | ]. split.
    + intros i Hi Hout. apply getByte_setWord_other; lia.
    + intros i Hi. apply getByte_setWord_range; lia.
Qed.

(** A read depends on the length of the view and on the bytes of the field
    only. *)
Lemma read_local (alloc : Allocator -> Field.t * Allocator) (allocator : Allocator)
      (view view' : DataView) (baseOffset : Z) :
  In alloc allocators ->
  let f := fst (alloc allocator) in
  List.length view' = List.length view ->
  (forall i, 0 <= i -> field_range f baseOffset i -> getByte view' i = getByte view i) ->
  Field.read f view' baseOffset = Field.read f view baseOffset.
Proof.
  intros Hin f Hlen Hbytes. subst f.
  destruct (allocators_cases alloc allocator Hin) as [Hoff Hkind]. cbv zeta in Hkind.
  set (f := fst (alloc allocator)) in *. unfold field_range in Hbytes.
  destruct Hkind as [(Hs & Hrd & _) | [(Hs & Hrd & _) | (Hs & Hrd & _)]];
    rewrite !Hrd; rewrite Hs in Hbytes;
    unfold getUint8, getUint32, getFloat32, in_view; rewrite Hlen;
    destruct (0 <=? baseOffset + Field.offset f) eqn:Hlo; cbn [andb]; try reflexivity;
    apply Z.leb_le in Hlo;
    destruct (_ <=? Z.of_nat (List.length view)); try reflexivity;
    unfold getWord; rewrite ?Hbytes by lia; reflexivity.
Qed.

(** ** binary32 values that are read back exactly *)

(** A binary32 value survives the conversion to a number and back. *)
Lemma to_binary32_of_binary32 (f : spec_float) :
  valid_binary prec32 emax32 f = true -> to_binary32 (of_binary32 f) = f.
Proof.
  destruct f as [ s | s | | s m e ]; cbn [valid_binary of_binary32]; intros Hv;
    try reflexivity.
  pose proof Hv as Hb. apply bounded32_spec in Hb. destruct Hb as (He & Hm & _).
  assert (Hd : Zpos (digits2_pos m) <= 24) by (apply digits2_le; lia).
  pose proof (Pos2Z.is_pos (digits2_pos m)) as Hd0.
  pose proof (binary_round_exact prec emax s m e ltac:(reflexivity) ltac:(reflexivity)) as H.
  cbv zeta in H. rewrite H by (unfold fexp, emin, emax, prec; lia).
  cbn [to_binary32].
  apply binary_round_representable; try reflexivity; [exact Hv | ].
  rewrite <- !(Qabs_SF2Q_finite s).
  pose proof (shl_align_finite_value s m e (fexp prec emax (Zpos (digits2_pos m) + e))) as Hval.
  destruct (shl_align_spec m e (fexp prec emax (Zpos (digits2_pos m) + e))) as [Hsnd _].
  rewrite Hsnd in Hval.
  replace (Z.min e (fexp prec emax (Zpos (digits2_pos m) + e)))
    with (fexp prec emax (Zpos (digits2_pos m) + e)) in Hval
    by (unfold fexp, emin, emax, prec; lia).
  rewrite Hval. reflexivity.
Qed.

Lemma fround_idempotent (v : number) : fround (fround v) = fround v.
Proof.
  unfold fround. rewrite to_binary32_of_binary32 by apply to_binary32_valid. reflexivity.
Qed.

(** A number that has a binary32 representation is its own rounding. *)
Lemma fround_representable (s : bool) (m m0 : positive) (e e0 : Z) :
  bounded prec emax m e = true -> bounded prec32 emax32 m0 e0 = true ->
  (inject_Z (Zpos m) * (2 # 1) ^ e == inject_Z (Zpos m0) * (2 # 1) ^ e0)%Q ->
  fround (S754_finite s m e) = S754_finite s m e.
Proof.
  intros Hb Hb0 Hv. unfold fround. cbn [to_binary32].
  rewrite (binary_round_representable prec32 emax32 s m m0 e e0) by
    (try reflexivity; assumption).
  cbn [of_binary32].
  apply binary_round_representable; try reflexivity; [exact Hb | symmetry; exact Hv].
Qed.

(** Multiples [n * 2 ^ (- j)] with [|n| < 2 ^ 24] and [0 <= j <= 149] have a
    binary32 representation. *)
Lemma grid_binary32 (p : positive) (j : Z) :
  Zpos p < 2 ^ 24 -> 0 <= j <= 149 ->
  exists m0 e0,
    bounded prec32 emax32 m0 e0 = true /\
    (inject_Z (Zpos m0) * (2 # 1) ^ e0 == inject_Z (Zpos p) * (2 # 1) ^ (- j))%Q.
Proof.
  intros Hp Hj.
  assert (Hd : Zpos (digits2_pos p) <= 24) by (apply digits2_le; lia).
  pose proof (Pos2Z.is_pos (digits2_pos p)) as Hd0.
  set (D := Zpos (digits2_pos p) + - j).
  assert (Hf : fexp prec32 emax32 D <= - j) by (unfold fexp, emin, prec32, emax32; lia).
  exists (fst (shl_align p (- j) (fexp prec32 emax32 D))), (fexp prec32 emax32 D).
  split.
  - unfold bounded, canonical_mantissa.
    rewrite (shl_align_digits p (- j) (fexp prec32 emax32 D) Hf). fold D.
    rewrite Z.eqb_refl. apply Z.leb_le. unfold fexp, emin, prec32, emax32. lia.
  - rewrite <- !(Qabs_SF2Q_finite false).
    rewrite <- (SF2Q_aligned false p (- j) (fexp prec32 emax32 D) Hf). reflexivity.
Qed.

Lemma fround_dyadic (n j : Z) :
  Z.abs n < 2 ^ 24 -> 0 <= j <= 149 -> fround (dyadic n j) = dyadic n j.
Proof.
  intros Hn Hj. destruct (Z.eq_dec n 0) as [-> | Hnz]; [reflexivity | ].
  destruct (dyadic_finite n j Hnz ltac:(lia) ltac:(lia)) as (m & e & Heq & Hb & _ & Hv).
  rewrite Heq.
  destruct (grid_binary32 (Z.to_pos (Z.abs n)) j ltac:(lia) Hj) as (m0 & e0 & Hb0 & Hv0).
  apply (fround_representable _ m m0 e e0 Hb Hb0).
  rewrite Hv0, <- (Qabs_SF2Q_finite (n <? 0) m e), Hv.
  rewrite Qabs_Qmult, (Qabs_pos ((2 # 1) ^ (- j))) by (apply Qlt_le_weak, Qpow2_pos).
  apply Qmult_comp; [ | reflexivity].
  rewrite Z2Pos.id by lia. reflexivity.
Qed.

(** ** The error of a rounding *)

(** What the two bits of a shift record say: [shifted M n mrs] holds when
    [mrs] is the integer [M] shifted right by [n] bits, its round bit and
    sticky bit telling where the bits shifted out lie with respect to one
    half. *)
Lemma shr_1_shifted (M n : Z) (mrs : shr_record) :
  0 <= n ->
  (0 <= shr_m mrs /\
   exists R, M = shr_m mrs * 2 ^ n + R /\ 0 <= R < 2 ^ n /\
     (shr_r mrs = false /\ shr_s mrs = false /\ R = 0 \/
      shr_r mrs = false /\ shr_s mrs = true /\ 0 < 2 * R < 2 ^ n \/
      shr_r mrs = true /\ shr_s mrs = false /\ 2 * R = 2 ^ n \/
      shr_r mrs = true /\ shr_s mrs = true /\ 2 ^ n < 2 * R)) ->
  0 <= shr_m (shr_1 mrs) /\
  exists R, M = shr_m (shr_1 mrs) * 2 ^ (n + 1) + R /\ 0 <= R < 2 ^ (n + 1) /\
    (shr_r (shr_1 mrs) = false /\ shr_s (shr_1 mrs) = false /\ R = 0 \/
     shr_r (shr_1 mrs) = false /\ shr_s (shr_1 mrs) = true /\ 0 < 2 * R < 2 ^ (n + 1) \/
     shr_r (shr_1 mrs) = true /\ shr_s (shr_1 mrs) = false /\ 2 * R = 2 ^ (n + 1) \/
     shr_r (shr_1 mrs) = true /\ shr_s (shr_1 mrs) = true /\ 2 ^ (n + 1) < 2 * R).
Proof.
  intros Hn (Hm & R & HM & HR & Hloc).
  assert (Hp : 0 < 2 ^ n) by (apply Z.pow_pos_nonneg; lia).
  rewrite Z.pow_add_r, Z.pow_1_r by lia.
  destruct mrs as [m r s]. cbn [shr_m shr_r shr_s] in *.
  destruct m as [ | [ q | q | ] | q ]; cbn [shr_1 shr_m shr_r shr_s]; try lia.
  - split; [lia | ]. exists R. split; [lia | ]. split; [lia | ].
    destruct Hloc as [(-> & -> & H) | [(-> & -> & H) | [(-> & -> & H) | (-> & -> & H)]]];
      cbn [orb]; lia.
  - split; [lia | ]. exists (2 ^ n + R). split; [rewrite HM, Pos2Z.inj_xI; ring | ].
    split; [lia | ].
    destruct Hloc as [(-> & -> & H) | [(-> & -> & H) | [(-> & -> & H) | (-> & -> & H)]]];
      cbn [orb]; lia.
  - split; [lia | ]. exists R. split; [rewrite HM, Pos2Z.inj_xO; ring | ].
    split; [lia | ].
    destruct Hloc as [(-> & -> & H) | [(-> & -> & H) | [(-> & -> & H) | (-> & -> & H)]]];
      cbn [orb]; lia.
  - split; [lia | ]. exists (2 ^ n + R). split; [lia | ]. split; [lia | ].
    destruct Hloc as [(-> & -> & H) | [(-> & -> & H) | [(-> & -> & H) | (-> & -> & H)]]];
      cbn [orb]; lia.
Qed.

Lemma shr_iter_shifted (M : Z) (p : positive) :
  forall (n : Z) (mrs : shr_record),
    0 <= n ->
    (0 <= shr_m mrs /\
     exists R, M = shr_m mrs * 2 ^ n + R /\ 0 <= R < 2 ^ n /\
       (shr_r mrs = false /\ shr_s mrs = false /\ R = 0 \/
        shr_r mrs = false /\ shr_s mrs = true /\ 0 < 2 * R < 2 ^ n \/
        shr_r mrs = true /\ shr_s mrs = false /\ 2 * R = 2 ^ n \/
        shr_r mrs = true /\ shr_s mrs = true /\ 2 ^ n < 2 * R)) ->
    0 <= shr_m (iter_pos shr_1 p mrs) /\
    exists R, M = shr_m (iter_pos shr_1 p mrs) * 2 ^ (n + Zpos p) + R /\
      0 <= R < 2 ^ (n + Zpos p) /\
      (shr_r (iter_pos shr_1 p mrs) = false /\ shr_s (iter_pos shr_1 p mrs) = false /\ R = 0 \/
       shr_r (iter_pos shr_1 p mrs) = false /\ shr_s (iter_pos shr_1 p mrs) = true /\
         0 < 2 * R < 2 ^ (n + Zpos p) \/
       shr_r (iter_pos shr_1 p mrs) = true /\ shr_s (iter_pos shr_1 p mrs) = false /\
         2 * R = 2 ^ (n + Zpos p) \/
       shr_r (iter_pos shr_1 p mrs) = true /\ shr_s (iter_pos shr_1 p mrs) = true /\
         2 ^ (n + Zpos p) < 2 * R).
Proof.
  induction p as [ p IH | p IH | ]; intros n mrs Hn H; cbn [iter_pos].
  - replace (n + Zpos p~1) with (n + 1 + Zpos p + Zpos p) by lia.
    apply IH; [lia | ]. apply IH; [lia | ]. apply shr_1_shifted; assumption.
  - replace (n + Zpos p~0) with (n + Zpos p + Zpos p) by lia.
    apply IH; [lia | ]. apply IH; assumption.
  - apply shr_1_shifted; assumption.
Qed.

(** Rounding the shifted mantissa to nearest, ties to even, leaves it
    within half a unit of the integer that was shifted. *)
Lemma round_nearest_even_shifted (M n : Z) (mrs : shr_record) :
  0 <= n ->
  (0 <= shr_m mrs /\
   exists R, M = shr_m mrs * 2 ^ n + R /\ 0 <= R < 2 ^ n /\
     (shr_r mrs = false /\ shr_s mrs = false /\ R = 0 \/
      shr_r mrs = false /\ shr_s mrs = true /\ 0 < 2 * R < 2 ^ n \/
      shr_r mrs = true /\ shr_s mrs = false /\ 2 * R = 2 ^ n \/
      shr_r mrs = true /\ shr_s mrs = true /\ 2 ^ n < 2 * R)) ->
  2 * Z.abs (round_nearest_even (shr_m mrs) (loc_of_shr_record mrs) * 2 ^ n - M) <= 2 ^ n.
Proof.
  intros Hn (Hm & R & HM & HR & Hloc).
  assert (Hp : 0 < 2 ^ n) by (apply Z.pow_pos_nonneg; lia).
  destruct mrs as [m r s]. cbn [shr_m shr_r shr_s] in *.
  destruct Hloc as [(-> & -> & H) | [(-> & -> & H) | [(-> & -> & H) | (-> & -> & H)]]];
    cbn [loc_of_shr_record round_nearest_even]; try destruct (Z.even m); nia.
Qed.

Section RoundingError.
Variables pr em : Z.
Hypothesis pr_pos : 0 < pr.
Hypothesis pr_lt_em : pr < em.

(** The first pass of a rounding divides the mantissa by the power of two
    it shifts the exponent by. *)
Lemma shr_fexp_quotient (m : positive) (e : Z) (l : location) :
  let r := shr_fexp pr em (Zpos m) e l in
  e <= snd r /\ shr_m (fst r) = Zpos m / 2 ^ (snd r - e).
Proof.
  intros r. subst r. unfold shr_fexp, shr.
  destruct (fexp pr em (Zdigits2 (Zpos m) + e) - e) as [ | n | n ]; cbn [fst snd].
  - rewrite shr_m_of_loc, Z.sub_diag, Z.pow_0_r, Z.div_1_r. split; [lia | reflexivity].
  - rewrite shr_m_iter by (rewrite shr_m_of_loc; lia).
    rewrite shr_m_of_loc. split; [lia | ]. f_equal. f_equal. lia.
  - rewrite shr_m_of_loc, Z.sub_diag, Z.pow_0_r, Z.div_1_r. split; [lia | reflexivity].
Qed.

(** The first pass followed by the rounding of the mantissa is within half
    a unit of the new exponent. *)
Lemma shr_fexp_nearest (m : positive) (e : Z) :
  let r := shr_fexp pr em (Zpos m) e loc_Exact in
  2 * Z.abs (round_nearest_even (shr_m (fst r)) (loc_of_shr_record (fst r))
             * 2 ^ (snd r - e) - Zpos m) <= 2 ^ (snd r - e).
Proof.
  intros r. subst r. unfold shr_fexp, shr.
  destruct (fexp pr em (Zdigits2 (Zpos m) + e) - e) as [ | n | n ]; cbn [fst snd].
  - rewrite Z.sub_diag, Z.pow_0_r.
    cbn [shr_record_of_loc shr_m loc_of_shr_record round_nearest_even]. lia.
  - replace (e + Zpos n - e) with (0 + Zpos n) by lia.
    apply round_nearest_even_shifted; [lia | ].
    apply shr_iter_shifted; [lia | ].
    cbn [shr_record_of_loc shr_m shr_r shr_s]. split; [lia | ].
    exists 0. rewrite Z.pow_0_r. split; [lia | ]. split; [lia | ]. left. auto.
  - rewrite Z.sub_diag, Z.pow_0_r.
    cbn [shr_record_of_loc shr_m loc_of_shr_record round_nearest_even]. lia.
Qed.

(** A rounding that does not overflow returns a multiple of [2 ^ e1]
    within half a unit of its argument, [e1] being the canonical exponent
    of the argument, or its own exponent if that is larger. *)
Lemma binary_round_aux_near (s : bool) (m : positive) (e : Z) :
  let D := Zpos (digits2_pos m) + e in
  let e1 := Z.max e (fexp pr em D) in
  let r := binary_round_aux pr em s (Zpos m) e loc_Exact in
  (exists s', r = S754_infinity s') \/
  (is_finite r = true /\
   exists q, 2 * Z.abs (q * 2 ^ (e1 - e) - Zpos m) <= 2 ^ (e1 - e) /\
             (SF2Q r == inject_Z (cond_Zopp s q) * (2 # 1) ^ e1)%Q).
Proof.
  intros D e1 r. subst r. unfold binary_round_aux.
  pose proof (shr_fexp_pos pr em pr_pos m e loc_Exact) as H1. cbv zeta in H1. fold D in H1.
  pose proof (shr_fexp_nearest m e) as Hnear. cbv zeta in Hnear.
  destruct (shr_fexp pr em (Zpos m) e loc_Exact) as [mrs1 e1']. cbn [fst snd] in H1, Hnear.
  destruct H1 as (He1 & Hm1 & Hd1 & Hz1 & _).
  fold e1 in He1. subst e1'.
  pose proof (round_nearest_even_cases (shr_m mrs1) (loc_of_shr_record mrs1)) as Hm2.
  destruct (round_nearest_even (shr_m mrs1) (loc_of_shr_record mrs1)) as [ | q | q ] eqn:Hq;
    [ | | lia ].
  - right. pose proof (shr_fexp_zero pr em e1 loc_Exact) as Hz.
    destruct (shr_fexp pr em 0 e1 loc_Exact) as [mrs2 e2]. cbn [fst] in Hz.
    rewrite Hz. split; [reflexivity | ]. exists 0. split; [exact Hnear | ].
    destruct s; cbn [SF2Q cond_Zopp Z.opp]; rewrite Qmult_0_l; reflexivity.
  - pose proof (shr_fexp_pos pr em pr_pos q e1 loc_Exact) as H2. cbv zeta in H2.
    pose proof (shr_fexp_quotient q e1 loc_Exact) as Hq2. cbv zeta in Hq2.
    destruct (shr_fexp pr em (Zpos q) e1 loc_Exact) as [mrs2 e2]. cbn [fst snd] in H2, Hq2.
    destruct H2 as (He2 & Hm3 & Hd2 & Hz2 & _). destruct Hq2 as [Hle2 Hq2].
    assert (Hexact : Zpos q = shr_m mrs2 * 2 ^ (e2 - e1)).
    { destruct (Z.eq_dec e2 e1) as [-> | Hne].
      - rewrite Hq2, Z.sub_diag, Z.pow_0_r, Z.div_1_r. lia.
      - assert (Hgt : e1 < fexp pr em (Zpos (digits2_pos q) + e1)) by lia.
        destruct (shr_m mrs1) as [ | m1 | m1 ] eqn:Hm1eq; [ | | lia ].
        + exfalso. destruct Hz1 as [HD He1']; [reflexivity | ].
          assert (q = 1%positive) by lia. subst q. cbn [digits2_pos] in Hgt.
          unfold fexp, emin in *. lia.
        + specialize (Hd1 ltac:(lia)). cbn [Zdigits2] in Hd1.
          assert (Hdq : Zpos (digits2_pos q) = Zpos (digits2_pos m1) + 1).
          { assert (Zpos (digits2_pos q) <= Zpos (digits2_pos m1) + 1).
            { destruct Hm2 as [Hm2 | Hm2].
              - injection Hm2 as ->. lia.
              - apply digits2_succ_le. lia. }
            destruct (Z_le_gt_dec (Zpos (digits2_pos q)) (Zpos (digits2_pos m1)))
              as [Hle | Hgt']; [ | lia].
            exfalso.
            assert (fexp pr em (Zpos (digits2_pos q) + e1) <= fexp pr em D)
              by (apply fexp_mono; lia).
            unfold e1 in *. lia. }
          assert (Hqpow : Zpos q = 2 ^ Zpos (digits2_pos m1)).
          { pose proof (digits2_bounds q) as [Hlo _]. pose proof (digits2_bounds m1) as [_ Hhi].
            rewrite Hdq in Hlo. replace (Zpos (digits2_pos m1) + 1 - 1)
              with (Zpos (digits2_pos m1)) in Hlo by lia.
            destruct Hm2 as [Hm2 | Hm2]; [injection Hm2 as ->; lia | lia]. }
          assert (He21 : e2 - e1 = 1).
          { clear Hq Hq2 Hqpow Hnear. unfold fexp in *. subst e1 D. lia. }
          rewrite Hq2, He21, Hqpow.
          replace (Zpos (digits2_pos m1)) with (Zpos (digits2_pos m1) - 1 + 1) at 1 2 by lia.
          rewrite Z.pow_add_r by lia. rewrite Z.div_mul by lia. reflexivity. }
    destruct (shr_m mrs2) as [ | m' | m' ] eqn:Hm3eq; [lia | | lia].
    destruct (Z.leb_spec e2 (em - pr)) as [Hle | Hgt]; [right | left; eauto].
    split; [reflexivity | ]. exists (Zpos q). split; [exact Hnear | ].
    cbn [SF2Q]. rewrite Hexact, cond_Zopp_mul.
    rewrite <- (Qpow2_shift (cond_Zopp s (Zpos m')) (e2 - e1) e2) by lia.
    replace (e2 - (e2 - e1)) with e1 by lia. reflexivity.
Qed.
End RoundingError.

Lemma Qabs_scaled (z e : Z) :
  (Qabs (inject_Z z * (2 # 1) ^ e) == inject_Z (Z.abs z) * (2 # 1) ^ e)%Q.
Proof.
  rewrite Qabs_Qmult, (Qabs_pos ((2 # 1) ^ e)) by (apply Qlt_le_weak, Qpow2_pos).
  reflexivity.
Qed.

(** Rounding moves a number by at most half a unit of its canonical
    exponent [E], to a multiple of [2 ^ E]. *)
Lemma binary_round_near (pr em : Z) (s : bool) (m : positive) (e : Z) :
  0 < pr -> pr < em ->
  let E := fexp pr em (Zpos (digits2_pos m) + e) in
  let r := binary_round pr em s m e in
  (exists s', r = S754_infinity s') \/
  (is_finite r = true /\
   (exists q : Z, 0 <= q /\ (SF2Q r == inject_Z (cond_Zopp s q) * (2 # 1) ^ E)%Q) /\
   (Qabs (SF2Q r - SF2Q (S754_finite s m e)) <= (2 # 1) ^ (E - 1))%Q).
Proof.
  intros Hpr Hem E r. subst r. unfold binary_round. fold E.
  destruct (shl_align_spec m e E) as [Hez Hmz].
  pose proof (shl_align_digits m e (Z.min e E) ltac:(lia)) as Hdig.
  pose proof (SF2Q_aligned s m e (Z.min e E) ltac:(lia)) as Hval.
  assert (Hfst : fst (shl_align m e (Z.min e E)) = fst (shl_align m e E)).
  { unfold shl_align. destruct (Z.min e E - e) eqn:H1, (E - e) eqn:H2; try lia; try reflexivity.
    replace p with p0 by lia. reflexivity. }
  rewrite Hfst in Hdig, Hval.
  destruct (shl_align m e E) as [mz ez]. cbn [fst snd] in *. subst ez.
  pose proof (binary_round_aux_near pr em Hpr s mz (Z.min e E)) as H.
  cbv zeta in H. rewrite Hdig in H. fold E in H.
  replace (Z.max (Z.min e E) E) with E in H by lia.
  destruct H as [H | (Hfin & q & Hq & Hv)]; [left; exact H | right].
  split; [exact Hfin | ].
  set (k := E - Z.min e E) in *.
  assert (Hk : 0 <= k) by (subst k; lia).
  assert (Hp : 0 < 2 ^ k) by (apply Z.pow_pos_nonneg; lia).
  split; [exists q; split; [nia | exact Hv] | ].
  rewrite Hv, Hval.
  rewrite <- (Qpow2_shift (cond_Zopp s q) k E) by exact Hk.
  replace (E - k) with (Z.min e E) by (subst k; lia).
  setoid_replace (inject_Z (cond_Zopp s q * 2 ^ k) * (2 # 1) ^ Z.min e E -
                  inject_Z (cond_Zopp s (Zpos mz)) * (2 # 1) ^ Z.min e E)%Q
    with (inject_Z (cond_Zopp s (q * 2 ^ k - Zpos mz)) * (2 # 1) ^ Z.min e E)%Q.
  - rewrite Qabs_scaled.
    rewrite <- (Qpow2_shift (Z.abs (cond_Zopp s (q * 2 ^ k - Zpos mz))) 1 (Z.min e E))
      by lia.
    setoid_replace ((2 # 1) ^ (E - 1))%Q with (inject_Z (2 ^ k) * (2 # 1) ^ (Z.min e E - 1))%Q.
    + apply Qpow2_le_cancel. destruct s; cbn [cond_Zopp]; lia.
    + rewrite Qpow2_inject, <- Qpow2_add by exact Hk.
      replace (k + (Z.min e E - 1)) with (E - 1) by (subst k; lia). reflexivity.
  - replace (cond_Zopp s (q * 2 ^ k - Zpos mz))
      with (cond_Zopp s q * 2 ^ k + - cond_Zopp s (Zpos mz))
      by (destruct s; cbn [cond_Zopp]; lia).
    rewrite inject_Z_plus, inject_Z_opp. ring.
Qed.

(** ** Writing back what was read *)

Lemma setNth_nth (view : DataView) (n : nat) (d : Z) : setNth view n (nth n view d) = view.
Proof.
  revert n. induction view as [ | c rest IH ]; intros [ | n ]; cbn; try reflexivity.
  rewrite IH. reflexivity.
Qed.

Lemma setByte_getByte (view : DataView) (i : Z) : setByte view i (getByte view i) = view.
Proof. apply setNth_nth. Qed.

Lemma getByte_bytes (view : DataView) (i : Z) :
  bytes view -> 0 <= i < Z.of_nat (List.length view) -> 0 <= getByte view i < 256.
Proof.
  intros Hb Hi. unfold getByte, bytes in *. rewrite Forall_forall in Hb.
  apply Hb, nth_In. lia.
Qed.

Lemma bytes_of_uint32_of_bytes (b0 b1 b2 b3 : Z) :
  0 <= b0 < 256 -> 0 <= b1 < 256 -> 0 <= b2 < 256 -> 0 <= b3 < 256 ->
  bytes_of_uint32 (uint32_of_bytes b0 b1 b2 b3) = [b0; b1; b2; b3] /\
  0 <= uint32_of_bytes b0 b1 b2 b3 < 2 ^ 32.
Proof.
  intros H0 H1 H2 H3. unfold bytes_of_uint32, uint32_of_bytes.
  change (2 ^ 8) with 256. change (2 ^ 16) with 65536. change (2 ^ 24) with 16777216.
  change (2 ^ 32) with 4294967296.
  split; [ | lia].
  repeat f_equal; Z.div_mod_to_equations; lia.
Qed.

Lemma setWord_getWord (view : DataView) (i : Z) :
  (forall k, i <= k < i + 4 -> 0 <= getByte view k < 256) ->
  setWord view i (getWord view i) = view /\ 0 <= getWord view i < 2 ^ 32.
Proof.
  intros Hb. unfold setWord, getWord.
  destruct (bytes_of_uint32_of_bytes (getByte view i) (getByte view (i + 1))
              (getByte view (i + 2)) (getByte view (i + 3))) as [-> Hr];
    try (apply Hb; lia).
  split; [ | exact Hr].
  rewrite (setByte_getByte view i), (setByte_getByte view (i + 1)),
    (setByte_getByte view (i + 2)), (setByte_getByte view (i + 3)). reflexivity.
Qed.

(** ** The bits of a binary32 value *)

Lemma binary32_of_bits_valid (w : Z) :
  0 <= w < 2 ^ 32 -> valid_binary prec32 emax32 (binary32_of_bits w) = true.
Proof.
  intros Hw. unfold binary32_of_bits.
  change (2 ^ 32) with 4294967296 in *. change (2 ^ 31) with 2147483648.
  change (2 ^ 23) with 8388608. change (2 ^ 8) with 256.
  pose proof (Z.mod_pos_bound (w / 8388608) 256 ltac:(lia)) as HE.
  pose proof (Z.mod_pos_bound w 8388608 ltac:(lia)) as HM.
  destruct (Z.eqb_spec (w / 8388608 mod 256) 0) as [HE0 | HE0].
  - destruct (w mod 8388608) as [ | m | m ] eqn:Hm; try reflexivity.
    cbn [valid_binary]. unfold bounded, canonical_mantissa.
    assert (Hd : Zpos (digits2_pos m) <= 23) by (apply digits2_le; lia).
    pose proof (Pos2Z.is_pos (digits2_pos m)).
    apply andb_true_iff. split; [apply Z.eqb_eq | apply Z.leb_le];
      unfold fexp, emin, prec32, emax32; lia.
  - destruct (Z.eqb_spec (w / 8388608 mod 256) 255) as [HE1 | HE1].
    + destruct (w mod 8388608 =? 0); reflexivity.
    + destruct (w mod 8388608 + 8388608) as [ | m | m ] eqn:Hm; try reflexivity.
      cbn [valid_binary]. unfold bounded, canonical_mantissa.
      assert (Hd : Zpos (digits2_pos m) = 24).
      { pose proof (digits2_le m 24 ltac:(lia)) as [Hle _].
        pose proof (digits2_le m 23 ltac:(lia)) as [_ Hge].
        change (2 ^ 24) with 16777216 in Hle. change (2 ^ 23) with 8388608 in Hge. lia. }
      apply andb_true_iff. split; [apply Z.eqb_eq | apply Z.leb_le];
        unfold fexp, emin, prec32, emax32; lia.
Qed.

(** Encoding the value decoded from 32 bits gives the bits back, unless
    they encode a [NaN]. *)
Lemma bits_of_binary32_of_bits (w : Z) :
  0 <= w < 2 ^ 32 -> binary32_of_bits w <> S754_nan ->
  bits_of_binary32 (binary32_of_bits w) = w.
Proof.
  intros Hw. unfold binary32_of_bits.
  change (2 ^ 32) with 4294967296 in *. change (2 ^ 31) with 2147483648.
  change (2 ^ 23) with 8388608. change (2 ^ 8) with 256.
  pose proof (Z.mod_pos_bound (w / 8388608) 256 ltac:(lia)) as HE.
  pose proof (Z.mod_pos_bound w 8388608 ltac:(lia)) as HM.
  pose proof (Z.div_mod w 8388608 ltac:(lia)) as Hw1.
  pose proof (Z.div_mod (w / 8388608) 256 ltac:(lia)) as Hw2.
  assert (Hs : sign_bit (2147483648 <=? w) = w / 8388608 / 256 * 2147483648).
  { assert (0 <= w / 8388608 / 256 < 2) by (Z.div_mod_to_equations; lia).
    destruct (Z.leb_spec 2147483648 w); cbn [sign_bit]; change (2 ^ 31) with 2147483648;
      Z.div_mod_to_equations; lia. }
  destruct (Z.eqb_spec (w / 8388608 mod 256) 0) as [HE0 | HE0].
  - destruct (w mod 8388608) as [ | m | m ] eqn:Hm; intros _; cbn [bits_of_binary32];
      [ | | lia].
    + rewrite Hs. lia.
    + change (2 ^ 23) with 8388608.
      destruct (Z.ltb_spec (Zpos m) 8388608); [ | lia]. rewrite Hs. lia.
  - destruct (Z.eqb_spec (w / 8388608 mod 256) 255) as [HE1 | HE1].
    + destruct (Z.eqb_spec (w mod 8388608) 0) as [HM0 | HM0]; intros Hnan;
        [ | contradiction Hnan; reflexivity].
      cbn [bits_of_binary32]. change (2 ^ 23) with 8388608. rewrite Hs. lia.
    + destruct (w mod 8388608 + 8388608) as [ | m | m ] eqn:Hm; intros _; try lia.
      cbn [bits_of_binary32]. change (2 ^ 23) with 8388608.
      destruct (Z.ltb_spec (Zpos m) 8388608); [lia | ]. rewrite Hs. lia.
Qed.

(** ** Fields and the view *)

(** A field that lies inside the view is read without a throw. *)
Lemma read_fits (alloc : Allocator -> Field.t * Allocator) (allocator : Allocator)
      (view : DataView) (baseOffset : Z) :
  In alloc allocators ->
  let f := fst (alloc allocator) in
  fits f view baseOffset -> exists n, Field.read f view baseOffset = Normal n.
Proof.
  intros Hin f. subst f.
  destruct (allocators_cases alloc allocator Hin) as [_ Hkind]. cbv zeta in Hkind.
  set (f := fst (alloc allocator)) in *.
  intros Hfit. apply fits_in_view in Hfit.
  destruct Hkind as [(Hs & Hrd & _) | [(Hs & Hrd & _) | (Hs & Hrd & _)]];
    rewrite Hrd; rewrite Hs in Hfit;
    unfold getUint8, getUint32, getFloat32; rewrite Hfit; eauto.
Qed.

(** A write that succeeds on a view of bytes returns a view of bytes. *)
Lemma write_bytes (alloc : Allocator -> Field.t * Allocator) (allocator : Allocator)
      (view view' : DataView) (baseOffset : Z) (value : number) :
  In alloc allocators ->
  Field.write (fst (alloc allocator)) view baseOffset value = Normal view' ->
  bytes view -> bytes view'.
Proof.
  intros Hin Hw Hb.
  destruct (write_frame alloc allocator view view' baseOffset value Hin Hw)
    as (_ & Hlen & Hout & Hin').
  set (f := fst (alloc allocator)) in *.
  unfold bytes in *. rewrite Forall_forall in *.
  intros b Hb'. destruct (In_nth view' b 0 Hb') as (n & Hn & <-).
  replace (nth n view' 0) with (getByte view' (Z.of_nat n))
    by (unfold getByte; rewrite Nat2Z.id; reflexivity).
  assert (Hdec : field_range f baseOffset (Z.of_nat n) \/ ~ field_range f baseOffset (Z.of_nat n))
    by (unfold field_range; lia).
  destruct Hdec as [Hy | Hn'].
  - apply Hin', Hy.
  - rewrite Hout by (try assumption; lia).
    unfold getByte. rewrite Nat2Z.id. apply Hb, nth_In. lia.
Qed.

(** X10: a write touches nothing but the bytes of its field.  For a field
    made by any of the three allocators, written at an integer base offset:
    a write that returns has found the field inside the view, and the view
    it returns has the length of the old one and differs from it only in
    the [size] bytes of the field, each of which now holds a value of
    [[0, 256)], so that a view of bytes stays one; the field is then read
    without a throw. *)
Theorem field_write_stays_in_field :
  forall (alloc : Allocator -> Field.t * Allocator) (allocator : Allocator)
         (view view' : DataView) (baseOffset : Z) (value : number),
    In alloc allocators ->
    let f := fst (alloc allocator) in
    Field.write f view baseOffset value = Normal view' ->
    fits f view baseOffset /\
    List.length view' = List.length view /\
    (forall i, 0 <= i -> ~ field_range f baseOffset i -> getByte view' i = getByte view i) /\
    (forall i, field_range f baseOffset i -> 0 <= getByte view' i < 256) /\
    (bytes view -> bytes view') /\
    (exists r, Field.read f view' baseOffset = Normal r).
Proof.
  intros alloc allocator view view' baseOffset value Hin f Hw.
  destruct (write_frame alloc allocator view view' baseOffset value Hin Hw)
    as (Hfit & Hlen & Hout & Hin').
  fold f in Hfit, Hout, Hin'.
  split; [exact Hfit | ]. split; [exact Hlen | ]. split; [exact Hout | ].
  split; [exact Hin' | ]. split.
  - apply (write_bytes alloc allocator view view' baseOffset value Hin Hw).
  - apply (read_fits alloc allocator view' baseOffset Hin).
    unfold fits in *. fold f. rewrite Hlen. exact Hfit.
Qed.

Lemma field_write_stays_in_field_witness :
  List.length [7; 44; 1; 0; 0; 9; 9] = List.length [7; 8; 8; 8; 8; 9; 9] /\
  getByte [7; 44; 1; 0; 0; 9; 9] 0 = getByte [7; 8; 8; 8; 8; 9; 9] 0 /\
  getByte [7; 44; 1; 0; 0; 9; 9] 5 = getByte [7; 8; 8; 8; 8; 9; 9] 5 /\
  bytes [7; 44; 1; 0; 0; 9; 9].
Proof.
  destruct (field_write_stays_in_field allocUint32Field {| iota := 1 |}
              [7; 8; 8; 8; 8; 9; 9] [7; 44; 1; 0; 0; 9; 9] 0 (num_of_Z 300)
              ltac:(right; left; reflexivity) ltac:(vm_compute; reflexivity))
    as (_ & Hlen & Hout & _ & Hb & _).
  split; [exact Hlen | ]. split; [ | split].
  - apply Hout; [lia | ]. unfold field_range. cbn. lia.
  - apply Hout; [lia | ]. unfold field_range. cbn. lia.
  - apply Hb. repeat constructor; lia.
Defined.

Lemma write_then_read_other (alloc1 alloc2 : Allocator -> Field.t * Allocator)
      (a1 a2 : Allocator) (view view' : DataView) (baseOffset : Z) (value : number) :
  In alloc1 allocators -> In alloc2 allocators ->
  let f := fst (alloc1 a1) in
  let g := fst (alloc2 a2) in
  Field.offset f + Field.size f <= Field.offset g \/
  Field.offset g + Field.size g <= Field.offset f ->
  Field.write f view baseOffset value = Normal view' ->
  Field.read g view' baseOffset = Field.read g view baseOffset.
Proof.
  intros H1 H2 f g Hdisj Hw.
  destruct (write_frame alloc1 a1 view view' baseOffset value H1 Hw) as (_ & Hlen & Hout & _).
  apply (read_local alloc2 a2 view view' baseOffset H2 Hlen).
  intros i Hi Hg. apply Hout; [exact Hi | ].
  fold f. fold g in Hg. unfold field_range in *. lia.
Qed.

(** X11: fields that do not overlap do not interfere.  Writing a field
    leaves what every field with a disjoint byte range reads unchanged, for
    fields made by any of the three allocators; fields allocated one after
    the other from one allocator are disjoint, the second starting where
    the first ends; so each of the five fields of the handshake record can
    be written without disturbing the other four. *)
Theorem fields_do_not_interfere :
  (forall (alloc1 alloc2 : Allocator -> Field.t * Allocator) (a1 a2 : Allocator)
          (view view' : DataView) (baseOffset : Z) (value : number),
      In alloc1 allocators -> In alloc2 allocators ->
      let f := fst (alloc1 a1) in
      let g := fst (alloc2 a2) in
      Field.offset f + Field.size f <= Field.offset g \/
      Field.offset g + Field.size g <= Field.offset f ->
      Field.write f view baseOffset value = Normal view' ->
      Field.read g view' baseOffset = Field.read g view baseOffset) /\
  (forall (alloc1 alloc2 : Allocator -> Field.t * Allocator) (allocator : Allocator),
      In alloc1 allocators -> In alloc2 allocators ->
      let f := fst (alloc1 allocator) in
      let g := fst (alloc2 (snd (alloc1 allocator))) in
      Field.offset g = Field.offset f + Field.size f) /\
  (forall (f g : Field.t) (view view' : DataView) (baseOffset : Z) (value : number),
      In f HelloStruct_fields -> In g HelloStruct_fields ->
      Field.offset f <> Field.offset g ->
      Field.write f view baseOffset value = Normal view' ->
      Field.read g view' baseOffset = Field.read g view baseOffset).
Proof.
  split; [exact write_then_read_other | split].
  - intros alloc1 alloc2 allocator H1 H2.
    destruct H1 as [<- | [<- | [<- | []]]], H2 as [<- | [<- | [<- | []]]]; reflexivity.
  - intros f g view view' baseOffset value Hf Hg Hne Hw.
    assert (Hfields : forall h, In h HelloStruct_fields ->
              exists alloc a, In alloc allocators /\ h = fst (alloc a) /\
                (Field.offset h = 0 /\ Field.size h = 1 \/
                 Field.offset h = 1 /\ Field.size h = 4 \/
                 Field.offset h = 5 /\ Field.size h = 4 \/
                 Field.offset h = 9 /\ Field.size h = 4 \/
                 Field.offset h = 13 /\ Field.size h = 1)).
    { intros h [<- | [<- | [<- | [<- | [<- | []]]]]].
      - exists allocUint8Field, {| iota := 0 |}. cbn. auto 10.
      - exists allocUint32Field, {| iota := 1 |}. cbn. auto 10.
      - exists allocFloat32Field, {| iota := 5 |}. cbn. auto 10.
      - exists allocFloat32Field, {| iota := 9 |}. cbn. auto 10.
      - exists allocUint8Field, {| iota := 13 |}. cbn. auto 10. }
    destruct (Hfields f Hf) as (alloc1 & a1 & H1 & -> & Hof).
    destruct (Hfields g Hg) as (alloc2 & a2 & H2 & -> & Hog).
    apply (write_then_read_other alloc1 alloc2 a1 a2 view view' baseOffset value H1 H2);
      [ | exact Hw].
    lia.
Qed.

Lemma fields_do_not_interfere_witness :
  Field.read (Hello.x HelloStruct)
             [0; 4; 3; 2; 1; 0; 0; 128; 63; 0; 0; 32; 192; 200] 0
  = Field.read (Hello.x HelloStruct)
               [0; 4; 3; 2; 1; 0; 0; 128; 63; 0; 0; 32; 192; 255] 0.
Proof.
  apply (proj2 (proj2 fields_do_not_interfere) (Hello.hue HelloStruct) (Hello.x HelloStruct)
           _ _ 0 (num_of_Z 200)).
  - right. right. right. right. left. reflexivity.
  - right. right. left. reflexivity.
  - discriminate.
  - reflexivity.
Defined.

(** ** Float fields *)

Lemma fround_not_finite (v : number) : is_finite v = false -> fround v = v.
Proof. destruct v; try discriminate; reflexivity. Qed.

Lemma float32_write_read (allocator : Allocator) (view : DataView) (baseOffset : Z)
      (v : number) :
  let f := fst (allocFloat32Field allocator) in
  fits f view baseOffset ->
  exists view',
    Field.write f view baseOffset v = Normal view' /\
    view' = setWord view (baseOffset + iota allocator) (bits_of_binary32 (to_binary32 v)) /\
    Field.read f view' baseOffset = Normal (fround v) /\
    Field.write f view' baseOffset (fround v) = Normal view'.
Proof.
  intros f [Hlo Hhi]. subst f. cbn [allocFloat32Field fst Field.offset Field.size
    Field.read Field.write] in *. unfold FLOAT32_SIZE in Hhi.
  set (i := baseOffset + iota allocator) in *.
  set (w := bits_of_binary32 (to_binary32 v)).
  pose proof (bits_of_binary32_range _ (to_binary32_valid v)) as Hw. fold w in Hw.
  exists (setWord view i w).
  unfold setFloat32, getFloat32.
  rewrite !in_view_true by (rewrite ?length_setWord; lia).
  split; [reflexivity | ]. split; [reflexivity | ].
  split; [f_equal; apply getWord_binary32; lia | ].
  f_equal. unfold fround.
  rewrite to_binary32_of_binary32 by apply to_binary32_valid. fold w.
  rewrite <- (getWord_setWord_same view i w) at 2 by lia.
  apply setWord_getWord.
  intros k Hk. apply getByte_setWord_range; lia.
Qed.

(** X12: what a float field gives back.  Written to a field made by
    [allocFloat32Field] that lies inside the view, a number [v] is read back
    as [fround v], its rounding to single precision.  Reading loses nothing
    more: the value read back, written again, stores the same bytes and
    reads back as itself.  [NaN], the infinities and the zeros are read back
    as they are, and so is every multiple [n / 2 ** j] with [|n| < 2 ** 24]
    and [0 <= j <= 149], among them all whole numbers up to [2 ** 24]. *)
Theorem float32_field_round_trip :
  forall (allocator : Allocator) (view : DataView) (baseOffset : Z) (v : number),
    let f := fst (allocFloat32Field allocator) in
    fits f view baseOffset ->
    exists view',
      Field.write f view baseOffset v = Normal view' /\
      Field.read f view' baseOffset = Normal (fround v) /\
      Field.write f view' baseOffset (fround v) = Normal view' /\
      fround (fround v) = fround v /\
      (is_finite v = false -> fround v = v) /\
      (forall s : bool, v = S754_zero s -> fround v = v) /\
      (forall n j : Z, Z.abs n < 2 ^ 24 -> 0 <= j <= 149 -> v = dyadic n j -> fround v = v).
Proof.
  intros allocator view baseOffset v f Hfit.
  destruct (float32_write_read allocator view baseOffset v Hfit) as (view' & Hw & _ & Hr & Hw').
  exists view'. repeat split; try assumption.
  - apply fround_idempotent.
  - apply fround_not_finite.
  - intros s ->. reflexivity.
  - intros n j Hn Hj ->. apply fround_dyadic; assumption.
Qed.

Lemma float32_field_round_trip_witness :
  exists view',
    Field.write (Hello.x HelloStruct) (repeat 0 14) 0 (dyadic 12345 4) = Normal view' /\
    Field.read (Hello.x HelloStruct) view' 0 = Normal (dyadic 12345 4).
Proof.
  destruct (float32_field_round_trip {| iota := 5 |} (repeat 0 14) 0 (dyadic 12345 4))
    as (view' & Hw & Hr & _ & _ & _ & _ & Hgrid).
  - unfold fits. cbn. lia.
  - exists view'. split; [exact Hw | ].
    rewrite (Hgrid 12345 4 ltac:(reflexivity) ltac:(lia) eq_refl) in Hr. exact Hr.
Defined.

(** The rounding to single precision of a finite number below [2 ^ k] is
    finite and within [2 ^ (k - 25)] of it: half a unit in the last place. *)
Lemma fround_error (v : number) (k : Z) :
  is_finite v = true -> (Qabs (SF2Q v) < (2 # 1) ^ k)%Q -> -125 <= k <= 127 ->
  is_finite (fround v) = true /\
  (Qabs (SF2Q (fround v) - SF2Q v) <= (2 # 1) ^ (k - 25))%Q.
Proof.
  intros Hfin Hmag Hk.
  destruct (of_binary32_value (to_binary32 v) (to_binary32_valid v)) as [Hf Hv].
  unfold fround. rewrite Hf, Hv.
  destruct v as [ s | s | | s m e ]; try discriminate.
  - cbn [to_binary32 is_finite SF2Q]. split; [reflexivity | ].
    setoid_replace (0 - 0)%Q with 0%Q by ring. apply Qlt_le_weak, Qpow2_pos.
  - pose proof (mag_le_of_value _ _ Hfin Hmag) as HD. cbn [mag_le] in HD.
    cbn [to_binary32].
    pose proof (binary_round_shape prec32 emax32 s m e ltac:(reflexivity) ltac:(reflexivity))
      as Hshape.
    pose proof (binary_round_near prec32 emax32 s m e ltac:(reflexivity) ltac:(reflexivity))
      as Hnear.
    cbv zeta in Hshape, Hnear.
    destruct Hnear as [[s' Hinf] | (Hfin' & _ & Herr)].
    + exfalso. rewrite Hinf in Hshape.
      destruct Hshape as [H | [[_ Hov] | (m' & e' & H & _)]]; try discriminate.
      unfold emin, emax32, prec32 in Hov. lia.
    + split; [exact Hfin' | ].
      eapply Qle_trans; [exact Herr | ].
      apply Qpow2_le_mono. unfold fexp, emin, emax32, prec32. lia.
Qed.

(** X13: the error of a float field.  A finite number smaller than
    [2 ** k] in magnitude, for [k] from -125 to 127, written to a field made
    by [allocFloat32Field] and read back, comes back finite and within
    [2 ** (k - 25)] of the number written, half a unit in the last place of
    single precision; for a coordinate inside the world bounds that is
    within [2 ** -15], about 0.00003. *)
Theorem float32_field_error :
  forall (allocator : Allocator) (view : DataView) (baseOffset : Z) (v : number) (k : Z),
    let f := fst (allocFloat32Field allocator) in
    fits f view baseOffset ->
    is_finite v = true -> (Qabs (SF2Q v) < (2 # 1) ^ k)%Q -> -125 <= k <= 127 ->
    exists (view' : DataView) (r : number),
      Field.write f view baseOffset v = Normal view' /\
      Field.read f view' baseOffset = Normal r /\
      is_finite r = true /\
      (Qabs (SF2Q r - SF2Q v) <= (2 # 1) ^ (k - 25))%Q /\
      (in_range v WORLD_WIDTH \/ in_range v WORLD_HEIGHT ->
       (Qabs (SF2Q r - SF2Q v) <= 1 # 32768)%Q).
Proof.
  intros allocator view baseOffset v k f Hfit Hfin Hmag Hk.
  destruct (float32_write_read allocator view baseOffset v Hfit) as (view' & Hw & _ & Hr & _).
  destruct (fround_error v k Hfin Hmag Hk) as [Hf Herr].
  exists view', (fround v). repeat split; try assumption.
  intros Hin.
  assert (H10 : (Qabs (SF2Q v) < (2 # 1) ^ 10)%Q).
  { assert (Hb : (0 <= SF2Q v /\ SF2Q v < 800)%Q).
    { destruct Hin as [(_ & Hlo & Hhi) | (_ & Hlo & Hhi)]; split; try exact Hlo.
      - rewrite WORLD_WIDTH_value in Hhi. exact Hhi.
      - rewrite WORLD_HEIGHT_value in Hhi. lra. }
    destruct Hb as [Hlo Hhi]. rewrite Qabs_pos by exact Hlo.
    eapply Qlt_trans; [exact Hhi | reflexivity]. }
  destruct (fround_error v 10 Hfin H10 ltac:(lia)) as [_ Herr10].
  exact Herr10.
Qed.

Lemma float32_field_error_witness :
  exists (view' : DataView) (r : number),
    Field.write (Hello.x HelloStruct) (repeat 0 14) 0 tenth = Normal view' /\
    Field.read (Hello.x HelloStruct) view' 0 = Normal r /\
    (Qabs (SF2Q r - SF2Q tenth) <= (2 # 1) ^ (-3 - 25))%Q.
Proof.
  destruct (float32_field_error {| iota := 5 |} (repeat 0 14) 0 tenth (-3))
    as (view' & r & Hw & Hr & _ & Herr & _).
  - unfold fits. cbn. lia.
  - reflexivity.
  - reflexivity.
  - lia.
  - exists view', r. repeat split; assumption.
Defined.

(** X14: writing back what was read changes nothing.  When a field made by
    any of the three allocators is read from a view of bytes and the number
    read, if it is not [NaN], is written to the same field, the view is left
    exactly as it was: decoding and encoding again reproduces the bytes.
    (The bytes of a [NaN] are not kept: every [NaN] is written as the same
    quiet [NaN].) *)
Theorem field_rewrite_is_identity :
  forall (alloc : Allocator -> Field.t * Allocator) (allocator : Allocator)
         (view : DataView) (baseOffset : Z) (r : number),
    In alloc allocators -> bytes view ->
    let f := fst (alloc allocator) in
    Field.read f view baseOffset = Normal r -> r <> S754_nan ->
    Field.write f view baseOffset r = Normal view.
Proof.
  intros alloc allocator view baseOffset r Hin Hb f Hr Hnan. subst f.
  destruct (allocators_cases alloc allocator Hin) as [_ Hkind]. cbv zeta in Hkind.
  set (f := fst (alloc allocator)) in *.
  set (i := baseOffset + Field.offset f) in *.
  destruct Hkind as [(Hs & Hrd & Hwr) | [(Hs & Hrd & Hwr) | (Hs & Hrd & Hwr)]];
    rewrite Hrd in Hr; rewrite Hwr; fold i in Hr |- *;
    unfold getUint8, getUint32, getFloat32 in Hr;
    unfold setUint8, setUint32, setFloat32;
    destruct (in_view view i _) eqn:Hv; try discriminate;
    apply in_view_spec in Hv; injection Hr as <-; f_equal.
  - rewrite ToUint8_num_of_Z by (apply getByte_bytes; [exact Hb | lia]).
    apply setByte_getByte.
  - destruct (setWord_getWord view i) as [Hset Hrange].
    { intros k Hk. apply getByte_bytes; [exact Hb | lia]. }
    rewrite ToUint32_num_of_Z by exact Hrange. exact Hset.
  - destruct (setWord_getWord view i) as [Hset Hrange].
    { intros k Hk. apply getByte_bytes; [exact Hb | lia]. }
    rewrite to_binary32_of_binary32 by (apply binary32_of_bits_valid, Hrange).
    rewrite bits_of_binary32_of_bits; [exact Hset | exact Hrange | ].
    intros Heq. apply Hnan. rewrite Heq. reflexivity.
Qed.

Lemma field_rewrite_is_identity_witness :
  Field.write (Hello.x HelloStruct) [0; 4; 3; 2; 1; 0; 0; 128; 63; 0; 0; 32; 192; 255] 0
              (num_of_Z 1)
  = Normal [0; 4; 3; 2; 1; 0; 0; 128; 63; 0; 0; 32; 192; 255].
Proof.
  apply (field_rewrite_is_identity allocFloat32Field {| iota := 5 |}).
  - right. right. left. reflexivity.
  - repeat constructor; lia.
  - vm_compute. reflexivity.
  - discriminate.
Defined.

(** ** The handshake record *)

(** The rounding to single precision of a coordinate inside the world is
    within [2 ^ -15] of it. *)
Lemma fround_error_in_world (v : number) :
  in_range v WORLD_WIDTH \/ in_range v WORLD_HEIGHT ->
  is_finite (fround v) = true /\ (Qabs (SF2Q (fround v) - SF2Q v) <= 1 # 32768)%Q.
Proof.
  intros Hin.
  assert (Hfin : is_finite v = true) by (destruct Hin as [[H _] | [H _]]; exact H).
  assert (H10 : (Qabs (SF2Q v) < (2 # 1) ^ 10)%Q).
  { assert (Hb : (0 <= SF2Q v /\ SF2Q v < 800)%Q).
    { destruct Hin as [(_ & Hlo & Hhi) | (_ & Hlo & Hhi)]; split; try exact Hlo.
      - rewrite WORLD_WIDTH_value in Hhi. exact Hhi.
      - rewrite WORLD_HEIGHT_value in Hhi. lra. }
    destruct Hb as [Hlo Hhi]. rewrite Qabs_pos by exact Hlo.
    eapply Qlt_trans; [exact Hhi | reflexivity]. }
  exact (fround_error v 10 Hfin H10 ltac:(lia)).
Qed.

(** C4: for an [id] that is an integer of [[0, 2^32)], a [hue] that is an
    integer of [[0, 255]] and any [x] and [y], writing the five fields of
    the handshake record into a view that has room for it and reading them
    back returns the same [id] and [hue], and [x] and [y] rounded to single
    precision: the binary32 value nearest to what was written, read back
    exactly.  What is read for [x] and [y] is tied to what was written: a
    finite coordinate smaller than [2 ^ k] in magnitude, for [k] from -125
    to 127, comes back finite and within [2 ^ (k - 25)] of itself, half a
    unit in the last place of single precision; a coordinate inside the
    world comes back within [2 ^ -15]; and a coordinate that single
    precision can hold comes back as it was written: [NaN], an infinity, a
    zero, and every multiple [n * 2 ^ (- j)] with [|n| < 2 ^ 24] and
    [0 <= j <= 149]. *)
Theorem HelloStruct_round_trip :
  forall (view : DataView) (baseOffset : Z) (id x y hue : number) (n h : Z),
    in_view view baseOffset (Hello.size HelloStruct) = true ->
    id = num_of_Z n -> 0 <= n < 2 ^ 32 ->
    hue = num_of_Z h -> 0 <= h <= 255 ->
    exists view',
      writeHello view baseOffset id x y hue = Normal view' /\
      Field.read (Hello.kind HelloStruct) view' baseOffset = Normal MessageKind.Hello /\
      Field.read (Hello.id HelloStruct) view' baseOffset = Normal id /\
      Field.read (Hello.x HelloStruct) view' baseOffset = Normal (fround x) /\
      Field.read (Hello.y HelloStruct) view' baseOffset = Normal (fround y) /\
      Field.read (Hello.hue HelloStruct) view' baseOffset = Normal hue /\
      fround x = of_binary32 (to_binary32 x) /\
      valid_binary prec32 emax32 (to_binary32 x) = true /\
      (SF2Q (fround x) == SF2Q (to_binary32 x))%Q /\
      fround y = of_binary32 (to_binary32 y) /\
      valid_binary prec32 emax32 (to_binary32 y) = true /\
      (SF2Q (fround y) == SF2Q (to_binary32 y))%Q /\
      (forall k : Z,
          is_finite x = true -> (Qabs (SF2Q x) < (2 # 1) ^ k)%Q -> -125 <= k <= 127 ->
          is_finite (fround x) = true /\
          (Qabs (SF2Q (fround x) - SF2Q x) <= (2 # 1) ^ (k - 25))%Q) /\
      (forall k : Z,
          is_finite y = true -> (Qabs (SF2Q y) < (2 # 1) ^ k)%Q -> -125 <= k <= 127 ->
          is_finite (fround y) = true /\
          (Qabs (SF2Q (fround y) - SF2Q y) <= (2 # 1) ^ (k - 25))%Q) /\
      (in_range x WORLD_WIDTH ->
       is_finite (fround x) = true /\ (Qabs (SF2Q (fround x) - SF2Q x) <= 1 # 32768)%Q) /\
      (in_range y WORLD_HEIGHT ->
       is_finite (fround y) = true /\ (Qabs (SF2Q (fround y) - SF2Q y) <= 1 # 32768)%Q) /\
      (is_finite x = false -> fround x = x) /\
      (is_finite y = false -> fround y = y) /\
      (forall s : bool, x = S754_zero s -> fround x = x) /\
      (forall s : bool, y = S754_zero s -> fround y = y) /\
      (forall m j : Z, Z.abs m < 2 ^ 24 -> 0 <= j <= 149 -> x = dyadic m j -> fround x = x) /\
      (forall m j : Z, Z.abs m < 2 ^ 24 -> 0 <= j <= 149 -> y = dyadic m j -> fround y = y).
Proof.
  intros view baseOffset id x y hue n h Hview -> Hn -> Hh.
  destruct (writeHello_reads view baseOffset (num_of_Z n) x y (num_of_Z h) Hview)
    as (view' & Hw & _ & Hk & Hi & Hx & Hy & Hhue).
  rewrite ToUint32_num_of_Z in Hi by exact Hn.
  rewrite ToUint8_num_of_Z in Hhue by (change (2 ^ 8) with 256; lia).
  exists view'.
  do 6 (split; [assumption | ]).
  split; [reflexivity | ].
  split; [apply to_binary32_valid | ].
  split; [apply of_binary32_value, to_binary32_valid | ].
  split; [reflexivity | ].
  split; [apply to_binary32_valid | ].
  split; [apply of_binary32_value, to_binary32_valid | ].
  split; [intros k; apply fround_error | ].
  split; [intros k; apply fround_error | ].
  split; [intros H; apply fround_error_in_world; left; exact H | ].
  split; [intros H; apply fround_error_in_world; right; exact H | ].
  split; [apply fround_not_finite | ].
  split; [apply fround_not_finite | ].
  split; [intros s ->; reflexivity | ].
  split; [intros s ->; reflexivity | ].
  split; intros m j Hm Hj ->; apply fround_dyadic; assumption.
Qed.

Lemma HelloStruct_round_trip_witness :
  exists view',
    writeHello (repeat 0 14) 0 (num_of_Z 16909060) tenth (num_of_Z 300) (num_of_Z 255)
      = Normal view' /\
    Field.read (Hello.id HelloStruct) view' 0 = Normal (num_of_Z 16909060) /\
    Field.read (Hello.x HelloStruct) view' 0 = Normal (fround tenth) /\
    Field.read (Hello.hue HelloStruct) view' 0 = Normal (num_of_Z 255) /\
    (Qabs (SF2Q (fround tenth) - SF2Q tenth) <= (2 # 1) ^ (-3 - 25))%Q /\
    Field.read (Hello.y HelloStruct) view' 0 = Normal (num_of_Z 300).
Proof.
  destruct (HelloStruct_round_trip (repeat 0 14) 0 (num_of_Z 16909060) tenth (num_of_Z 300)
              (num_of_Z 255) 16909060 255 eq_refl eq_refl ltac:(lia) eq_refl ltac:(lia))
    as (view' & Hw & _ & Hi & Hx & Hy & Hh & _ & _ & _ & _ & _ & _ & Hex & _ & _ & _ & _ & _
        & _ & _ & _ & Hgrid).
  exists view'. split; [exact Hw | ]. split; [exact Hi | ]. split; [exact Hx | ].
  split; [exact Hh | ]. split.
  - apply (Hex (-3)); [reflexivity | reflexivity | lia].
  - rewrite (Hgrid 300 0 ltac:(reflexivity) ltac:(lia) eq_refl) in Hy. exact Hy.
Defined.


(** * More about the validators *)

(** A value a validator returns [true] for is an object of its kind. *)
Lemma validator_kind (Number_toString : number -> string) (arg : JSValue) :
  (isPlayerJoined arg = Normal (JSBool true) ->
   exists props, arg = JSObject props /\ fieldOf props f_kind = JSString "PlayerJoined") /\
  (isPlayerLeft arg = Normal (JSBool true) ->
   exists props, arg = JSObject props /\ fieldOf props f_kind = JSString "PlayerLeft") /\
  (isAmmaMoving Number_toString arg = Normal (JSBool true) ->
   exists props, arg = JSObject props /\ fieldOf props f_kind = JSString "AmmaMoving") /\
  (isPlayerMoving Number_toString arg = Normal (JSBool true) ->
   exists props, arg = JSObject props /\ fieldOf props f_kind = JSString "PlayerMoving").
Proof.
  rewrite isPlayerJoined_eq, isPlayerLeft_eq, isAmmaMoving_eq, isPlayerMoving_eq.
  destruct arg as [ | | [ | ] | [ | | | ] | [ | ] | | props ];
    cbn [ToBoolean]; repeat split; try discriminate.
  1, 2: intros [= H]; rewrite !andb_true_iff, strictEqualsString_true in H;
    exists props; tauto.
  all: rewrite guarded_direction_true, !andb_true_iff, strictEqualsString_true;
    intros H; exists props; tauto.
Qed.

(** X15: the validators tell the message kinds apart.  No value is
    accepted by two of the four validators: a value one of them returns
    [true] for is an object whose [kind] is that validator's literal, and
    every other validator returns [false] for it. *)
Theorem validators_mutually_exclusive :
  forall (Number_toString : number -> string) (arg : JSValue),
    (isPlayerJoined arg = Normal (JSBool true) ->
     isPlayerLeft arg = Normal (JSBool false) /\
     isAmmaMoving Number_toString arg = Normal (JSBool false) /\
     isPlayerMoving Number_toString arg = Normal (JSBool false)) /\
    (isPlayerLeft arg = Normal (JSBool true) ->
     isPlayerJoined arg = Normal (JSBool false) /\
     isAmmaMoving Number_toString arg = Normal (JSBool false) /\
     isPlayerMoving Number_toString arg = Normal (JSBool false)) /\
    (isAmmaMoving Number_toString arg = Normal (JSBool true) ->
     isPlayerJoined arg = Normal (JSBool false) /\
     isPlayerLeft arg = Normal (JSBool false) /\
     isPlayerMoving Number_toString arg = Normal (JSBool false)) /\
    (isPlayerMoving Number_toString arg = Normal (JSBool true) ->
     isPlayerJoined arg = Normal (JSBool false) /\
     isPlayerLeft arg = Normal (JSBool false) /\
     isAmmaMoving Number_toString arg = Normal (JSBool false)).
Proof.
  intros Number_toString arg.
  destruct (validator_kind Number_toString arg) as (HJ & HL & HA & HM).
  split; [ | split; [ | split]]; intros H;
    [ destruct (HJ H) as (props & -> & Hk) | destruct (HL H) as (props & -> & Hk)
    | destruct (HA H) as (props & -> & Hk) | destruct (HM H) as (props & -> & Hk) ];
    rewrite ?isPlayerJoined_eq, ?isPlayerLeft_eq, ?isAmmaMoving_eq, ?isPlayerMoving_eq;
    rewrite Hk; repeat split; reflexivity.
Qed.

Lemma validators_mutually_exclusive_witness :
  isPlayerJoined amma_toString = Normal (JSBool false) /\
  isPlayerLeft amma_toString = Normal (JSBool false) /\
  isPlayerMoving (fun _ => "0"%string) amma_toString = Normal (JSBool false).
Proof.
  apply (proj1 (proj2 (proj2 (validators_mutually_exclusive (fun _ => "0"%string)
                                amma_toString)))).
  reflexivity.
Defined.

Lemma fieldOf_cons_other (key : string) (value : JSValue) (props : list (string * JSValue))
      (f : EventField) :
  fieldName f <> key -> fieldOf ((key, value) :: props) f = fieldOf props f.
Proof.
  intros Hne. unfold fieldOf. cbn [lookup].
  destruct (String.eqb_spec key (fieldName f)) as [Heq | _]; [congruence | reflexivity].
Qed.

Lemma lookup_app_other {A : Type} (key k : string) (v : A) (props : list (string * A)) :
  k <> key -> lookup key (props ++ [(k, v)]) = lookup key props.
Proof.
  intros Hne. induction props as [ | [k' v'] rest IH ]; cbn [lookup app].
  - destruct (String.eqb_spec k key); [congruence | reflexivity].
  - rewrite IH. reflexivity.
Qed.

Lemma fieldOf_app_other (key : string) (value : JSValue) (props : list (string * JSValue))
      (f : EventField) :
  fieldName f <> key -> fieldOf (props ++ [(key, value)]) f = fieldOf props f.
Proof.
  intros Hne. unfold fieldOf. rewrite lookup_app_other by congruence. reflexivity.
Qed.

Lemma validators_same_fields (Number_toString : number -> string)
      (props props' : list (string * JSValue)) :
  (forall f : EventField, fieldOf props' f = fieldOf props f) ->
  isPlayerJoined (JSObject props') = isPlayerJoined (JSObject props) /\
  isPlayerLeft (JSObject props') = isPlayerLeft (JSObject props) /\
  isAmmaMoving Number_toString (JSObject props')
    = isAmmaMoving Number_toString (JSObject props) /\
  isPlayerMoving Number_toString (JSObject props')
    = isPlayerMoving Number_toString (JSObject props).
Proof.
  intros H. rewrite !isPlayerJoined_eq, !isPlayerLeft_eq, !isAmmaMoving_eq, !isPlayerMoving_eq.
  rewrite !H. repeat split; reflexivity.
Qed.

(** X16: the validators look at nothing but the properties they name.
    What each validator returns for an object depends only on what the
    object's properties [kind], [id], [x], [y], [hue], [start] and
    [direction] read as; a property of any other name, wherever it stands
    among the others, changes no validator's answer: a message with extra
    properties is accepted as if they were not there. *)
Theorem validators_ignore_other_properties :
  forall (Number_toString : number -> string) (props : list (string * JSValue)),
    (forall props' : list (string * JSValue),
        (forall f : EventField, fieldOf props' f = fieldOf props f) ->
        isPlayerJoined (JSObject props') = isPlayerJoined (JSObject props) /\
        isPlayerLeft (JSObject props') = isPlayerLeft (JSObject props) /\
        isAmmaMoving Number_toString (JSObject props')
          = isAmmaMoving Number_toString (JSObject props) /\
        isPlayerMoving Number_toString (JSObject props')
          = isPlayerMoving Number_toString (JSObject props)) /\
    (forall (key : string) (value : JSValue),
        ~ In key ["kind"; "id"; "x"; "y"; "hue"; "start"; "direction"]%string ->
        (isPlayerJoined (JSObject ((key, value) :: props)) = isPlayerJoined (JSObject props) /\
         isPlayerLeft (JSObject ((key, value) :: props)) = isPlayerLeft (JSObject props) /\
         isAmmaMoving Number_toString (JSObject ((key, value) :: props))
           = isAmmaMoving Number_toString (JSObject props) /\
         isPlayerMoving Number_toString (JSObject ((key, value) :: props))
           = isPlayerMoving Number_toString (JSObject props)) /\
        (isPlayerJoined (JSObject (props ++ [(key, value)])) = isPlayerJoined (JSObject props) /\
         isPlayerLeft (JSObject (props ++ [(key, value)])) = isPlayerLeft (JSObject props) /\
         isAmmaMoving Number_toString (JSObject (props ++ [(key, value)]))
           = isAmmaMoving Number_toString (JSObject props) /\
         isPlayerMoving Number_toString (JSObject (props ++ [(key, value)]))
           = isPlayerMoving Number_toString (JSObject props))).
Proof.
  intros Number_toString props. split.
  - intros props' H. apply validators_same_fields, H.
  - intros key value Hkey.
    assert (Hne : forall f : EventField, fieldName f <> key).
    { intros f Heq. apply Hkey. rewrite <- Heq. destruct f; cbn; auto 10. }
    split; apply validators_same_fields; intros f;
      [apply fieldOf_cons_other | apply fieldOf_app_other]; apply Hne.
Qed.

Lemma validators_ignore_other_properties_witness :
  isAmmaMoving (fun _ => "0"%string)
    (JSObject [ ("debug"%string, JSBool true); ("kind"%string, JSString "AmmaMoving");
                ("start"%string, JSBool true); ("direction"%string, JSString "toString") ])
  = isAmmaMoving (fun _ => "0"%string) amma_toString.
Proof.
  apply (proj2 (validators_ignore_other_properties (fun _ => "0"%string)
                  [ ("kind"%string, JSString "AmmaMoving");
                    ("start"%string, JSBool true);
                    ("direction"%string, JSString "toString") ])
               "debug"%string (JSBool true)).
  cbn. intros [H | [H | [H | [H | [H | [H | [H | []]]]]]]]; discriminate.
Defined.

(** X17: the validators check types, not values.  A message object whose
    properties have the expected names and primitive types is accepted
    whatever its numbers are: an infinity (which [JSON.parse] returns for
    [1e999]), [NaN], a negative or fractional [id], a [hue] outside 0..255
    and a position outside the world all pass.  A player placed at an
    accepted position that is not finite has [NaN] coordinates from the
    first tick on. *)
Theorem validators_accept_every_number :
  forall (Number_toString : number -> string) (id x0 y0 hue : number) (start : bool),
    isPlayerJoined
      (JSObject [ ("kind"%string, JSString "PlayerJoined"); ("id"%string, JSNumber id);
                  ("x"%string, JSNumber x0); ("y"%string, JSNumber y0);
                  ("hue"%string, JSNumber hue) ]) = Normal (JSBool true) /\
    isPlayerLeft
      (JSObject [ ("kind"%string, JSString "PlayerLeft"); ("id"%string, JSNumber id) ])
      = Normal (JSBool true) /\
    (forall direction : string,
        In direction ["left"; "right"; "up"; "down"]%string ->
        isPlayerMoving Number_toString
          (JSObject [ ("kind"%string, JSString "PlayerMoving"); ("id"%string, JSNumber id);
                      ("x"%string, JSNumber x0); ("y"%string, JSNumber y0);
                      ("start"%string, JSBool start);
                      ("direction"%string, JSString direction) ]) = Normal (JSBool true)) /\
    (forall (m : Moving.t) (deltaTime : number) (later : list number),
        (is_finite x0 = false ->
         x (updatePlayerMany (mkPlayer id x0 y0 m hue) (deltaTime :: later))
         = S754_nan) /\
        (is_finite y0 = false ->
         y (updatePlayerMany (mkPlayer id x0 y0 m hue) (deltaTime :: later))
         = S754_nan)).
Proof.
  intros Number_toString id x0 y0 hue start.
  split; [reflexivity | ]. split; [reflexivity | ]. split.
  - intros direction Hd.
    destruct Hd as [<- | [<- | [<- | [<- | []]]]]; reflexivity.
  - intros m deltaTime later.
    destruct (updatePlayer_non_finite (mkPlayer id x0 y0 m hue) deltaTime) as [Hx Hy].
    destruct (updatePlayerMany_nan later (updatePlayer (mkPlayer id x0 y0 m hue) deltaTime))
      as [Lx Ly].
    split; intros H; [apply Lx, Hx | apply Ly, Hy]; left; exact H.
Qed.

Lemma validators_accept_every_number_witness :
  isPlayerJoined
    (JSObject [ ("kind"%string, JSString "PlayerJoined"); ("id"%string, JSNumber (num_of_Z (-1)));
                ("x"%string, JSNumber (S754_infinity false)); ("y"%string, JSNumber S754_nan);
                ("hue"%string, JSNumber (num_of_Z 1000)) ]) = Normal (JSBool true).
Proof.
  apply (proj1 (validators_accept_every_number (fun _ => "0"%string) (num_of_Z (-1))
                  (S754_infinity false) S754_nan (num_of_Z 1000) true)).
Defined.

(** * More about the codec *)

(** X18: messages sent one after the other reach the socket in that order.
    After [sendMessage] has been called for each message of a list, the
    socket has been given, after whatever it was given before, exactly the
    encodings of those messages, one [send] per message, in the order of
    the calls; and the length a call returns does not depend on the socket
    or on what was sent before. *)
Theorem sendMessage_keeps_order :
  forall (Message : Type) (JSON_stringify : Message -> string)
         (messages : list Message) (socket socket' : Socket),
    sent (fold_left (fun s message => fst (sendMessage Message JSON_stringify s message))
                    messages socket)
      = sent socket ++ map JSON_stringify messages /\
    List.length (sent (fold_left
                         (fun s message => fst (sendMessage Message JSON_stringify s message))
                         messages socket))
      = (List.length (sent socket) + List.length messages)%nat /\
    (forall message : Message,
        snd (sendMessage Message JSON_stringify socket message)
        = snd (sendMessage Message JSON_stringify socket' message)).
Proof.
  intros Message JSON_stringify messages socket socket'.
  assert (H : forall s, sent (fold_left
                (fun s message => fst (sendMessage Message JSON_stringify s message))
                messages s) = sent s ++ map JSON_stringify messages).
  { induction messages as [ | message rest IH ]; intros s; cbn [fold_left map].
    - rewrite app_nil_r. reflexivity.
    - rewrite IH. cbn [sendMessage send fst sent]. rewrite <- app_assoc. reflexivity. }
  split; [apply H | ]. split; [ | reflexivity].
  rewrite H, length_app, length_map. reflexivity.
Qed.


Local Open Scope Z_scope.
Local Open Scope Q_scope.

(** * The wrap of a coordinate inside the world *)

(** The magnitude of a positive integer multiple of a power of two whose
    value lies in [[2 ^ (k - 1), 2 ^ k)]. *)
Lemma digits_of_value (p : positive) (e k : Z) :
  (2 # 1) ^ (k - 1) <= inject_Z (Zpos p) * (2 # 1) ^ e ->
  inject_Z (Zpos p) * (2 # 1) ^ e < (2 # 1) ^ k ->
  (Zpos (digits2_pos p) + e = k)%Z.
Proof.
  intros Hlo Hhi.
  assert (H1 : mag_le (S754_finite false p e) k).
  { apply mag_le_of_value; [reflexivity | ]. rewrite Qabs_SF2Q_finite. exact Hhi. }
  cbn [mag_le] in H1.
  destruct (Z_le_gt_dec (Zpos (digits2_pos p) + e) (k - 1)) as [Hle | Hgt]; [ | lia].
  exfalso.
  assert (H2 : mag_le (S754_finite false p e) (k - 1)) by exact Hle.
  apply value_of_mag_le in H2. rewrite Qabs_SF2Q_finite in H2.
  apply (Qlt_irrefl ((2 # 1) ^ (k - 1))). eapply Qle_lt_trans; eassumption.
Qed.

(** A sum of two finite numbers that lies in [[2 ^ (k - 1), 2 ^ k)],
    between two multiples [N1] and [N2] of the unit in the last place of
    that range, is rounded to a number between the same two multiples,
    within half a unit of the exact sum. *)
Lemma SF64add_between (sx sy : bool) (mx my : positive) (ex ey : Z) (k N1 N2 : Z) :
  let S := SF2Q (S754_finite sx mx ex) + SF2Q (S754_finite sy my ey) in
  let E := fexp prec emax k in
  (k < emax)%Z -> (0 < N1)%Z ->
  (2 # 1) ^ (k - 1) <= S -> S < (2 # 1) ^ k ->
  inject_Z N1 * (2 # 1) ^ E <= S -> S <= inject_Z N2 * (2 # 1) ^ E ->
  exists m e,
    SF64add (S754_finite sx mx ex) (S754_finite sy my ey) = S754_finite false m e /\
    bounded prec emax m e = true /\
    inject_Z N1 * (2 # 1) ^ E <= SF2Q (S754_finite false m e) /\
    SF2Q (S754_finite false m e) <= inject_Z N2 * (2 # 1) ^ E /\
    Qabs (SF2Q (S754_finite false m e) - S) <= (2 # 1) ^ (E - 1).
Proof.
  intros S E Hk HN1 Hlo Hhi HS1 HS2.
  pose proof (SF64add_aligned_value sx sy mx my ex ey) as Hz. cbv zeta in Hz. fold S in Hz.
  unfold SF64add. cbn [SFadd].
  set (ez := Z.min ex ey) in *.
  set (z := (cond_Zopp sx (Zpos (fst (shl_align mx ex ez))) +
             cond_Zopp sy (Zpos (fst (shl_align my ey ez))))%Z) in *.
  assert (Hpos : 0 < S).
  { eapply Qlt_le_trans; [apply (Qpow2_pos (k - 1)) | exact Hlo]. }
  assert (Hzpos : (0 < z)%Z).
  { rewrite <- Hz in Hpos. scale_zero_in ez Hpos.
    apply (proj1 (Qpow2_lt_cancel _ _ _)) in Hpos. exact Hpos. }
  destruct z as [ | p | p ] eqn:Hzeq; try lia. cbn [binary_normalize].
  assert (HD : (Zpos (digits2_pos p) + ez = k)%Z).
  { apply digits_of_value; rewrite Hz; assumption. }
  pose proof (binary_round_shape prec emax false p ez ltac:(reflexivity) ltac:(reflexivity))
    as Hshape.
  pose proof (binary_round_near prec emax false p ez ltac:(reflexivity) ltac:(reflexivity))
    as Hnear.
  cbv zeta in Hshape, Hnear. rewrite HD in Hshape, Hnear. fold E in Hnear.
  change (SF2Q (S754_finite false p ez)) with (inject_Z (Zpos p) * (2 # 1) ^ ez) in Hnear.
  rewrite Hz in Hnear.
  destruct Hnear as [[s' Hinf] | (Hfin & (q & Hq0 & Hq) & Herr)].
  { exfalso. rewrite Hinf in Hshape.
    destruct Hshape as [H | [[_ Hov] | (m' & e' & H & _)]]; try discriminate.
    unfold emin, emax, prec in *. lia. }
  cbn [cond_Zopp] in Hq.
  assert (Hbounds : (N1 <= q <= N2)%Z).
  { rewrite Hq in Herr. apply Qabs_Qle_condition in Herr. destruct Herr as [Hl Hu].
    assert (Hhalf : (2 # 1) ^ E == inject_Z 2 * (2 # 1) ^ (E - 1)).
    { replace E with (1 + (E - 1))%Z at 1 by lia. rewrite Qpow2_add. reflexivity. }
    rewrite Hhalf in HS1, HS2, Hl, Hu.
    pose proof (Qpow2_pos (E - 1)) as HP.
    set (P := (2 # 1) ^ (E - 1)) in *.
    assert (H1 : inject_Z (2 * N1 + -1) * P <= inject_Z (2 * q) * P).
    { rewrite inject_Z_plus, !inject_Z_mult.
      change (inject_Z (-1)) with (- (1))%Q. change (inject_Z 2) with 2%Q in *. lra. }
    assert (H2 : inject_Z (2 * q) * P <= inject_Z (2 * N2 + 1) * P).
    { rewrite inject_Z_plus, !inject_Z_mult.
      change (inject_Z 1) with 1%Q. change (inject_Z 2) with 2%Q in *. lra. }
    subst P.
    apply (proj1 (Qpow2_le_cancel _ _ _)) in H1, H2. lia. }
  destruct Hshape as [H | [[H _] | (m' & e' & H & Hb & _)]].
  - exfalso. rewrite H in Hq. cbn [SF2Q] in Hq. scale_zero_in E Hq.
    apply (proj1 (Qmult_inj_r _ _ _ (Qnot_eq_sym _ _ (Qlt_not_eq _ _ (Qpow2_pos _))))) in Hq.
    apply (proj1 (inject_Z_injective _ _)) in Hq. lia.
  - rewrite H in Hfin. discriminate.
  - rewrite H in Hq, Herr |- *. exists m', e'.
    split; [reflexivity | ]. split; [exact Hb | ].
    split; [ | split; [ | exact Herr]]; rewrite Hq; apply Qpow2_le_cancel; lia.
Qed.

(** The remainder of an exact multiple of the divisor is [+0]. *)
Lemma SF64rem_multiple (ms mb : positive) (es eb : Z) (n : Z) :
  SF2Q (S754_finite false ms es) == inject_Z n * SF2Q (S754_finite false mb eb) ->
  SF64rem (S754_finite false ms es) (S754_finite false mb eb) = S754_zero false.
Proof.
  intros Hv.
  destruct (SF64rem_finite false false ms mb es eb) as (_ & Hval & Hshape).
  cbv zeta in Hval, Hshape.
  set (e := Z.min es eb) in *.
  rewrite (SF2Q_aligned false ms es e), (SF2Q_aligned false mb eb e) in Hv by (subst e; lia).
  cbn [cond_Zopp] in Hv, Hval.
  rewrite Qmult_assoc, <- inject_Z_mult in Hv.
  apply (proj1 (Qmult_inj_r _ _ _ (Qnot_eq_sym _ _ (Qlt_not_eq _ _ (Qpow2_pos _))))) in Hv.
  apply (proj1 (inject_Z_injective _ _)) in Hv.
  rewrite Hv, Z.rem_mul, Qmult_0_l in Hval by lia.
  destruct Hshape as [H | (m' & e' & H)]; [exact H | ].
  exfalso. rewrite H in Hval. apply (SF2Q_finite_nonzero _ _ _ Hval).
Qed.

Lemma properMod_zero (s : bool) (mb : positive) (eb : Z) :
  properMod (S754_zero s) (S754_finite false mb eb) = S754_zero false.
Proof.
  unfold properMod. rewrite SF64rem_zero_l. unfold SF64add. cbn [SFadd].
  apply (SF64rem_multiple mb mb eb eb 1). rewrite Qmult_1_l. reflexivity.
Qed.

(** The wrap of a coordinate that is inside the world: the result is within
    [2 ^ -43] of the coordinate, or the coordinate was within [2 ^ -43] of
    the bound and the result is [+0]; and the wrap of the result is the
    result. *)
Lemma properMod_settles (v : number) (mb : positive) (eb W : Z) :
  let b := S754_finite false mb eb in
  bounded prec emax mb eb = true -> SF2Q b == inject_Z W -> (512 <= W < 1024)%Z ->
  valid_binary prec emax v = true -> in_range v b ->
  properMod (properMod v b) b = properMod v b /\
  (Qabs (SF2Q (properMod v b) - SF2Q v) <= (2 # 1) ^ (-43) \/
   properMod v b = S754_zero false /\ SF2Q b - SF2Q v <= (2 # 1) ^ (-43)).
Proof.
  intros b Hb HW HWr Hv (Hfin & Hlo & Hhi).
  assert (HbW : 512 <= SF2Q b /\ SF2Q b < 1024).
  { rewrite HW. split.
    - change 512 with (inject_Z 512). rewrite <- Zle_Qle. lia.
    - change 1024 with (inject_Z 1024). rewrite <- Zlt_Qlt. lia. }
  destruct v as [ sv | sv | | sv mv ev ]; try discriminate.
  - subst b. rewrite !properMod_zero. split; [reflexivity | left].
    cbn [SF2Q]. setoid_replace (0 - 0) with 0 by ring. discriminate.
  - pose proof (SF2Q_sign_pos _ _ _ Hlo) as ->. cbn [valid_binary] in Hv.
    set (x := S754_finite false mv ev) in *.
    assert (Hxpos : 0 < SF2Q x).
    { destruct (Qle_lt_or_eq _ _ Hlo) as [H | H]; [exact H | ].
      exfalso. apply (SF2Q_finite_nonzero false mv ev). symmetry. exact H. }
    assert (Hrem : SF64rem x b = x).
    { apply SF64rem_small; try assumption; try reflexivity.
      fold b. rewrite Qabs_pos by lra. exact Hhi. }
    assert (Hsum : exists m e,
               SF64add x b = S754_finite false m e /\ bounded prec emax m e = true /\
               SF2Q b <= SF2Q (S754_finite false m e) /\
               SF2Q (S754_finite false m e) <= SF2Q b + SF2Q b /\
               Qabs (SF2Q (S754_finite false m e) - (SF2Q x + SF2Q b)) <= (2 # 1) ^ (-43)).
    { destruct (Qlt_le_dec (SF2Q x + SF2Q b) 1024) as [Hsmall | Hlarge].
      - destruct (SF64add_between false false mv mb ev eb 10 (W * 2 ^ 43) (1024 * 2 ^ 43))
          as (m & e & Heq & Hbd & H1 & H2 & Herr).
        + reflexivity.
        + lia.
        + fold x. fold b. change ((2 # 1) ^ (10 - 1)) with 512. lra.
        + fold x. fold b. exact Hsmall.
        + fold x. fold b. change (fexp prec emax 10) with (-43)%Z.
          rewrite (Qpow2_shift W 43 0) by lia. rewrite <- HW. change ((2 # 1) ^ 0) with 1. lra.
        + fold x. fold b. change (fexp prec emax 10) with (-43)%Z.
          rewrite (Qpow2_shift 1024 43 0) by lia. change (inject_Z 1024 * (2 # 1) ^ 0) with 1024.
          lra.
        + exists m, e. fold x b in Heq, Herr. change (fexp prec emax 10) with (-43)%Z in *.
          rewrite (Qpow2_shift W 43 0) in H1 by lia.
          rewrite (Qpow2_shift 1024 43 0) in H2 by lia.
          rewrite <- HW in H1. change ((2 # 1) ^ 0) with 1 in H1.
          change (inject_Z 1024 * (2 # 1) ^ 0) with 1024 in H2.
          repeat split; try assumption; try lra.
          eapply Qle_trans; [exact Herr | discriminate].
      - destruct (SF64add_between false false mv mb ev eb 11 (1024 * 2 ^ 42) (2 * W * 2 ^ 42))
          as (m & e & Heq & Hbd & H1 & H2 & Herr).
        + reflexivity.
        + lia.
        + fold x. fold b. change ((2 # 1) ^ (11 - 1)) with 1024. exact Hlarge.
        + fold x. fold b. change ((2 # 1) ^ 11) with 2048. lra.
        + fold x. fold b. change (fexp prec emax 11) with (-42)%Z.
          rewrite (Qpow2_shift 1024 42 0) by lia. change (inject_Z 1024 * (2 # 1) ^ 0) with 1024.
          exact Hlarge.
        + fold x. fold b. change (fexp prec emax 11) with (-42)%Z.
          rewrite (Qpow2_shift (2 * W) 42 0) by lia. rewrite inject_Z_mult, <- HW.
          change (inject_Z 2) with 2. change ((2 # 1) ^ 0) with 1. lra.
        + exists m, e. fold x b in Heq, Herr. change (fexp prec emax 11) with (-42)%Z in *.
          rewrite (Qpow2_shift 1024 42 0) in H1 by lia.
          rewrite (Qpow2_shift (2 * W) 42 0) in H2 by lia.
          rewrite inject_Z_mult, <- HW in H2.
          change (inject_Z 2) with 2 in H2. change ((2 # 1) ^ 0) with 1 in H2.
          change (inject_Z 1024 * (2 # 1) ^ 0) with 1024 in H1.
          repeat split; try assumption; try lra. }
    destruct Hsum as (m & e & Hadd & Hbd & Hge & Hle & Herr).
    set (s := S754_finite false m e) in *.
    assert (Hpm : properMod x b = SF64rem s b).
    { unfold properMod. rewrite Hrem, Hadd. reflexivity. }
    rewrite Hpm.
    destruct (Qlt_le_dec (SF2Q s) (SF2Q b + SF2Q b)) as [Hlt | Hge2].
    + destruct (SF64rem_once m mb e eb Hbd Hb Hge Hlt) as (Hval & Hvalid & Hshape).
      fold s b in Hval, Hvalid, Hshape.
      split.
      * apply properMod_fixed; try assumption.
        -- split; [destruct Hshape as [-> | (m' & e' & ->)]; reflexivity | ].
           fold b. rewrite Hval. split; lra.
        -- destruct Hshape as [-> | (m' & e' & ->)]; discriminate.
        -- fold b. destruct Hshape as [Hr | (m' & e' & Hr)]; rewrite Hr in Hval |- *.
           ++ change (SF64add (S754_zero false) b) with b. cbn [SF2Q]. ring.
           ++ assert (Hs : SF64add (S754_finite false m' e') b = s).
              { apply SF64add_representable; [exact Hbd | ]. fold s b. rewrite Hval. ring. }
              rewrite Hs, Hval. ring.
      * left. rewrite Hval.
        setoid_replace (SF2Q s - SF2Q b - SF2Q x) with (SF2Q s - (SF2Q x + SF2Q b)) by ring.
        exact Herr.
    + assert (Heq2 : SF2Q s == inject_Z 2 * SF2Q b).
      { change (inject_Z 2) with 2. apply Qle_antisym; lra. }
      replace (SF64rem s b) with (S754_zero false)
        by (symmetry; apply (SF64rem_multiple m mb e eb 2 Heq2)).
      split; [apply properMod_zero | right]. split; [reflexivity | ].
      apply Qabs_Qle_condition in Herr. destruct Herr as [_ Hu].
      change (inject_Z 2) with 2 in Heq2. lra.
Qed.

(** X19: an idle player moves at most once, and hardly.  For a player
    whose flags are all false and whose position is inside the world (each
    coordinate a number in canonical form, as every number of the running
    program is), the first tick with a finite [deltaTime] may change a
    coordinate, by at most [2 ** -43] (or to [+0] from within [2 ** -43] of
    the bound), and every later tick with a finite [deltaTime] leaves the
    player exactly as the first tick left it. *)
Theorem updatePlayer_idle_settles :
  forall (i x0 y0 h deltaTime : number) (later : list number),
    valid_binary prec emax x0 = true -> valid_binary prec emax y0 = true ->
    in_bounds (mkPlayer i x0 y0 idle h) ->
    is_finite deltaTime = true -> Forall (fun dt => is_finite dt = true) later ->
    let settled := updatePlayer (mkPlayer i x0 y0 idle h) deltaTime in
    updatePlayerMany settled later = settled /\
    (Qabs (SF2Q (x settled) - SF2Q x0) <= (2 # 1) ^ (-43) \/
     x settled = S754_zero false /\ 800 - SF2Q x0 <= (2 # 1) ^ (-43)) /\
    (Qabs (SF2Q (y settled) - SF2Q y0) <= (2 # 1) ^ (-43) \/
     y settled = S754_zero false /\ 600 - SF2Q y0 <= (2 # 1) ^ (-43)).
Proof.
  intros i x0 y0 h deltaTime later Hvx Hvy [Hx Hy] Hdt Hlater settled. subst settled.
  cbn [x y] in Hx, Hy.
  rewrite updatePlayer_idle by exact Hdt. cbn [x y].
  rewrite WORLD_WIDTH_eq in Hx |- *. rewrite WORLD_HEIGHT_eq in Hy |- *.
  destruct (properMod_settles x0 7036874417766400 (-43) 800) as [Hsx Hdx];
    try assumption; try reflexivity; try lia.
  destruct (properMod_settles y0 5277655813324800 (-43) 600) as [Hsy Hdy];
    try assumption; try reflexivity; try lia.
  cbv zeta in Hsx, Hdx, Hsy, Hdy.
  split; [ | split].
  - induction Hlater as [ | dt dts Hfin _ IH ]; cbn [updatePlayerMany fold_left];
      [reflexivity | ].
    rewrite <- WORLD_WIDTH_eq, <- WORLD_HEIGHT_eq.
    rewrite updatePlayer_idle by exact Hfin.
    rewrite WORLD_WIDTH_eq, WORLD_HEIGHT_eq, Hsx, Hsy. exact IH.
  - destruct Hdx as [H | [H1 H2]]; [left; exact H | right].
    split; [exact H1 | ].
    rewrite <- WORLD_WIDTH_eq, WORLD_WIDTH_value in H2. exact H2.
  - destruct Hdy as [H | [H1 H2]]; [left; exact H | right].
    split; [exact H1 | ].
    rewrite <- WORLD_HEIGHT_eq, WORLD_HEIGHT_value in H2. exact H2.
Qed.

Lemma updatePlayer_idle_settles_witness :
  updatePlayerMany (updatePlayer (mkPlayer (num_of_Z 1) tenth tenth idle (num_of_Z 0)) tenth)
                   [tenth; tenth]
  = updatePlayer (mkPlayer (num_of_Z 1) tenth tenth idle (num_of_Z 0)) tenth.
Proof.
  apply (updatePlayer_idle_settles (num_of_Z 1) tenth tenth (num_of_Z 0) tenth [tenth; tenth]);
    try reflexivity.
  - split; in_range_by_evaluation.
  - repeat constructor.
Defined.

Local Open Scope Z_scope.

(** * Integer fields and numbers that are not integers *)

(** [truncate] rounds a finite number towards zero. *)
Lemma truncate_towards_zero (v : number) :
  is_finite v = true ->
  ((0 <= SF2Q v)%Q ->
   (inject_Z (truncate v) <= SF2Q v)%Q /\ (SF2Q v < inject_Z (truncate v) + 1)%Q) /\
  ((SF2Q v <= 0)%Q ->
   (SF2Q v <= inject_Z (truncate v))%Q /\ (inject_Z (truncate v) - 1 < SF2Q v)%Q).
Proof.
  intros Hfin. destruct v as [ s | s | | s m e ]; try discriminate.
  - cbn [truncate SF2Q]. split; intros _; split; try apply Qle_refl; reflexivity.
  - assert (Hmag : exists t : Z,
               truncate (S754_finite s m e) = cond_Zopp s t /\ 0 <= t /\
               (inject_Z t <= inject_Z (Zpos m) * (2 # 1) ^ e)%Q /\
               (inject_Z (Zpos m) * (2 # 1) ^ e < inject_Z t + 1)%Q).
    { cbn [truncate]. destruct (Z.leb_spec 0 e) as [He | He].
      - exists (Zpos m * 2 ^ e). split; [reflexivity | ].
        assert (0 < 2 ^ e) by (apply Z.pow_pos_nonneg; lia).
        split; [nia | ].
        rewrite inject_Z_mult, Qpow2_inject by exact He.
        split; [apply Qle_refl | lra].
      - exists (Zpos m / 2 ^ (- e)).
        assert (Hp : 0 < 2 ^ (- e)) by (apply Z.pow_pos_nonneg; lia).
        pose proof (Z.div_mod (Zpos m) (2 ^ (- e)) ltac:(lia)) as Hdm.
        pose proof (Z.mod_pos_bound (Zpos m) (2 ^ (- e)) Hp) as Hmb.
        split; [reflexivity | ]. split; [apply Z.div_pos; lia | ].
        assert (Hsc : forall z : Z,
                   (inject_Z z == inject_Z (z * 2 ^ (- e)) * (2 # 1) ^ e)%Q).
        { intros z. pose proof (Qpow2_shift z (- e) 0 ltac:(lia)) as H0.
          replace (0 - - e) with e in H0 by lia. rewrite H0.
          change ((2 # 1) ^ 0)%Q with 1%Q. ring. }
        split.
        + rewrite (Hsc (Zpos m / 2 ^ (- e))). apply Qpow2_le_cancel. nia.
        + rewrite <- (inject_Z_plus _ 1), (Hsc (Zpos m / 2 ^ (- e) + 1)).
          apply Qpow2_lt_cancel. nia. }
    destruct Hmag as (t & -> & Ht & Hlo & Hhi).
    rewrite SF2Q_signed.
    pose proof (magnitude_pos m e) as Hpos.
    destruct s; cbn [cond_Zopp]; rewrite ?inject_Z_opp; split; intros Hs; split; lra.
Qed.

(** X20: what an integer field stores for a number that is not an
    integer.  Writing any number to a field made by [allocUint8Field] or
    [allocUint32Field] that lies inside the view, then reading the field,
    gives the number's integer part modulo 256, respectively [2 ** 32]: a
    finite number is rounded towards zero first, and [NaN] and the
    infinities are stored as 0. *)
Theorem uint_field_truncates :
  forall (allocator : Allocator) (view : DataView) (baseOffset : Z) (v : number),
    (fits (fst (allocUint8Field allocator)) view baseOffset ->
     exists view',
       Field.write (fst (allocUint8Field allocator)) view baseOffset v = Normal view' /\
       Field.read (fst (allocUint8Field allocator)) view' baseOffset
         = Normal (num_of_Z (truncate v mod 2 ^ 8))) /\
    (fits (fst (allocUint32Field allocator)) view baseOffset ->
     exists view',
       Field.write (fst (allocUint32Field allocator)) view baseOffset v = Normal view' /\
       Field.read (fst (allocUint32Field allocator)) view' baseOffset
         = Normal (num_of_Z (truncate v mod 2 ^ 32))) /\
    (is_finite v = false -> truncate v = 0) /\
    (is_finite v = true ->
     ((0 <= SF2Q v)%Q ->
      (inject_Z (truncate v) <= SF2Q v)%Q /\ (SF2Q v < inject_Z (truncate v) + 1)%Q) /\
     ((SF2Q v <= 0)%Q ->
      (SF2Q v <= inject_Z (truncate v))%Q /\ (inject_Z (truncate v) - 1 < SF2Q v)%Q)).
Proof.
  intros allocator view baseOffset v.
  split; [ | split; [ | split]].
  - intros [Hlo Hhi]. cbn [allocUint8Field fst Field.offset Field.size Field.read Field.write]
      in *. unfold UINT8_SIZE in Hhi.
    exists (setByte view (baseOffset + iota allocator) (ToUint8 v)).
    unfold setUint8, getUint8.
    rewrite !in_view_true by (rewrite ?length_setByte; lia).
    split; [reflexivity | ]. rewrite getByte_setByte_same by lia. reflexivity.
  - intros [Hlo Hhi]. cbn [allocUint32Field fst Field.offset Field.size Field.read Field.write]
      in *. unfold UINT32_SIZE in Hhi.
    exists (setWord view (baseOffset + iota allocator) (ToUint32 v)).
    unfold setUint32, getUint32.
    rewrite !in_view_true by (rewrite ?length_setWord; lia).
    split; [reflexivity | ].
    rewrite getWord_setWord_same by (try lia; apply ToUint32_range). reflexivity.
  - destruct v; try discriminate; reflexivity.
  - apply truncate_towards_zero.
Qed.

Lemma uint_field_truncates_witness :
  exists view',
    Field.write (Hello.hue HelloStruct) (repeat 0 14) 0 S754_nan = Normal view' /\
    Field.read (Hello.hue HelloStruct) view' 0 = Normal (num_of_Z 0).
Proof.
  apply (proj1 (uint_field_truncates {| iota := 13 |} (repeat 0 14) 0 S754_nan)).
  unfold fits. cbn. lia.
Defined.

Local Open Scope Z_scope.
Local Open Scope Q_scope.

(** * The accuracy of a tick *)

(** A rounding that does not overflow is within half a unit of the
    canonical exponent of its argument. *)
Lemma binary_round_aux_error (pr em : Z) (s : bool) (m : positive) (e : Z) :
  (0 < pr)%Z -> (pr < em)%Z ->
  let E := fexp pr em (Zpos (digits2_pos m) + e) in
  let r := binary_round_aux pr em s (Zpos m) e loc_Exact in
  (exists s', r = S754_infinity s') \/
  (is_finite r = true /\
   Qabs (SF2Q r - SF2Q (S754_finite s m e)) <= (2 # 1) ^ (E - 1)).
Proof.
  intros Hpr Hem E r. subst r.
  pose proof (binary_round_aux_near pr em Hpr s m e) as H. cbv zeta in H. fold E in H.
  destruct H as [H | (Hfin & q & Hq & Hv)]; [left; exact H | right].
  split; [exact Hfin | ]. rewrite Hv. cbn [SF2Q].
  set (e1 := Z.max e E) in *. set (n := (e1 - e)%Z) in *.
  assert (Hn : (0 <= n)%Z) by (subst n e1; lia).
  assert (Hp : (0 < 2 ^ n)%Z) by (apply Z.pow_pos_nonneg; lia).
  rewrite <- (Qpow2_shift (cond_Zopp s q) n e1) by exact Hn.
  replace (e1 - n)%Z with e by (subst n; lia).
  setoid_replace (inject_Z (cond_Zopp s q * 2 ^ n) * (2 # 1) ^ e -
                  inject_Z (cond_Zopp s (Zpos m)) * (2 # 1) ^ e)
    with (inject_Z (cond_Zopp s (q * 2 ^ n - Zpos m)) * (2 # 1) ^ e).
  - rewrite Qabs_scaled.
    destruct (Z.eq_dec n 0) as [Hn0 | Hn0].
    + rewrite Hn0, Z.pow_0_r in Hq.
      replace (Z.abs (cond_Zopp s (q * 2 ^ n - Zpos m))) with 0%Z
        by (rewrite Hn0, Z.pow_0_r; destruct s; cbn [cond_Zopp]; lia).
      rewrite Qmult_0_l. apply Qlt_le_weak, Qpow2_pos.
    + assert (HE : e1 = E) by (subst n e1; lia).
      rewrite <- (Qpow2_shift (Z.abs (cond_Zopp s (q * 2 ^ n - Zpos m))) 1 e) by lia.
      setoid_replace ((2 # 1) ^ (E - 1)) with (inject_Z (2 ^ n) * (2 # 1) ^ (e - 1)).
      * apply Qpow2_le_cancel. destruct s; cbn [cond_Zopp]; lia.
      * rewrite Qpow2_inject, <- Qpow2_add by exact Hn.
        replace (n + (e - 1))%Z with (E - 1)%Z by (subst n; lia). reflexivity.
  - replace (cond_Zopp s (q * 2 ^ n - Zpos m))
      with (cond_Zopp s q * 2 ^ n + - cond_Zopp s (Zpos m))%Z
      by (destruct s; cbn [cond_Zopp]; lia).
    rewrite inject_Z_plus, inject_Z_opp. ring.
Qed.

(** The product of two finite numbers smaller than [2 ^ k] in magnitude is
    finite and within half a unit of the exact product. *)
Lemma SF64mul_near (a b : number) (k : Z) :
  is_finite a = true -> is_finite b = true ->
  Qabs (SF2Q a * SF2Q b) < (2 # 1) ^ k -> (k < emax)%Z ->
  (forall sa ma ea sb mb eb,
      a = S754_finite sa ma ea -> b = S754_finite sb mb eb -> (ea + eb <= emax - prec)%Z) ->
  is_finite (a * b)%num = true /\
  Qabs (SF2Q (a * b)%num - SF2Q a * SF2Q b) <= (2 # 1) ^ (fexp prec emax k - 1).
Proof.
  intros Ha Hb Hmag Hk Hexp.
  destruct a as [ sa | sa | | sa ma ea ], b as [ sb | sb | | sb mb eb ]; try discriminate;
    try (unfold SF64mul; cbn [SFmul is_finite SF2Q]; split; [reflexivity | ];
         rewrite ?Qmult_0_l, ?Qmult_0_r;
         setoid_replace (0 - 0) with 0 by ring; apply Qlt_le_weak, Qpow2_pos).
  specialize (Hexp sa ma ea sb mb eb eq_refl eq_refl).
  unfold SF64mul. cbn [SFmul].
  assert (Hval : SF2Q (S754_finite (xorb sa sb) (ma * mb) (ea + eb))
                 == SF2Q (S754_finite sa ma ea) * SF2Q (S754_finite sb mb eb)).
  { rewrite !SF2Q_signed, Pos2Z.inj_mul, inject_Z_mult, Qpow2_add.
    destruct sa, sb; cbn [xorb]; ring. }
  rewrite <- Hval in Hmag |- *.
  pose proof (mag_le_of_value (S754_finite (xorb sa sb) (ma * mb) (ea + eb)) k eq_refl Hmag)
    as HD. cbn [mag_le] in HD.
  pose proof (binary_round_aux_shape prec emax ltac:(reflexivity) ltac:(reflexivity)
                (xorb sa sb) (ma * mb) (ea + eb) loc_Exact) as Hshape.
  pose proof (binary_round_aux_error prec emax (xorb sa sb) (ma * mb) (ea + eb)
                ltac:(reflexivity) ltac:(reflexivity)) as Herr.
  cbv zeta in Hshape, Herr.
  destruct Herr as [[s' Hinf] | [Hfin Herr]].
  - exfalso. rewrite Hinf in Hshape.
    destruct Hshape as [H | [[_ Hov] | (m' & e' & H & _)]]; try discriminate.
    unfold emin, emax, prec in *. lia.
  - split; [exact Hfin | ].
    eapply Qle_trans; [exact Herr | ].
    apply Qpow2_le_mono. pose proof (fexp_mono prec emax _ _ HD). lia.
Qed.

(** The sum of two finite numbers, smaller than [2 ^ k] in magnitude, is
    finite and within half a unit of the exact sum. *)
Lemma SF64add_near (a b : number) (k : Z) :
  is_finite a = true -> is_finite b = true ->
  Qabs (SF2Q a + SF2Q b) < (2 # 1) ^ k -> (k < emax)%Z ->
  is_finite (a + b)%num = true /\
  Qabs (SF2Q (a + b)%num - (SF2Q a + SF2Q b)) <= (2 # 1) ^ (fexp prec emax k - 1).
Proof.
  intros Ha Hb Hmag Hk.
  assert (Hexact : forall v : number,
             is_finite v = true -> SF2Q v == SF2Q a + SF2Q b ->
             is_finite v = true /\
             Qabs (SF2Q v - (SF2Q a + SF2Q b)) <= (2 # 1) ^ (fexp prec emax k - 1)).
  { intros v Hv Heq. split; [exact Hv | ]. rewrite Heq.
    setoid_replace (SF2Q a + SF2Q b - (SF2Q a + SF2Q b)) with 0 by ring.
    apply Qlt_le_weak, Qpow2_pos. }
  destruct a as [ sa | sa | | sa ma ea ], b as [ sb | sb | | sb mb eb ]; try discriminate.
  - apply Hexact; destruct sa, sb; cbn; reflexivity.
  - apply Hexact; [reflexivity | ]. unfold SF64add. cbn [SFadd SF2Q]. ring.
  - apply Hexact; [reflexivity | ]. unfold SF64add. cbn [SFadd SF2Q]. ring.
  - pose proof (SF64add_aligned_value sa sb ma mb ea eb) as Hz. cbv zeta in Hz.
    unfold SF64add. cbn [SFadd].
    set (ez := Z.min ea eb) in *.
    set (z := (cond_Zopp sa (Zpos (fst (shl_align ma ea ez))) +
               cond_Zopp sb (Zpos (fst (shl_align mb eb ez))))%Z) in *.
    assert (Hround : forall (s : bool) (p : positive),
               z = cond_Zopp s (Zpos p) ->
               is_finite (binary_round prec emax s p ez) = true /\
               Qabs (SF2Q (binary_round prec emax s p ez) -
                     (SF2Q (S754_finite sa ma ea) + SF2Q (S754_finite sb mb eb)))
               <= (2 # 1) ^ (fexp prec emax k - 1)).
    { intros s p Hzp. rewrite Hzp in Hz.
      change (inject_Z (cond_Zopp s (Zpos p)) * (2 # 1) ^ ez)
        with (SF2Q (S754_finite s p ez)) in Hz.
      rewrite <- Hz in Hmag |- *.
      pose proof (mag_le_of_value (S754_finite s p ez) k eq_refl Hmag) as HD.
      cbn [mag_le] in HD.
      pose proof (binary_round_shape prec emax s p ez ltac:(reflexivity) ltac:(reflexivity))
        as Hshape.
      pose proof (binary_round_near prec emax s p ez ltac:(reflexivity) ltac:(reflexivity))
        as Herr.
      cbv zeta in Hshape, Herr.
      destruct Herr as [[s' Hinf] | (Hfin & _ & Herr)].
      - exfalso. rewrite Hinf in Hshape.
        destruct Hshape as [H | [[_ Hov] | (m' & e' & H & _)]]; try discriminate.
        unfold emin, emax, prec in *. lia.
      - split; [exact Hfin | ].
        eapply Qle_trans; [exact Herr | ].
        apply Qpow2_le_mono. pose proof (fexp_mono prec emax _ _ HD). lia. }
    destruct z as [ | p | p ] eqn:Hzeq; cbn [binary_normalize].
    + apply Hexact; [reflexivity | ]. rewrite <- Hz, Qmult_0_l. reflexivity.
    + apply (Hround false p). reflexivity.
    + apply (Hround true p). reflexivity.
Qed.

(** The remainder differs from the dividend by a whole multiple of the
    divisor. *)
Lemma SF64rem_congruent (a : number) (sb : bool) (mb : positive) (eb : Z) :
  is_finite a = true ->
  is_finite (SF64rem a (S754_finite sb mb eb)) = true /\
  Qabs (SF2Q (SF64rem a (S754_finite sb mb eb))) < Qabs (SF2Q (S754_finite sb mb eb)) /\
  exists k : Z,
    SF2Q a == inject_Z k * SF2Q (S754_finite sb mb eb) + SF2Q (SF64rem a (S754_finite sb mb eb)).
Proof.
  intros Ha. destruct (SF64rem_bound a sb mb eb Ha) as [Hfin Hlt].
  split; [exact Hfin | ]. split; [exact Hlt | ].
  destruct a as [ sa | sa | | sa ma ea ]; try discriminate.
  - exists 0%Z. rewrite SF64rem_zero_l. cbn [SF2Q]. ring.
  - destruct (SF64rem_spec sa sb ma mb ea eb) as (_ & _ & _ & Hk). exact Hk.
Qed.

(** One axis of a tick of at most a second, for a coordinate inside the
    world: the new coordinate is the old one plus speed times time, less a
    whole number of world sizes, up to [2 ^ -41]. *)
Lemma axis_accuracy (v dt : number) (vz W : Z) (mb : positive) (eb : Z) :
  let b := S754_finite false mb eb in
  SF2Q b == inject_Z W -> (512 <= W < 1024)%Z ->
  in_range v b -> is_finite dt = true -> Qabs (SF2Q dt) <= 1 -> (Z.abs vz <= 500)%Z ->
  exists n : Z,
    Qabs (SF2Q (properMod (v + dyadic vz 0 * dt)%num b)
          - (SF2Q v + inject_Z vz * SF2Q dt - inject_Z n * SF2Q b)) <= (2 # 1) ^ (-41).
Proof.
  intros b HW HWr (Hvfin & Hvlo & Hvhi) Hdt Hdt1 Hvz.
  assert (HbW : 512 <= SF2Q b /\ SF2Q b < 1024).
  { rewrite HW. split.
    - change 512 with (inject_Z 512). rewrite <- Zle_Qle. lia.
    - change 1024 with (inject_Z 1024). rewrite <- Zlt_Qlt. lia. }
  destruct (dyadic_valid vz 0 ltac:(lia) ltac:(lia)) as (_ & Hcfin & Hcval).
  change ((2 # 1) ^ (- 0)) with 1 in Hcval. rewrite Qmult_1_r in Hcval.
  set (c := dyadic vz 0) in *.
  assert (Hc500 : Qabs (SF2Q c) <= 500).
  { rewrite Hcval. change (Qabs (inject_Z vz)) with (inject_Z (Z.abs vz)).
    change 500 with (inject_Z 500). rewrite <- Zle_Qle. exact Hvz. }
  (* the displacement *)
  assert (Hprod : Qabs (SF2Q c * SF2Q dt) <= 500).
  { rewrite Qabs_Qmult.
    setoid_replace 500 with (500 * 1) by ring.
    apply Qmult_le_compat_nonneg; split; try apply Qabs_nonneg; assumption. }
  destruct (SF64mul_near c dt 9 Hcfin Hdt) as [Hdfin Hderr].
  { eapply Qle_lt_trans; [exact Hprod | reflexivity]. }
  { reflexivity. }
  { intros sa ma ea sb' mb' eb' Hceq Hdteq.
    assert (Hea : (ea <= 0)%Z).
    { destruct (Z.eq_dec vz 0) as [Hz | Hnz].
      - subst c. rewrite Hz, dyadic_zero in Hceq. discriminate.
      - destruct (dyadic_finite vz 0 Hnz ltac:(lia) ltac:(lia)) as (m0 & e0 & Heq0 & _ & He0 & _).
        subst c. rewrite Heq0 in Hceq. injection Hceq as _ _ <-. lia. }
    assert (Heb : (eb' <= 0)%Z).
    { rewrite Hdteq, Qabs_SF2Q_finite in Hdt1.
      apply Qpow2_le_mono.
      eapply Qle_trans; [ | exact Hdt1].
      setoid_replace ((2 # 1) ^ eb') with (inject_Z 1 * (2 # 1) ^ eb') at 1 by ring.
      apply Qpow2_le_cancel. lia. }
    unfold emax, prec. lia. }
  change (fexp prec emax 9 - 1)%Z with (-45)%Z in Hderr.
  set (d := (c * dt)%num) in *.
  (* the coordinate displaced *)
  apply Qabs_Qle_condition in Hprod, Hderr.
  destruct (SF64add_near v d 11 Hvfin Hdfin) as [Hafin Haerr].
  { apply Qabs_Qlt_condition. change ((2 # 1) ^ 11) with 2048.
    change ((2 # 1) ^ (-45)) with (1 # 35184372088832) in Hderr. lra. }
  { reflexivity. }
  change (fexp prec emax 11 - 1)%Z with (-43)%Z in Haerr.
  set (a := (v + d)%num) in *.
  (* the wrap *)
  unfold properMod.
  destruct (SF64rem_congruent a false mb eb Hafin) as (Hr1fin & Hr1lt & k1 & Hk1).
  fold b in Hr1fin, Hr1lt, Hk1. set (r1 := SF64rem a b) in *.
  assert (Hbabs : Qabs (SF2Q b) == SF2Q b) by (apply Qabs_pos; lra).
  rewrite Hbabs in Hr1lt. apply Qabs_Qlt_condition in Hr1lt.
  destruct (SF64add_near r1 b 11 Hr1fin eq_refl) as [Hsfin Hserr].
  { apply Qabs_Qlt_condition. change ((2 # 1) ^ 11) with 2048. lra. }
  { reflexivity. }
  change (fexp prec emax 11 - 1)%Z with (-43)%Z in Hserr.
  set (s := (r1 + b)%num) in *.
  destruct (SF64rem_congruent s false mb eb Hsfin) as (_ & _ & k2 & Hk2).
  fold b in Hk2. set (r2 := SF64rem s b) in *.
  exists (k1 + k2 - 1)%Z.
  unfold Z.sub. rewrite !inject_Z_plus, inject_Z_opp.
  change (inject_Z 1) with 1.
  apply Qabs_Qle_condition in Haerr, Hserr.
  apply Qabs_Qle_condition.
  change ((2 # 1) ^ (-45)) with (1 # 35184372088832) in *.
  change ((2 # 1) ^ (-43)) with (1 # 8796093022208) in *.
  change ((2 # 1) ^ (-41)) with (1 # 2199023255552).
  rewrite Hcval in Hderr.
  set (Pb1 := inject_Z k1 * SF2Q b) in *. set (Pb2 := inject_Z k2 * SF2Q b) in *.
  set (Pv := inject_Z vz * SF2Q dt) in *.
  setoid_replace ((inject_Z k1 + inject_Z k2 + - (1)) * SF2Q b)
    with (Pb1 + Pb2 - SF2Q b) by (subst Pb1 Pb2; ring).
  lra.
Qed.

(** One tick of at most a second, on both axes. *)
Lemma updatePlayer_tick_accuracy (player : Player) (deltaTime : number) :
  in_bounds player -> is_finite deltaTime = true -> Qabs (SF2Q deltaTime) <= 1 ->
  in_bounds (updatePlayer player deltaTime) /\
  (exists n : Z,
      Qabs (SF2Q (x (updatePlayer player deltaTime))
            - (SF2Q (x player)
               + inject_Z (fst (velocity (moving player))) * SF2Q deltaTime
               - inject_Z n * 800)) <= (2 # 1) ^ (-41)) /\
  (exists n : Z,
      Qabs (SF2Q (y (updatePlayer player deltaTime))
            - (SF2Q (y player)
               + inject_Z (snd (velocity (moving player))) * SF2Q deltaTime
               - inject_Z n * 600)) <= (2 # 1) ^ (-41)).
Proof.
  intros Hin Hfin Hdt.
  split.
  - apply updatePlayer_in_bounds; [exact Hin | ].
    apply mag_le_of_value; [exact Hfin | ].
    eapply Qle_lt_trans; [exact Hdt | reflexivity].
  - destruct Hin as [Hx Hy].
    destruct (speed_components (moving player)) as [Hcx Hcy].
    destruct (velocity_bound (moving player)) as [Hvx Hvy].
    unfold updatePlayer, displacement. cbn [x y fst snd].
    rewrite Hcx, Hcy. rewrite WORLD_WIDTH_eq in Hx |- *. rewrite WORLD_HEIGHT_eq in Hy |- *.
    split.
    + destruct (axis_accuracy (x player) deltaTime (fst (velocity (moving player))) 800
                  7036874417766400 (-43)) as [n Hn]; try assumption; try reflexivity; try lia.
      exists n. cbv zeta in Hn.
      rewrite <- WORLD_WIDTH_eq, WORLD_WIDTH_value in Hn.
      rewrite <- WORLD_WIDTH_eq. exact Hn.
    + destruct (axis_accuracy (y player) deltaTime (snd (velocity (moving player))) 600
                  5277655813324800 (-43)) as [n Hn]; try assumption; try reflexivity; try lia.
      exists n. cbv zeta in Hn.
      rewrite <- WORLD_HEIGHT_eq, WORLD_HEIGHT_value in Hn.
      rewrite <- WORLD_HEIGHT_eq. exact Hn.
Qed.

(** Errors add up over a run of ticks. *)
Lemma accuracy_step (x0 x1 xn v dt total e1 en b : Q) (n1 n2 : Z) :
  Qabs (x1 - (x0 + v * dt - inject_Z n1 * b)) <= e1 ->
  Qabs (xn - (x1 + v * total - inject_Z n2 * b)) <= en ->
  Qabs (xn - (x0 + v * (dt + total) - inject_Z (n1 + n2) * b)) <= en + e1.
Proof.
  intros H1 H2. apply Qabs_Qle_condition in H1, H2. apply Qabs_Qle_condition.
  rewrite inject_Z_plus.
  setoid_replace (v * (dt + total)) with (v * dt + v * total) by ring.
  setoid_replace ((inject_Z n1 + inject_Z n2) * b)
    with (inject_Z n1 * b + inject_Z n2 * b) by ring.
  set (P1 := inject_Z n1 * b) in *. set (P2 := inject_Z n2 * b) in *.
  set (V1 := v * dt) in *. set (V2 := v * total) in *.
  lra.
Qed.

Lemma updatePlayerMany_accuracy (deltaTimes : list number) :
  Forall (fun dt => is_finite dt = true /\ Qabs (SF2Q dt) <= 1) deltaTimes ->
  forall player : Player,
    in_bounds player ->
    in_bounds (updatePlayerMany player deltaTimes) /\
    (exists n : Z,
        Qabs (SF2Q (x (updatePlayerMany player deltaTimes))
              - (SF2Q (x player)
                 + inject_Z (fst (velocity (moving player)))
                   * fold_right (fun dt total => SF2Q dt + total) 0 deltaTimes
                 - inject_Z n * 800))
        <= inject_Z (Z.of_nat (List.length deltaTimes)) * (2 # 1) ^ (-41)) /\
    (exists n : Z,
        Qabs (SF2Q (y (updatePlayerMany player deltaTimes))
              - (SF2Q (y player)
                 + inject_Z (snd (velocity (moving player)))
                   * fold_right (fun dt total => SF2Q dt + total) 0 deltaTimes
                 - inject_Z n * 600))
        <= inject_Z (Z.of_nat (List.length deltaTimes)) * (2 # 1) ^ (-41)).
Proof.
  intros Hall. induction Hall as [ | dt dts [Hfin Hdt] _ IH ]; intros player Hin;
    cbn [updatePlayerMany fold_left fold_right List.length].
  - split; [exact Hin | ].
    split; exists 0%Z; rewrite !Qmult_0_r, !Qmult_0_l;
      match goal with
      | |- Qabs (?a - (?a + 0 - 0)) <= 0 =>
          setoid_replace (a - (a + 0 - 0)) with 0 by ring
      end; discriminate.
  - destruct (updatePlayer_tick_accuracy player dt Hin Hfin Hdt) as (Hin1 & [n1 Hx1] & [m1 Hy1]).
    destruct (IH (updatePlayer player dt) Hin1) as (Hinn & [n2 Hxn] & [m2 Hyn]).
    fold (updatePlayerMany (updatePlayer player dt) dts).
    change (moving (updatePlayer player dt)) with (moving player) in Hxn, Hyn.
    split; [exact Hinn | ].
    assert (Hsucc : inject_Z (Z.of_nat (S (List.length dts))) * (2 # 1) ^ (-41)
                    == inject_Z (Z.of_nat (List.length dts)) * (2 # 1) ^ (-41)
                       + (2 # 1) ^ (-41)).
    { rewrite Nat2Z.inj_succ. unfold Z.succ. rewrite inject_Z_plus.
      change (inject_Z 1) with 1. ring. }
    split; [exists (n1 + n2)%Z | exists (m1 + m2)%Z];
      (eapply Qle_trans; [eapply accuracy_step; eassumption | ]);
      rewrite Hsucc; apply Qle_refl.
Qed.

(** X21: the accuracy of the movement.  For a player inside the world
    bounds and any run of ticks whose [deltaTime]s are finite and at most
    one second in magnitude, whatever the movement flags are, the player
    stays inside the world, and each coordinate is what exact arithmetic
    gives up to [2 ** -41] (about [4.5e-13]) per tick: [x] is the initial
    [x] plus the speed on that axis times the total time, less a whole
    number of world widths, and likewise for [y].  For a single tick the
    error is at most [2 ** -41]. *)
Theorem updatePlayer_accuracy :
  forall (player : Player) (deltaTimes : list number),
    in_bounds player ->
    Forall (fun dt => is_finite dt = true /\ Qabs (SF2Q dt) <= 1) deltaTimes ->
    in_bounds (updatePlayerMany player deltaTimes) /\
    (exists n : Z,
        Qabs (SF2Q (x (updatePlayerMany player deltaTimes))
              - (SF2Q (x player)
                 + inject_Z (fst (velocity (moving player)))
                   * fold_right (fun dt total => SF2Q dt + total) 0 deltaTimes
                 - inject_Z n * 800))
        <= inject_Z (Z.of_nat (List.length deltaTimes)) * (2 # 1) ^ (-41)) /\
    (exists n : Z,
        Qabs (SF2Q (y (updatePlayerMany player deltaTimes))
              - (SF2Q (y player)
                 + inject_Z (snd (velocity (moving player)))
                   * fold_right (fun dt total => SF2Q dt + total) 0 deltaTimes
                 - inject_Z n * 600))
        <= inject_Z (Z.of_nat (List.length deltaTimes)) * (2 # 1) ^ (-41)) /\
    (forall deltaTime : number,
        deltaTimes = [deltaTime] ->
        exists n : Z,
          Qabs (SF2Q (x (updatePlayer player deltaTime))
                - (SF2Q (x player)
                   + inject_Z (fst (velocity (moving player))) * SF2Q deltaTime
                   - inject_Z n * 800)) <= (2 # 1) ^ (-41)).
Proof.
  intros player deltaTimes Hin Hall.
  destruct (updatePlayerMany_accuracy deltaTimes Hall player Hin) as (H1 & H2 & H3).
  split; [exact H1 | split; [exact H2 | split; [exact H3 | ]]].
  intros deltaTime ->. apply Forall_inv in Hall. destruct Hall as [Hfin Hdt].
  apply (updatePlayer_tick_accuracy player deltaTime Hin Hfin Hdt).
Qed.

Lemma updatePlayer_accuracy_witness :
  in_bounds (updatePlayerMany
               (mkPlayer (num_of_Z 1) tenth tenth (Moving.mk true false false true) (num_of_Z 0))
               [tenth; tenth; tenth]).
Proof.
  apply (updatePlayer_accuracy
           (mkPlayer (num_of_Z 1) tenth tenth (Moving.mk true false false true) (num_of_Z 0))
           [tenth; tenth; tenth]).
  - split; in_range_by_evaluation.
  - repeat constructor; discriminate.
Defined.

